(** * gcalsync: the reconciliation engine and its calendar access layer

    A shallow embedding of [background/sync.js] (class [SyncService]) and
    [background/calendar.js] (class [CalendarService]), with the properties
    the specification states about them.

    Layout:
    - [JsDate]: the part of the ECMAScript [Date] object the code uses;
    - the data model (events, requests, responses, settings);
    - [Platform]: the collaborators the two services call
      ([authService.makeAuthenticatedRequest], [storageService.getSettings],
      the clock, the local time zone);
    - the state-and-exception monad the asynchronous methods run in;
    - [CalendarService] and [SyncService], method by method;
    - [Cloud]: an executable calendar provider used to run the code;
    - the rest of the extension: [background/auth.js], the remaining
      methods of [utils/storage.js] and of the two services, the listeners
      of [background/index.js], over the browser interfaces [Browser], and
      [Chromium], an executable browser in front of [Cloud];
    - the theorems. *)

From stdpp Require Import base strings list gmap pretty.
From Stdlib Require Import ZArith Lia Ascii.

Local Open Scope Z_scope.

(* ===================================================================== *)
(** * The ECMAScript [Date] operations used by the code                   *)
(* ===================================================================== *)

(** A time value is a number of milliseconds since the epoch, as in
    ECMAScript; [None] stands for the time value [NaN] of an Invalid Date.
    Numbers are integers here; [TimeClip] keeps time values within the
    range of a [Date], which is inside the range where a double holds every
    integer exactly.

    Two things ECMAScript leaves to the implementation are parameters: the
    local time zone adjustment [tza] ([LocalTZA(t, isUTC)]: the offset of
    local time from UTC at the time value [t] when [isUTC] is [true], and
    the offset in effect at the local time [t] when it is [false]), and
    what [new Date(string)] makes of a string that is not in the date-time
    string format ([legacy]). *)
Module JsDate.

Definition msPerMinute : Z := 60000.
Definition msPerHour : Z := 3600000.
Definition msPerDay : Z := 86400000.

(** [Day(t)] and [TimeWithinDay(t)]. *)
Definition Day (t : Z) : Z := t `div` msPerDay.
Definition TimeWithinDay (t : Z) : Z := t `mod` msPerDay.
Definition MakeDate (day time : Z) : Z := day * msPerDay + time.
Definition MakeTime (h m s ms : Z) : Z :=
  h * msPerHour + m * msPerMinute + s * 1000 + ms.

Definition TZA : Type := Z → bool → Z.

(** A zone that is always [minutes] minutes east of UTC, and what it is
    for a zone never to change its offset [c] (in milliseconds). *)
Definition fixedOffset (minutes : Z) : TZA := λ _ _, minutes * msPerMinute.

Definition constantOffset (tza : TZA) (c : Z) : Prop := ∀ t isUTC, tza t isUTC = c.

Definition LocalTime (tza : TZA) (t : Z) : Z := t + tza t true.
Definition UTC (tza : TZA) (t : Z) : Z := t - tza t false.

(** [TimeClip(time)]: [NaN] beyond 100,000,000 days from the epoch. *)
Definition maxTime : Z := 8640000000000000.

Definition valid (t : Z) : Prop := Z.abs t ≤ maxTime.

Definition TimeClip (t : Z) : option Z :=
  if bool_decide (valid t) then Some t else None.

(** The proleptic Gregorian calendar: the civil date (year, month 1..12,
    day of month 1..31) of a day number counted from 1970-01-01. *)
Definition civil_from_days (day : Z) : Z * Z * Z :=
  let z := day + 719468 in
  let era := z `div` 146097 in
  let doe := z - era * 146097 in
  let yoe := (doe - doe `div` 1460 + doe `div` 36524 - doe `div` 146096) `div` 365 in
  let doy := doe - (365 * yoe + yoe `div` 4 - yoe `div` 100) in
  let mp := (5 * doy + 2) `div` 153 in
  let d := doy - (153 * mp + 2) `div` 5 + 1 in
  let m := if mp <? 10 then mp + 3 else mp - 9 in
  let y := yoe + era * 400 + (if m <=? 2 then 1 else 0) in
  (y, m, d).

(** The day number of a civil date. *)
Definition days_from_civil (y m d : Z) : Z :=
  let y' := if m <=? 2 then y - 1 else y in
  let era := y' `div` 400 in
  let yoe := y' - era * 400 in
  let doy := (153 * (if 2 <? m then m - 3 else m + 9) + 2) `div` 5 + d - 1 in
  let doe := yoe * 365 + yoe `div` 4 - yoe `div` 100 + doy in
  era * 146097 + doe - 719468.

(** The number of days of month [m] (1..12) of year [y]. *)
Definition daysInMonth (y m : Z) : Z :=
  (if bool_decide (m = 12) then days_from_civil (y + 1) 1 1
   else days_from_civil y (m + 1) 1)
  - days_from_civil y m 1.

(** [DateFromTime(t)]: the day of the month, 1..31. *)
Definition DateFromTime (t : Z) : Z := (civil_from_days (Day t)).2.

(** The day number of the first day of the month [t] falls in: the
    [Day(tv)] of [MakeDay(YearFromTime(t), MonthFromTime(t), dt)], which
    returns [Day(tv) + dt - 1]. *)
Definition monthStartDay (t : Z) : Z := Day t - (DateFromTime t - 1).

(** [Date.prototype.getDate()]: day of the month in local time, [NaN]
    ([None]) for an Invalid Date. *)
Definition getDate (tza : TZA) (d : option Z) : option Z :=
  t ← d; Some (DateFromTime (LocalTime tza t)).

(** [Date.prototype.setDate(dt)]; [dt = None] is [NaN]. *)
Definition setDate (tza : TZA) (d : option Z) (dt : option Z) : option Z :=
  t ← d; n ← dt;
  let lt := LocalTime tza t in
  TimeClip (UTC tza (MakeDate (monthStartDay lt + n - 1) (TimeWithinDay lt))).

(** [Date.prototype.setHours(h, m, s, ms)]. *)
Definition setHours (tza : TZA) (d : option Z) (h m s ms : Z) : option Z :=
  t ← d;
  let lt := LocalTime tza t in
  TimeClip (UTC tza (MakeDate (Day lt) (MakeTime h m s ms))).

(** ** [new Date(string)]

    The date-time string format of ECMAScript: a date [YYYY], [YYYY-MM] or
    [YYYY-MM-DD] (the year also as [+YYYYYY] or [-YYYYYY]), alone or
    followed by [T] and a time [HH:mm], [HH:mm:ss] or [HH:mm:ss.sss] with
    an optional offset [Z], [+HH:mm] or [-HH:mm].  Without an offset a date
    alone is UTC and a date with a time is local time.  A string with an
    element out of range is not in the format; [24:00:00] is the end of
    the day.  What becomes of a string that is not in the format is up to
    the implementation: [parse] hands it to [legacy]. *)
Definition digit (c : ascii) : option Z :=
  let n := Z.of_nat (nat_of_ascii c) in
  if (48 <=? n) && (n <=? 57) then Some (n - 48) else None.

Fixpoint chars (s : string) : list ascii :=
  match s with
  | EmptyString => []
  | String c s' => c :: chars s'
  end.

(** A number of exactly [n] digits at the head of [l], and the rest. *)
Fixpoint digits (n : nat) (acc : Z) (l : list ascii) : option (Z * list ascii) :=
  match n with
  | O => Some (acc, l)
  | S n' =>
      match l with
      | c :: l' => d ← digit c; digits n' (10 * acc + d) l'
      | [] => None
      end
  end.

Definition parseYear (l : list ascii) : option (Z * list ascii) :=
  match l with
  | "+"%char :: l' => digits 6 0 l'
  | "-"%char :: l' =>
      '(y, rest) ← digits 6 0 l';
      if bool_decide (y = 0) then None else Some (- y, rest)
  | _ => digits 4 0 l
  end.

(** Year, month and day of a date, the elements left out being [1]. *)
Definition parseDate (l : list ascii) : option (Z * Z * Z * list ascii) :=
  '(y, l1) ← parseYear l;
  match l1 with
  | "-"%char :: l2 =>
      '(mo, l3) ← digits 2 0 l2;
      match l3 with
      | "-"%char :: l4 => '(d, l5) ← digits 2 0 l4; Some (y, mo, d, l5)
      | _ => Some (y, mo, 1, l3)
      end
  | _ => Some (y, 1, 1, l1)
  end.

(** Hours, minutes, seconds and milliseconds of a time. *)
Definition parseTime (l : list ascii) : option (Z * Z * Z * Z * list ascii) :=
  '(h, l1) ← digits 2 0 l;
  match l1 with
  | ":"%char :: l2 =>
      '(mi, l3) ← digits 2 0 l2;
      match l3 with
      | ":"%char :: l4 =>
          '(sec, l5) ← digits 2 0 l4;
          match l5 with
          | "."%char :: l6 => '(ms, l7) ← digits 3 0 l6; Some (h, mi, sec, ms, l7)
          | _ => Some (h, mi, sec, 0, l5)
          end
      | _ => Some (h, mi, 0, 0, l3)
      end
  | _ => None
  end.

(** The offset suffix, in minutes east of UTC; [Some None] is "no suffix". *)
Definition parseOffset (l : list ascii) : option (option Z) :=
  match l with
  | [] => Some None
  | ["Z"%char] => Some (Some 0)
  | sg :: l1 =>
      '(h, l2) ← digits 2 0 l1;
      match l2 with
      | ":"%char :: l3 =>
          '(m, l4) ← digits 2 0 l3;
          if bool_decide (l4 = []) && (h <=? 23) && (m <=? 59) then
            if bool_decide (sg = "+"%char) then Some (Some (h * 60 + m))
            else if bool_decide (sg = "-"%char) then Some (Some (- (h * 60 + m)))
            else None
          else None
      | _ => None
      end
  end.

Definition validDate (y mo d : Z) : bool :=
  (1 <=? mo) && (mo <=? 12) && (1 <=? d) && (d <=? daysInMonth y mo).

Definition validTime (h mi sec ms : Z) : bool :=
  (mi <=? 59) && (sec <=? 59)
  && ((h <=? 23) || bool_decide (h = 24 ∧ mi = 0 ∧ sec = 0 ∧ ms = 0)).

(** A string in the format: [None] when [s] is not in it, otherwise the
    time value. *)
Definition parseFormat (tza : TZA) (s : string) : option (option Z) :=
  '(y, mo, d, l1) ← parseDate (chars s);
  if negb (validDate y mo d) then None
  else
    let day := days_from_civil y mo d in
    match l1 with
    | [] => Some (TimeClip (MakeDate day 0))
    | "T"%char :: l2 =>
        '(h, mi, sec, ms, l3) ← parseTime l2;
        off ← parseOffset l3;
        if negb (validTime h mi sec ms) then None
        else
          let t := MakeDate day (MakeTime h mi sec ms) in
          match off with
          | Some o => Some (TimeClip (t - o * msPerMinute))
          | None => Some (TimeClip (UTC tza t))
          end
    | _ => None
    end.

Definition parse (legacy : string → option Z) (tza : TZA) (s : string) : option Z :=
  match parseFormat tza s with
  | Some t => t
  | None => legacy s
  end.

(** A runtime that takes no string outside the format. *)
Definition strict : string → option Z := λ _, None.

(** Local midnight of the day [t] falls in, and the last millisecond of
    that day. *)
Definition startOfDay (tza : TZA) (t : Z) : Z :=
  UTC tza (MakeDate (Day (LocalTime tza t)) 0).

Definition endOfDay (tza : TZA) (t : Z) : Z :=
  UTC tza (MakeDate (Day (LocalTime tza t)) (msPerDay - 1)).

End JsDate.

(* ===================================================================== *)
(** * Data model                                                          *)
(* ===================================================================== *)

(** [event.start] / [event.end]: [{ dateTime, timeZone }]; an absent
    property is [None] ([undefined]). *)
Record EventTime := {
  dateTime : option string;
  timeZone : option string;
}.

(** A calendar event as the provider returns it, with the properties the
    code reads.  [syncedEvent] is
    [event.extendedProperties?.private?.syncedEvent]. *)
Record Event := {
  id : string;
  summary : option string;
  start : option EventTime;
  end_ : option EventTime;
  syncedEvent : option string;
}.

(** The object [createBusyEvent] posts.  [busy_syncTime] is the instant
    whose [toISOString()] is sent as [syncTime]. *)
Record BusyEvent := {
  busy_summary : string;
  busy_start : EventTime;
  busy_end : EventTime;
  busy_transparency : string;
  busy_visibility : string;
  busy_description : string;
  busy_syncedEvent : string;
  busy_syncTime : Z;
}.

(** The requests [CalendarService] hands to
    [authService.makeAuthenticatedRequest].  A list request always carries
    [singleEvents=true] and [orderBy=startTime]; [pageToken] is in the query
    only when it is not [null]. *)
Inductive Request :=
| GET_events (calendarId : string) (timeMin timeMax : Z)
             (maxResults : string) (pageToken : option string)
| POST_events (calendarId : string) (body : BusyEvent)
| DELETE_events (calendarId eventId : string).

(** What [response.json()] resolves to; [JUnparsable] makes it reject. *)
Inductive Json :=
| JList (items : option (list Event)) (nextPageToken : option string)
| JEvent (e : Event)
| JError (errorMessage : option string)
| JUnparsable.

Record Response := {
  status : Z;
  statusText : string;
  body : Json;
}.

(** [response.ok]: the status is in the range 200-299. *)
Definition ok (r : Response) : bool :=
  bool_decide (200 ≤ status r) && bool_decide (status r ≤ 299).

(** A thrown JavaScript error. *)
Record Exn := {
  exn_name : string;
  message : string;
}.

Definition Error (msg : string) : Exn := {| exn_name := "Error"; message := msg |}.
Definition TypeError (msg : string) : Exn := {| exn_name := "TypeError"; message := msg |}.
Definition RangeError (msg : string) : Exn := {| exn_name := "RangeError"; message := msg |}.
Definition SyntaxError (msg : string) : Exn := {| exn_name := "SyntaxError"; message := msg |}.

(** The settings object of [utils/storage.js]. *)
Record Settings := {
  targetCalendar : option string;
  sourceCalendars : option (list string);
  syncInterval : option Z;
  weeksAhead : option Z;    (* a number; [None] is [undefined] or [NaN] *)
}.

Global Instance EventTime_eq_dec : EqDecision EventTime.
Proof. solve_decision. Defined.
Global Instance Event_eq_dec : EqDecision Event.
Proof. solve_decision. Defined.
Global Instance BusyEvent_eq_dec : EqDecision BusyEvent.
Proof. solve_decision. Defined.
Global Instance Request_eq_dec : EqDecision Request.
Proof. solve_decision. Defined.

(** ** JavaScript truthiness and string conversion, where the code relies on them *)

(** [!s] is false exactly for a defined, non-empty string. *)
Definition truthy (s : option string) : bool :=
  match s with
  | Some s => negb (bool_decide (s = ""))
  | None => false
  end.

(** [a || b] on strings. *)
Definition orElse (a : option string) (b : string) : string :=
  match a with
  | Some s => if bool_decide (s = "") then b else s
  | None => b
  end.

(** A value inside a template literal. *)
Definition templ (s : option string) : string := default "undefined" s.

(** [a !== b] on numbers: [NaN] differs from everything, itself included. *)
Definition strictNe (a b : option Z) : bool :=
  match a, b with
  | Some x, Some y => negb (bool_decide (x = y))
  | _, _ => true
  end.

(** [e?.dateTime]. *)
Definition dateTimeOf (e : option EventTime) : option string := e ≫= dateTime.

(** [String.prototype.trim].  A string is held as its UTF-8 encoding, so
    the white space and line terminator code points of ECMAScript are one
    to three bytes long: U+0009 to U+000D and U+0020; U+00A0; U+1680;
    U+2000 to U+200A, U+2028, U+2029, U+202F, U+205F; U+3000; U+FEFF.
    [wsBytes c rest] is the number of bytes following [c] that complete
    such a code point at the head of [c :: rest] ([None] when there is
    none), and [wsBytesRev] the same reading backwards from the last
    byte. *)
Definition byte (c : ascii) : N := N_of_ascii c.

Definition wsBytes (c : ascii) (rest : list ascii) : option nat :=
  let b := byte c in
  if bool_decide ((9 ≤ b ≤ 13)%N ∨ b = 32%N) then Some 0%nat
  else
    match rest with
    | c1 :: rest1 =>
        let b1 := byte c1 in
        if bool_decide (b = 194%N ∧ b1 = 160%N) then Some 1%nat
        else
          match rest1 with
          | c2 :: _ =>
              let b2 := byte c2 in
              if bool_decide
                   ((b = 225 ∧ b1 = 154 ∧ b2 = 128)
                    ∨ (b = 226 ∧ b1 = 128
                       ∧ (128 ≤ b2 ≤ 138 ∨ b2 = 168 ∨ b2 = 169 ∨ b2 = 175))
                    ∨ (b = 226 ∧ b1 = 129 ∧ b2 = 159)
                    ∨ (b = 227 ∧ b1 = 128 ∧ b2 = 128)
                    ∨ (b = 239 ∧ b1 = 187 ∧ b2 = 191))%N
              then Some 2%nat else None
          | [] => None
          end
    | [] => None
    end.

Definition wsBytesRev (c : ascii) (before : list ascii) : option nat :=
  if bool_decide ((9 ≤ byte c ≤ 13)%N ∨ byte c = 32%N) then Some 0%nat
  else
    match before with
    | c1 :: before1 =>
        match wsBytes c1 [c] with
        | Some 1%nat => Some 1%nat
        | _ =>
            match before1 with
            | c2 :: _ =>
                match wsBytes c2 [c1; c] with
                | Some 2%nat => Some 2%nat
                | _ => None
                end
            | [] => None
            end
        end
    | [] => None
    end.

(** Dropping the white space at the head of a list of bytes, where
    [ws c rest] recognises a white space code point; [skip] is the number
    of bytes of the current code point still to be dropped. *)
Fixpoint dropWs (ws : ascii → list ascii → option nat) (skip : nat)
    (l : list ascii) : list ascii :=
  match l with
  | [] => []
  | c :: rest =>
      match skip with
      | S n => dropWs ws n rest
      | O =>
          match ws c rest with
          | Some n => dropWs ws n rest
          | None => l
          end
      end
  end.

Definition trimStart (s : string) : string :=
  String.string_of_list_ascii (dropWs wsBytes 0 (String.list_ascii_of_string s)).

Definition trimEnd (s : string) : string :=
  String.string_of_list_ascii
    (reverse (dropWs wsBytesRev 0 (reverse (String.list_ascii_of_string s)))).

Definition trim (s : string) : string := trimEnd (trimStart s).

(** ** The JavaScript [Map], in insertion order

    [set] on a key already present replaces the value and keeps the key's
    position; iteration follows insertion order. *)
Definition JsMap (V : Type) := list (string * V).

Fixpoint Map_set {V} (k : string) (v : V) (m : JsMap V) : JsMap V :=
  match m with
  | [] => [(k, v)]
  | (k', v') :: m' =>
      if bool_decide (k = k') then (k', v) :: m' else (k', v') :: Map_set k v m'
  end.

(** [new Map(entries)]. *)
Definition Map_new {V} (entries : list (string * V)) : JsMap V :=
  foldl (λ m kv, Map_set kv.1 kv.2 m) [] entries.

Definition Map_has {V} (m : JsMap V) (k : string) : bool :=
  bool_decide (k ∈ m.*1).

Definition Map_size {V} (m : JsMap V) : nat := length m.

(* ===================================================================== *)
(** * The collaborators and the monad of the asynchronous methods         *)
(* ===================================================================== *)

(** What the two services call and do not implement: the authenticated
    transport ([authService.makeAuthenticatedRequest], which may throw or
    resolve to a response), [chrome.storage.sync.get] for the settings key,
    the clock behind [new Date()] (reading it takes the world on: two
    readings need not agree), and the two parameters of [JsDate]: the local
    time zone of the runtime and its way with date strings outside the
    format.  [W] is the state of the world outside the extension. *)
Class Platform (W : Type) := {
  makeAuthenticatedRequest : Request → W → (Exn + Response) * W;
  chrome_storage_get : W → (Exn + option Settings) * W;
  Date_now : W → Z * W;
  LocalTZA : JsDate.TZA;
  Date_parse_legacy : string → option Z;
}.

(** How an evaluation ends.  [OutOfFuel] is only produced by the one
    unbounded loop of the code ([cleanupSyncedEvents]) when its fuel runs
    out; no handler catches it. *)
Inductive Completion (A : Type) :=
| Normal (a : A)
| Throw (e : Exn)
| OutOfFuel.
Global Arguments Normal {A} a.
Global Arguments Throw {A} e.
Global Arguments OutOfFuel {A}.

(** The state threaded through a method: the world, the two fields of the
    [SyncService] singleton, and two ghost fields: the requests made so far
    with what came back, and the value [_syncInProgress] had each time a
    method gave up control to wait for the browser (a request, a read of the
    storage), which is when another call of a method can run. *)
Record State (W : Type) := {
  world : W;
  _syncInProgress : bool;
  _lastSyncTime : option Z;
  trace : list (Request * (Exn + Response));
  awaited : list bool;
}.
Global Arguments world {W} s.
Global Arguments _syncInProgress {W} s.
Global Arguments _lastSyncTime {W} s.
Global Arguments trace {W} s.
Global Arguments awaited {W} s.

Definition M (W A : Type) : Type := State W → Completion A * State W.

Global Instance M_ret {W} : MRet (M W) := λ A a st, (Normal a, st).

Global Instance M_bind {W} : MBind (M W) := λ A B f m st,
  match m st with
  | (Normal a, st') => f a st'
  | (Throw e, st') => (Throw e, st')
  | (OutOfFuel, st') => (OutOfFuel, st')
  end.

Section Services.
Context {W : Type} {PF : Platform W}.

Definition throw {A} (e : Exn) : M W A := λ st, (Throw e, st).

(** [try { m } catch (error) { h error }] *)
Definition try_catch {A} (m : M W A) (h : Exn → M W A) : M W A := λ st,
  match m st with
  | (Throw e, st') => h e st'
  | r => r
  end.

(** [try { m } finally { f }], for a [finally] block that only assigns. *)
Definition try_finally {A} (m : M W A) (f : State W → State W) : M W A := λ st,
  match m st with
  | (OutOfFuel, st') => (OutOfFuel, st')
  | (r, st') => (r, f st')
  end.

(** A value or a synchronous throw, inside an asynchronous method. *)
Definition liftE {A} (r : Exn + A) : M W A :=
  match r with
  | inl e => throw e
  | inr a => mret a
  end.

(** [for (const x of xs) { acc = body acc x }] *)
Fixpoint forOf {A B} (body : B → A → M W B) (acc : B) (xs : list A) : M W B :=
  match xs with
  | [] => mret acc
  | x :: xs' => acc' ← body acc x; forOf body acc' xs'
  end.

(** [await authService.makeAuthenticatedRequest(...)], recorded in the trace. *)
Definition request (r : Request) : M W Response := λ st,
  let '(o, w') := makeAuthenticatedRequest r (world st) in
  let st' := {| world := w'; _syncInProgress := _syncInProgress st;
                _lastSyncTime := _lastSyncTime st;
                trace := trace st ++ [(r, o)];
                awaited := awaited st ++ [_syncInProgress st] |} in
  match o with
  | inl e => (Throw e, st')
  | inr resp => (Normal resp, st')
  end.

(** [new Date()]: the time the clock shows in [st], and the state once it
    has been read. *)
Definition nowAt (st : State W) : Z := (Date_now (world st)).1.

Definition afterDate (st : State W) : State W :=
  {| world := (Date_now (world st)).2; _syncInProgress := _syncInProgress st;
     _lastSyncTime := _lastSyncTime st; trace := trace st;
     awaited := awaited st |}.

Definition newDate : M W Z := λ st, (Normal (nowAt st), afterDate st).

(** [new Date(string)] *)
Definition Date_parse (s : string) : option Z :=
  JsDate.parse Date_parse_legacy LocalTZA s.

Definition set_syncInProgress (b : bool) (st : State W) : State W :=
  {| world := world st; _syncInProgress := b;
     _lastSyncTime := _lastSyncTime st; trace := trace st;
     awaited := awaited st |}.

Definition set_lastSyncTime (t : option Z) (st : State W) : State W :=
  {| world := world st; _syncInProgress := _syncInProgress st;
     _lastSyncTime := t; trace := trace st; awaited := awaited st |}.

Definition modify (f : State W → State W) : M W unit := λ st, (Normal (), f st).

(* ------------------------------------------------------------------- *)
(** ** [utils/storage.js]: [StorageService.getSettings]                 *)
(* ------------------------------------------------------------------- *)

Definition defaultSettings : Settings :=
  {| targetCalendar := Some ""; sourceCalendars := Some [];
     syncInterval := Some 60; weeksAhead := Some 4 |}.

Definition storage_get : M W (option Settings) := λ st,
  let '(o, w') := chrome_storage_get (world st) in
  let st' := {| world := w'; _syncInProgress := _syncInProgress st;
                _lastSyncTime := _lastSyncTime st; trace := trace st;
                awaited := awaited st ++ [_syncInProgress st] |} in
  match o with
  | inl e => (Throw e, st')
  | inr s => (Normal s, st')
  end.

Definition getSettings : M W Settings :=
  try_catch
    (settings ← storage_get; mret (default defaultSettings settings))
    (λ _, throw (Error "Failed to get settings")).

(* ------------------------------------------------------------------- *)
(** ** [background/calendar.js]: [CalendarService]                      *)
(* ------------------------------------------------------------------- *)

Definition FETCH_FAILED : string := "Failed to fetch calendar events".
Definition CREATE_FAILED : string := "Failed to create calendar event".
Definition DELETE_FAILED : string := "Failed to delete calendar event".

Definition httpStatus (response : Response) : string :=
  "HTTP " +:+ pretty (status response).

(** [errorData.error?.message], where [errorData] is the parsed body or
    [{}] when parsing fails. *)
Definition errorDataMessage (b : Json) : option string :=
  match b with
  | JError m => m
  | _ => None
  end.

(** [data.items || []] *)
Definition itemsOrEmpty (b : Json) : list Event :=
  match b with
  | JList (Some items) _ => items
  | _ => []
  end.

(** [await response.json()] *)
Definition json (response : Response) : M W Json :=
  match body response with
  | JUnparsable => throw (SyntaxError "Unexpected end of JSON input")
  | b => mret b
  end.

(** [fetchEvents(calendarId, timeMin, timeMax, options)], where the only
    option a caller passes is [{ pageToken }].  The two dates are [Date]
    objects at every call site; an Invalid Date makes [toISOString()]
    throw before the [try] block is entered. *)
Definition fetchEvents (calendarId : string) (timeMin timeMax : option Z)
    (pageToken : option string) : M W (list Event) :=
  if bool_decide (calendarId = "") then throw (Error "Calendar ID is required")
  else
    match timeMin, timeMax with
    | Some tmin, Some tmax =>
        try_catch
          (response ← request (GET_events calendarId tmin tmax "2500" pageToken);
           if negb (ok response) then
             throw (Error (httpStatus response +:+ ": " +:+
                           orElse (errorDataMessage (body response))
                                  (statusText response)))
           else
             data ← json response;
             mret (itemsOrEmpty data))
          (λ error, throw (Error (FETCH_FAILED +:+ ": " +:+ message error)))
    | _, _ => throw (RangeError "Invalid time value")
    end.

(** [createBusyEvent(calendarId, sourceEvent)]: [None] is the [null]
    returned for a skipped event. *)
Definition createBusyEvent (calendarId : string) (sourceEvent : Event)
    : M W (option Json) :=
  if negb (truthy (dateTimeOf (start sourceEvent)))
     || negb (truthy (dateTimeOf (end_ sourceEvent))) then mret None
  else
    let startTime := dateTimeOf (start sourceEvent) ≫= Date_parse in
    let endTime := dateTimeOf (end_ sourceEvent) ≫= Date_parse in
    if strictNe (JsDate.getDate LocalTZA startTime) (JsDate.getDate LocalTZA endTime)
    then mret None
    else
      now ← newDate;
      let busyEvent :=
        {| busy_summary := "Busy";
           busy_start := {| dateTime := dateTimeOf (start sourceEvent);
                            timeZone := start sourceEvent ≫= timeZone |};
           busy_end := {| dateTime := dateTimeOf (end_ sourceEvent);
                          timeZone := end_ sourceEvent ≫= timeZone |};
           busy_transparency := "opaque";
           busy_visibility := "private";
           busy_description := "Automatically synced busy time";
           busy_syncedEvent := "true";
           busy_syncTime := now |} in
      response ← try_catch
        (response ← request (POST_events calendarId busyEvent);
         if negb (ok response) then throw (Error (httpStatus response))
         else mret response)
        (λ _, throw (Error CREATE_FAILED));
      (* [return response.json()]: the promise is returned, not awaited,
         so its rejection is not handled by the [catch] above *)
      created ← json response;
      mret (Some created).

(** [deleteEvent(calendarId, eventId)] *)
Definition deleteEvent (calendarId eventId : string) : M W unit :=
  try_catch
    (response ← request (DELETE_events calendarId eventId);
     if negb (ok response) then throw (Error (httpStatus response))
     else mret ())
    (λ _, throw (Error DELETE_FAILED)).

(** [event.extendedProperties?.private?.syncedEvent === 'true'] *)
Definition isSynced (event : Event) : Prop := syncedEvent event = Some "true".

Global Instance isSynced_dec event : Decision (isSynced event).
Proof. unfold isSynced. apply _. Defined.

(** [data.nextPageToken], where [data] is the Array [fetchEvents]
    resolved to: an Array has no such property, the value is
    [undefined]. *)
Definition Array_nextPageToken (data : list Event) : option string := None.

(** The [do { ... } while (pageToken)] loop of [cleanupSyncedEvents]. *)
Fixpoint cleanupPages (fuel : nat) (calendarId : string)
    (startTime endTime : option Z) (allEvents : list Event)
    (pageToken : option string) : M W (list Event) :=
  match fuel with
  | O => λ st, (OutOfFuel, st)
  | S fuel' =>
      data ← fetchEvents calendarId startTime endTime pageToken;
      let allEvents := allEvents ++ data in
      let pageToken := Array_nextPageToken data in
      if truthy pageToken
      then cleanupPages fuel' calendarId startTime endTime allEvents pageToken
      else mret allEvents
  end.

(** [cleanupSyncedEvents(calendarId, startTime, endTime)] *)
Definition cleanupSyncedEvents (fuel : nat) (calendarId : string)
    (startTime endTime : option Z) : M W nat :=
  allEvents ← cleanupPages fuel calendarId startTime endTime [] None;
  let syncedEvents := filter isSynced allEvents in
  forOf (λ _ event, deleteEvent calendarId (id event)) () syncedEvents;;
  mret (length syncedEvents).

(* ------------------------------------------------------------------- *)
(** ** [background/sync.js]: [SyncService]                              *)
(* ------------------------------------------------------------------- *)

Definition NOT_CONFIGURED : string := "Extension not configured".
Definition CLEANUP_FAILED : string := "Cleanup operation failed".

(** Number arithmetic with [NaN]. *)
Definition numAdd (a b : option Z) : option Z := x ← a; y ← b; Some (x + y).
Definition numSub (a b : option Z) : option Z := x ← a; y ← b; Some (x - y).
Definition numMul (a b : option Z) : option Z := x ← a; y ← b; Some (x * y).

(** [n || 1] on a number: [0], [NaN] and [undefined] are falsy. *)
Definition numOr1 (n : option Z) : option Z :=
  match n with
  | Some 0 | None => Some 1
  | Some k => Some k
  end.

(** [_getDateRange(weeksAhead)] returns [{ cleanupStart, startDate, endDate }]. *)
Definition _getDateRange (weeksAhead : option Z)
    : M W (option Z * option Z * option Z) :=
  now ← newDate;
  let startDate := JsDate.setHours LocalTZA (Some now) 0 0 0 0 in
  let endDate := startDate in
  let endDate := JsDate.setDate LocalTZA endDate
                   (numAdd (JsDate.getDate LocalTZA startDate)
                           (numMul weeksAhead (Some 7))) in
  let endDate := JsDate.setHours LocalTZA endDate 23 59 59 999 in
  let cleanupStart := startDate in
  let cleanupStart := JsDate.setDate LocalTZA cleanupStart
                        (numSub (JsDate.getDate LocalTZA startDate) (Some 7)) in
  mret (cleanupStart, startDate, endDate).

(** [_createEventKey(event)] reads [event.start.dateTime] and
    [event.end.dateTime]; it is given the two properties [start] and
    [end].  Reading [dateTime] of [undefined] throws. *)
Definition _createEventKey (start_ end__ : option EventTime) : Exn + string :=
  match start_, end__ with
  | Some s, Some e => inr (templ (dateTime s) +:+ "_" +:+ templ (dateTime e))
  | _, _ => inl (TypeError "Cannot read properties of undefined (reading 'dateTime')")
  end.

(** [.map(event => [this._createEventKey(event), event])] *)
Fixpoint keyedEntries (events : list Event) : Exn + list (string * Event) :=
  match events with
  | [] => inr []
  | event :: rest =>
      match _createEventKey (start event) (end_ event) with
      | inl e => inl e
      | inr k =>
          match keyedEntries rest with
          | inl e => inl e
          | inr entries => inr ((k, event) :: entries)
          end
      end
  end.

(** The time range of a sync run: [startTime] and [endTime], each made
    from its own reading of the clock. *)
Definition syncRange (now1 now2 : Z) (weeksAhead : option Z) : option Z * option Z :=
  let startTime := Some now1 in
  let startTime := JsDate.setDate LocalTZA startTime
                     (numSub (JsDate.getDate LocalTZA startTime) (Some 7)) in
  let endTime := Some now2 in
  let endTime := JsDate.setDate LocalTZA endTime
                   (numAdd (JsDate.getDate LocalTZA endTime)
                           (numMul weeksAhead (Some 7))) in
  (startTime, endTime).

(** The body of [for (const event of events)]. *)
Definition syncEvent (targetCalendar : string) (existingSyncedMap : JsMap Event)
    (eventsToKeep : gset string) (event : Event) : M W (gset string) :=
  if negb (truthy (dateTimeOf (start event)))
     || negb (truthy (dateTimeOf (end_ event))) then mret eventsToKeep
  else
    let startTime := dateTimeOf (start event) ≫= Date_parse in
    let endTime := dateTimeOf (end_ event) ≫= Date_parse in
    if strictNe (JsDate.getDate LocalTZA startTime) (JsDate.getDate LocalTZA endTime)
    then mret eventsToKeep
    else
      eventKey ← liftE (_createEventKey
                          (Some {| dateTime := dateTimeOf (start event);
                                   timeZone := None |})
                          (Some {| dateTime := dateTimeOf (end_ event);
                                   timeZone := None |}));
      (if negb (Map_has existingSyncedMap eventKey)
       then createBusyEvent targetCalendar event;; mret ()
       else mret ());;
      mret ({[ eventKey ]} ∪ eventsToKeep).

(** The body of [for (const sourceCalendar of sourceCalendars)]. *)
Definition syncSource (targetCalendar : string) (startTime endTime : option Z)
    (existingSyncedMap : JsMap Event) (eventsToKeep : gset string)
    (sourceCalendar : string) : M W (gset string) :=
  events ← fetchEvents sourceCalendar startTime endTime None;
  forOf (syncEvent targetCalendar existingSyncedMap) eventsToKeep events.

(** The body of [for (const [eventKey, event] of existingSyncedMap)]. *)
Definition deleteObsolete (targetCalendar : string) (eventsToKeep : gset string)
    (_ : unit) (entry : string * Event) : M W unit :=
  if negb (bool_decide (entry.1 ∈ eventsToKeep))
  then deleteEvent targetCalendar (id entry.2)
  else mret ().

(** The [try] block of [performSync]. *)
Definition performSync_try : M W unit :=
  modify (set_syncInProgress true);;
  settings ← getSettings;
  if negb (truthy (targetCalendar settings))
     || bool_decide (default [] (sourceCalendars settings) = [])
  then throw (Error "Sync settings not configured")
  else
    let targetCalendar := trim (default "" (targetCalendar settings)) in
    let sourceCalendars := trim <$> default [] (sourceCalendars settings) in
    now1 ← newDate;
    now2 ← newDate;
    let '(startTime, endTime) := syncRange now1 now2 (weeksAhead settings) in
    existingSyncedEvents ← fetchEvents targetCalendar startTime endTime None;
    entries ← liftE (keyedEntries (filter isSynced existingSyncedEvents));
    let existingSyncedMap := Map_new entries in
    eventsToKeep ← forOf (syncSource targetCalendar startTime endTime existingSyncedMap)
                     ∅ sourceCalendars;
    forOf (deleteObsolete targetCalendar eventsToKeep) () existingSyncedMap;;
    now ← newDate;
    modify (set_lastSyncTime (Some now)).

(** [performSync()] *)
Definition performSync : M W unit := λ st,
  if _syncInProgress st then (Normal (), st)
  else
    try_finally
      (try_catch performSync_try (λ error, throw error))
      (set_syncInProgress false) st.

(** [cleanupAll()] *)
Definition cleanupAll (fuel : nat) : M W unit :=
  try_catch
    (settings ← getSettings;
     if negb (truthy (targetCalendar settings)) then throw (Error NOT_CONFIGURED)
     else
       '(cleanupStart, _, endDate) ← _getDateRange (numOr1 (weeksAhead settings));
       cleanupSyncedEvents fuel (default "" (targetCalendar settings))
                           cleanupStart endDate;;
       mret ())
    (λ _, throw (Error CLEANUP_FAILED)).

Definition getLastSyncTime (st : State W) : option Z := _lastSyncTime st.

Definition isSyncing (st : State W) : bool := _syncInProgress st.

End Services.

(* ===================================================================== *)
(** * An executable calendar provider                                     *)
(* ===================================================================== *)

(** A model of the provider behind the transport, after the interface the
    specification gives for it (list with paging, insert, delete), used to
    run the services on concrete calendars.  It stores what is posted
    verbatim, answers a delete of an unknown id with 404, serves a listing
    in pages of at most [pageSize] events when that is set, and can be
    scripted: an entry [Some o] of [faults] replaces the provider's answer
    to the next request by [o]. *)
Module Cloud.

Record World := {
  calendars : gmap string (list Event);
  nextId : nat;
  clock : Z;
  stored : option Settings;
  pageSize : option nat;
  faults : list (option (Exn + Response));
}.

(** The events a listing of the range covers: those ending after
    [timeMin] and starting before [timeMax]; an event without concrete
    times is always listed. *)
Definition instant (s : string) : option Z :=
  JsDate.parse JsDate.strict (JsDate.fixedOffset 0) s.

Definition inWindow (timeMin timeMax : Z) (ev : Event) : Prop :=
  match dateTimeOf (start ev) ≫= instant,
        dateTimeOf (end_ ev) ≫= instant with
  | Some s, Some e => timeMin < e ∧ s < timeMax
  | _, _ => True
  end.

Global Instance inWindow_dec timeMin timeMax ev : Decision (inWindow timeMin timeMax ev).
Proof. unfold inWindow. repeat case_match; apply _. Defined.

Definition respond (st : Z) (txt : string) (b : Json) : Response :=
  {| status := st; statusText := txt; body := b |}.

Definition notFound : Response := respond 404 "Not Found" (JError (Some "Not Found")).

(** The offset a page token stands for. *)
Definition offsetOf (pageToken : option string) (len : nat) : option nat :=
  match pageToken with
  | None => Some 0%nat
  | Some tok => head (filter (λ n : nat, pretty n = tok) (seq 0 (S len)))
  end.

Definition listPage (w : World) (matching : list Event) (pageToken : option string)
    : Response :=
  match offsetOf pageToken (length matching) with
  | None => respond 400 "Bad Request" (JError (Some "Invalid page token"))
  | Some off =>
      match pageSize w with
      | None => respond 200 "OK" (JList (Some (drop off matching)) None)
      | Some n =>
          respond 200 "OK"
            (JList (Some (take n (drop off matching)))
                   (if bool_decide (off + n < length matching)%nat
                    then Some (pretty (off + n)%nat) else None))
      end
  end.

Definition withCalendar (w : World) (calendarId : string) (evs : list Event) : World :=
  {| calendars := <[calendarId := evs]> (calendars w); nextId := nextId w;
     clock := clock w; stored := stored w; pageSize := pageSize w;
     faults := faults w |}.

Definition freshId (n : nat) : string := "evt" +:+ pretty n.

Definition stored_event (n : nat) (b : BusyEvent) : Event :=
  {| id := freshId n; summary := Some (busy_summary b);
     start := Some (busy_start b); end_ := Some (busy_end b);
     syncedEvent := Some (busy_syncedEvent b) |}.

(** The provider's own answer to a request. *)
Definition serve (r : Request) (w : World) : Response * World :=
  match r with
  | GET_events c tmin tmax _ tok =>
      match calendars w !! c with
      | None => (notFound, w)
      | Some evs => (listPage w (filter (inWindow tmin tmax) evs) tok, w)
      end
  | POST_events c b =>
      match calendars w !! c with
      | None => (notFound, w)
      | Some evs =>
          let ev := stored_event (nextId w) b in
          (respond 200 "OK" (JEvent ev),
           {| calendars := <[c := evs ++ [ev]]> (calendars w);
              nextId := S (nextId w); clock := clock w; stored := stored w;
              pageSize := pageSize w; faults := faults w |})
      end
  | DELETE_events c i =>
      match calendars w !! c with
      | None => (notFound, w)
      | Some evs =>
          if bool_decide (i ∈ id <$> evs)
          then (respond 204 "No Content" JUnparsable,
                withCalendar w c (filter (λ ev, id ev ≠ i) evs))
          else (notFound, w)
      end
  end.

Definition popFault (w : World) : World :=
  {| calendars := calendars w; nextId := nextId w; clock := clock w;
     stored := stored w; pageSize := pageSize w; faults := tail (faults w) |}.

Definition handle (r : Request) (w : World) : (Exn + Response) * World :=
  match faults w with
  | Some o :: _ => (o, popFault w)
  | _ => let '(resp, w') := serve r (popFault w) in (inr resp, w')
  end.

(** The platform: the provider, the stored settings, a clock that shows
    [clock] until the world is put forward (see [later]), and a runtime in
    the time zone [tza] that takes no date string outside the format. *)
Definition platform (tza : JsDate.TZA) : Platform World :=
  {| makeAuthenticatedRequest := handle;
     chrome_storage_get := λ w, (inr (stored w), w);
     Date_now := λ w, (clock w, w);
     LocalTZA := tza;
     Date_parse_legacy := JsDate.strict |}.

Definition init (w : World) : State World :=
  {| world := w; _syncInProgress := false; _lastSyncTime := None; trace := [];
     awaited := [] |}.

(** The same world, [ms] milliseconds later, and the state of the
    services in it. *)
Definition later (ms : Z) (w : World) : World :=
  {| calendars := calendars w; nextId := nextId w; clock := clock w + ms;
     stored := stored w; pageSize := pageSize w; faults := faults w |}.

Definition wait (ms : Z) (st : State World) : State World :=
  {| world := later ms (world st); _syncInProgress := _syncInProgress st;
     _lastSyncTime := _lastSyncTime st; trace := trace st;
     awaited := awaited st |}.

(** The events of a calendar (none when the calendar does not exist). *)
Definition eventsOf (st : State World) (calendarId : string) : list Event :=
  default [] (calendars (world st) !! calendarId).

End Cloud.

(** The requests of a trace that create, and those that delete. *)
Definition isCreate (r : Request) : bool :=
  match r with POST_events _ _ => true | _ => false end.

Definition isDelete (r : Request) : bool :=
  match r with DELETE_events _ _ => true | _ => false end.

Definition creates (tr : list (Request * (Exn + Response))) : list Request :=
  List.filter isCreate tr.*1.

Definition deletes (tr : list (Request * (Exn + Response))) : list Request :=
  List.filter isDelete tr.*1.

(* ===================================================================== *)
(** * Properties of runs                                                  *)
(* ===================================================================== *)

(** The requests of a trace that create, and those that delete: see
    [creates] and [deletes] above.  The predicates below speak about what a
    method requests, how it ends, and what it makes of an answer. *)
Section Properties.
Context {W : Type} {PF : Platform W}.
Import JsDate.

(** [calls st new st']: from [st] to [st'] the requests [new] were made,
    and the two fields of the service kept their values. *)
Definition calls (st : State W) (new : list (Request * (Exn + Response)))
    (st' : State W) : Prop :=
  _syncInProgress st' = _syncInProgress st
  ∧ _lastSyncTime st' = _lastSyncTime st
  ∧ trace st' = trace st ++ new.

(** The requests made between two states of one run. *)
Definition issued (st st' : State W) : list (Request * (Exn + Response)) :=
  drop (length (trace st)) (trace st').

(** [Issues P m]: [m] ends (it does not run out of fuel), leaves the
    fields of the service alone, and every request it makes satisfies [P]. *)
Definition Issues {A} (P : Request * (Exn + Response) → Prop) (m : M W A) : Prop :=
  ∀ st r st', m st = (r, st') →
    r ≠ OutOfFuel ∧ ∃ new, calls st new st' ∧ Forall P new.

Definition isList (c : string) (tok : option string)
    (x : Request * (Exn + Response)) : Prop :=
  ∃ tmin tmax, x.1 = GET_events c tmin tmax "2500" tok.

Definition isInsert (c : string) (x : Request * (Exn + Response)) : Prop :=
  ∃ b, x.1 = POST_events c b.

Definition notDelete (x : Request * (Exn + Response)) : Prop :=
  isDelete x.1 = false.

(** The requests of a sync run: listings without a page token, inserts
    and deletes. *)
Definition syncRequest (x : Request * (Exn + Response)) : Prop :=
  (∃ c, isList c None x) ∨ isCreate x.1 = true ∨ isDelete x.1 = true.

(** A request that neither creates nor deletes. *)
Definition readOnly (x : Request * (Exn + Response)) : Prop :=
  isCreate x.1 = false ∧ isDelete x.1 = false.

(** [Ends P m]: [m] ends, keeps the latch as it is, and only adds requests
    satisfying [P] to the trace (it may record a sync time). *)
Definition Ends {A} (P : Request * (Exn + Response) → Prop) (m : M W A) : Prop :=
  ∀ st r st', m st = (r, st') →
    r ≠ OutOfFuel ∧ _syncInProgress st' = _syncInProgress st
    ∧ ∃ new, trace st' = trace st ++ new ∧ Forall P new.

(** [Records m]: when [m] returns it has recorded the current time as the
    last sync time, and when it throws the recorded time is the one it
    started with. *)
Definition Records {A} (m : M W A) : Prop :=
  ∀ st r st', m st = (r, st') →
    match r with
    | Normal _ => ∃ st1, _lastSyncTime st' = Some (nowAt st1)
                         ∧ world st' = world (afterDate st1)
    | Throw _ => _lastSyncTime st' = _lastSyncTime st
    | OutOfFuel => False
    end.

(** [Waits m]: [m] leaves the latch as it is, and each time it waits for
    the browser the latch has the value it had when [m] started. *)
Definition Waits {A} (m : M W A) : Prop :=
  ∀ st r st', m st = (r, st') →
    _syncInProgress st' = _syncInProgress st
    ∧ ∃ k, awaited st' = awaited st ++ replicate k (_syncInProgress st).

(** What [fetchEvents] makes of the outcome of its one request. *)
Definition fetchOutcome (o : Exn + Response) : Completion (list Event) :=
  match o with
  | inl e => Throw (Error (FETCH_FAILED +:+ ": " +:+ message e))
  | inr response =>
      if ok response then
        match body response with
        | JUnparsable =>
            Throw (Error (FETCH_FAILED +:+ ": " +:+ "Unexpected end of JSON input"))
        | b => Normal (itemsOrEmpty b)
        end
      else
        Throw (Error (FETCH_FAILED +:+ ": " +:+
                      (httpStatus response +:+ ": " +:+
                       orElse (errorDataMessage (body response))
                              (statusText response))))
  end.

(** What [deleteEvent] makes of the outcome of its request. *)
Definition deleteOutcome (o : Exn + Response) : Completion unit :=
  match o with
  | inl _ => Throw (Error DELETE_FAILED)
  | inr response =>
      if ok response then Normal () else Throw (Error DELETE_FAILED)
  end.

(** The object [createBusyEvent] posts for [sourceEvent] at time [now]. *)
Definition busyEventOf (sourceEvent : Event) (now : Z) : BusyEvent :=
  {| busy_summary := "Busy";
     busy_start := {| dateTime := dateTimeOf (start sourceEvent);
                      timeZone := start sourceEvent ≫= timeZone |};
     busy_end := {| dateTime := dateTimeOf (end_ sourceEvent);
                    timeZone := end_ sourceEvent ≫= timeZone |};
     busy_transparency := "opaque";
     busy_visibility := "private";
     busy_description := "Automatically synced busy time";
     busy_syncedEvent := "true";
     busy_syncTime := now |}.

(** What [createBusyEvent] makes of the outcome of its request. *)
Definition createOutcome (o : Exn + Response) : Completion (option Json) :=
  match o with
  | inl _ => Throw (Error CREATE_FAILED)
  | inr response =>
      if ok response then
        match body response with
        | JUnparsable => Throw (SyntaxError "Unexpected end of JSON input")
        | b => Normal (Some b)
        end
      else Throw (Error CREATE_FAILED)
  end.

(** The test both [performSync] and [createBusyEvent] apply to a source
    event: a start and an end [dateTime], falling on the same day of the
    month in local time. *)
Definition eligible (ev : Event) : bool :=
  truthy (dateTimeOf (start ev)) && truthy (dateTimeOf (end_ ev))
  && negb (strictNe
             (JsDate.getDate LocalTZA (dateTimeOf (start ev) ≫= Date_parse))
             (JsDate.getDate LocalTZA (dateTimeOf (end_ ev) ≫= Date_parse))).

(** The key of an event: its two [dateTime] strings. *)
Definition slotKey (ev : Event) : string :=
  templ (dateTimeOf (start ev)) +:+ "_" +:+ templ (dateTimeOf (end_ ev)).

(** The listing of the specification's [listEvents]: when an answer
    carries a continuation token, fetch the next page with it, and return
    the pages concatenated. *)
Fixpoint listAllPages (fuel : nat) (calendarId : string) (timeMin timeMax : Z)
    (pageToken : option string) : M W (list Event) :=
  match fuel with
  | O => λ st, (OutOfFuel, st)
  | S fuel' =>
      response ← request (GET_events calendarId timeMin timeMax "2500" pageToken);
      if negb (ok response) then throw (Error FETCH_FAILED)
      else
        match body response with
        | JList items next =>
            if truthy next
            then rest ← listAllPages fuel' calendarId timeMin timeMax next;
                 mret (default [] items ++ rest)
            else mret (default [] items)
        | _ => mret []
        end
  end.

(** The target event with id [i] was listed, tagged, in the trace [tr]:
    some successful answer to a list request on calendar [c] holds it. *)
Definition listedTagged (tr : list (Request * (Exn + Response))) (c i : string) : Prop :=
  ∃ a b mr tok response ev,
    (GET_events c a b mr tok, inr response) ∈ tr ∧ ok response = true
    ∧ ev ∈ itemsOrEmpty (body response) ∧ isSynced ev ∧ id ev = i.

(** The entry [x] of the trace [tr] comes after a listing of calendar [c]
    that returned the event with id [i] carrying the tag. *)
Definition listedBefore (tr : list (Request * (Exn + Response)))
    (x : Request * (Exn + Response)) (c i : string) : Prop :=
  ∃ before after, tr = before ++ x :: after ∧ listedTagged before c i.

(** The range the specification describes for a sync run: from the start
    of the day seven days before [now] to the end of the day [weeksAhead]
    weeks after [now]. *)
Definition dayAlignedRange (now weeksAhead : Z) : option Z * option Z :=
  (Some (startOfDay LocalTZA (now - 7 * msPerDay)),
   Some (endOfDay LocalTZA (now + weeksAhead * 7 * msPerDay))).

End Properties.

(* ===================================================================== *)
(** * Properties of the provider's worlds                                 *)
(* ===================================================================== *)

Section CloudProperties.
Context (tza : JsDate.TZA).
Import Cloud.

#[local] Hint Extern 0 (Platform _) =>
  exact (Cloud.platform tza) : typeclass_instances.

(** A provider that answers every request itself and lists in one page. *)
Definition quiet (w : World) : Prop := faults w = [] ∧ pageSize w = None.

Definition calOf (w : World) (c : string) : list Event :=
  default [] (calendars w !! c).

(** [w] with calendar [c] holding [evs] and the id counter at [n]. *)
Definition setCal (w : World) (c : string) (evs : list Event) (n : nat) : World :=
  {| calendars := <[c := evs]> (calendars w); nextId := n; clock := clock w;
     stored := stored w; pageSize := pageSize w; faults := faults w |}.

(** What the run reads from the settings. *)
Definition configured (w : World) : Settings := default defaultSettings (stored w).

Definition targetOf (w : World) : string :=
  trim (default "" (targetCalendar (configured w))).

Definition sourcesOf (w : World) : list string :=
  trim <$> default [] (sourceCalendars (configured w)).

(** The range of a run that starts in [w]. *)
Definition rangeOf (w : World) : option Z * option Z :=
  syncRange (clock w) (clock w) (weeksAhead (configured w)).

(** The calendars a run reads: the target and the sources. *)
Definition involved (w : World) : list string := targetOf w :: sourcesOf w.

(** No event of the calendars of [w] that a run reads is inside one of the
    ranges [r1] and [r2] and outside the other. *)
Definition sameEventsInRange (w : World) (r1 r2 : option Z * option Z) : Prop :=
  ∀ a1 b1 a2 b2, r1 = (Some a1, Some b1) → r2 = (Some a2, Some b2) →
    ∀ c ev, c ∈ involved w → ev ∈ calOf w c →
      inWindow a1 b1 ev ↔ inWindow a2 b2 ev.

(** The state of the source phase: the events [C] created so far sit at the
    end of the target calendar under fresh ids, each in the range, with its
    key kept; every kept key is the key of an eligible event a source
    calendar holds in the range, and is a key of the map or of a created
    event. *)
Definition SrcInv (w0 : World) (target : string) (T0 : list Event) (a b : Z)
    (map1 : JsMap Event) (sources : list string) (C : list Event) (keep : gset string) (st : State World) : Prop :=
  world st = setCal w0 target (T0 ++ C) (nextId w0 + length C)
  ∧ Forall (λ c, (∃ n, (nextId w0 ≤ n)%nat ∧ id c = freshId n)
                 ∧ isSynced c ∧ inWindow a b c
                 ∧ eligible c = true ∧ slotKey c ∈ keep) C
  ∧ (∀ k, k ∈ keep →
       ∃ s e, s ∈ sources ∧ e ∈ calOf (world st) s ∧ inWindow a b e
              ∧ eligible e = true ∧ slotKey e = k)
  ∧ (∀ k, k ∈ keep → Map_has map1 k = true ∨ ∃ c, c ∈ C ∧ slotKey c = k).

(** The tagged events of the first listing, the events the first run
    deletes, the target calendar after it, and the tagged events of the
    second listing. *)
Definition listed1 (T0 : list Event) (a b : Z) : list Event := filter isSynced (filter (inWindow a b) T0).

Definition obsolete1 (T0 : list Event) (a b : Z) (keep : gset string) : list Event := filter (λ ev, slotKey ev ∉ keep) (listed1 T0 a b).

Definition after1 (T0 C : list Event) (a b : Z) (keep : gset string) : list Event := filter (λ ev, id ev ∉ id <$> obsolete1 T0 a b keep) (T0 ++ C).

Definition listed2 (T0 C : list Event) (a b : Z) (keep : gset string) : list Event := filter isSynced (filter (inWindow a b) (after1 T0 C a b keep)).

(** The world the second run starts in. *)
Definition world2 (w0 : World) (target : string) (T0 C : list Event) (a b : Z)
    (keep : gset string) : World := setCal w0 target (after1 T0 C a b keep) (nextId w0 + length C).

(** The ids of the target calendar are the provider's: pairwise distinct,
    and none of them is an id the provider has yet to hand out. *)
Definition providerIds (w : World) : Prop :=
  ∀ T0, calendars w !! targetOf w = Some T0 →
    NoDup (id <$> T0)
    ∧ ∀ n, (nextId w ≤ n)%nat → freshId n ∉ (id <$> T0).

(** No two tagged events of the target calendar have the same slot-key. *)
Definition distinctSlots (w : World) : Prop :=
  ∀ T0, calendars w !! targetOf w = Some T0 →
    NoDup (slotKey <$> filter isSynced T0).

End CloudProperties.

(* ===================================================================== *)
(** * Concrete calendars                                                  *)
(* ===================================================================== *)

Module Scenario.

Definition timed (i s e : string) (tag : option string) : Event :=
  {| id := i; summary := None;
     start := Some {| dateTime := Some s; timeZone := None |};
     end_ := Some {| dateTime := Some e; timeZone := None |};
     syncedEvent := tag |}.

Definition settings : Settings :=
  {| targetCalendar := Some "work"; sourceCalendars := Some ["home"; "club"];
     syncInterval := Some 60; weeksAhead := Some 4 |}.

(** 2024-06-01T12:00:00Z *)
Definition noon : Z := 1717243200000.

Definition cloud (cals : list (string * list Event)) : Cloud.World :=
  {| Cloud.calendars := list_to_map cals; Cloud.nextId := 0; Cloud.clock := noon;
     Cloud.stored := Some settings; Cloud.pageSize := None; Cloud.faults := [] |}.

(** A runtime on UTC-4, and one on UTC. *)
Definition eastern : Platform Cloud.World := Cloud.platform (JsDate.fixedOffset (-240)).
Definition utc : Platform Cloud.World := Cloud.platform (JsDate.fixedOffset 0).

(** New York in 2024: UTC-5, and UTC-4 from 10 March, 07:00 UTC, to
    3 November, 06:00 UTC.  A local time that the clocks skip or show twice
    is read with the offset before the change. *)
Definition dstStart : Z := 1710054000000.
Definition dstEnd : Z := 1730613600000.

Definition newYorkTZA : JsDate.TZA := λ t isUTC,
  let from := if isUTC then dstStart else dstStart - 4 * JsDate.msPerHour in
  let to := if isUTC then dstEnd else dstEnd - 4 * JsDate.msPerHour in
  if (from <=? t) && (t <? to) then -4 * JsDate.msPerHour
  else -5 * JsDate.msPerHour.

Definition newYork : Platform Cloud.World := Cloud.platform newYorkTZA.

Definition slot9 (i : string) (tag : option string) : Event :=
  timed i "2024-06-03T09:00:00-04:00" "2024-06-03T09:30:00-04:00" tag.

Definition slot14 (i : string) (tag : option string) : Event :=
  timed i "2024-06-03T14:00:00-04:00" "2024-06-03T14:30:00-04:00" tag.

(** Two source calendars, each with an event in the same slot. *)
Definition sameSlot : State Cloud.World :=
  Cloud.init (cloud [("work", []); ("home", [slot9 "h1" None]);
                     ("club", [slot9 "c1" None])]).

(** A source event from 1 June 10:00 to 1 July 10:00 (UTC-4). *)
Definition monthLong : Event :=
  timed "h1" "2024-06-01T10:00:00-04:00" "2024-07-01T10:00:00-04:00" None.

(** The event of the specification's scenario, across midnight. *)
Definition overnight : Event :=
  timed "h2" "2024-06-01T23:00:00-04:00" "2024-06-02T01:00:00-04:00" None.

Definition withMonthLong : State Cloud.World :=
  Cloud.init (cloud [("work", []); ("home", [monthLong]); ("club", [])]).

Definition withOvernight : State Cloud.World :=
  Cloud.init (cloud [("work", []); ("home", [overnight]); ("club", [])]).

(** A target whose listing takes two pages. *)
Definition threeEvents : list Event :=
  [slot9 "a" None; slot14 "b" (Some "true");
   timed "c" "2024-06-04T09:00:00-04:00" "2024-06-04T09:30:00-04:00" (Some "true")].

Definition paged : State Cloud.World :=
  Cloud.init {| Cloud.calendars := {[ "work" := threeEvents ]}; Cloud.nextId := 0;
                Cloud.clock := noon; Cloud.stored := Some settings;
                Cloud.pageSize := Some 2%nat; Cloud.faults := [] |}.

(** A stale tagged event in the target, next to an untagged one; the
    sources are empty. *)
Definition stale : State Cloud.World :=
  Cloud.init (cloud [("work", [slot9 "old1" (Some "true"); slot14 "mtg" None]);
                     ("home", []); ("club", [])]).

(** The same, where the provider answers the fourth request (the delete)
    with 404. *)
Definition staleGone : State Cloud.World :=
  Cloud.init {| Cloud.calendars :=
                  list_to_map [("work", [slot9 "old1" (Some "true")]);
                               ("home", []); ("club", [])];
                Cloud.nextId := 0; Cloud.clock := noon;
                Cloud.stored := Some settings; Cloud.pageSize := None;
                Cloud.faults := [None; None; None; Some (inr Cloud.notFound)] |}.

(** Three tagged and two untagged events in the target. *)
Definition threeTagged : State Cloud.World :=
  Cloud.init (cloud [("work", [slot9 "s1" (Some "true"); slot9 "m1" None;
                               slot14 "s2" (Some "true"); slot14 "m2" None;
                               timed "s3" "2024-06-04T09:00:00-04:00"
                                     "2024-06-04T09:30:00-04:00" (Some "true")]);
                     ("home", []); ("club", [])]).

(** A state in which a sync is under way. *)
Definition busy : State Cloud.World :=
  {| world := world sameSlot; _syncInProgress := true;
     _lastSyncTime := Some 5; trace := []; awaited := [] |}.

(** A configuration naming a target calendar the provider does not have,
    after an earlier successful sync at time 5. *)
Definition noTarget : State Cloud.World :=
  {| world := cloud [("home", []); ("club", [])]; _syncInProgress := false;
     _lastSyncTime := Some 5; trace := []; awaited := [] |}.

(** A stale tagged event in the target and a new event in a source: the
    scenario of the specification. *)
Definition staleAndNew : State Cloud.World :=
  Cloud.init (cloud [("work", [slot9 "old1" (Some "true"); slot14 "mtg" None]);
                     ("home", [slot14 "h1" None]); ("club", [])]).

(** A source event that starts one hour after the end of the range of a
    run made at [noon]. *)
Definition atEdge : State Cloud.World :=
  Cloud.init (cloud [("work", []);
                     ("home", [timed "h1" "2024-06-29T13:00:00Z"
                                     "2024-06-29T13:30:00Z" None]);
                     ("club", [])]).

(** [Scenario.threeTagged] on a provider that lists two events to the
    page. *)
Definition threeTaggedPaged : State Cloud.World :=
  Cloud.init {| Cloud.calendars := Cloud.calendars (world threeTagged);
                Cloud.nextId := 0; Cloud.clock := noon;
                Cloud.stored := Some settings; Cloud.pageSize := Some 2%nat;
                Cloud.faults := [] |}.

(** A run on the Friday before the clocks of New York go forward:
    2024-03-08T17:00:00Z, noon there, looking one week ahead. *)
Definition beforeDst : State Cloud.World :=
  Cloud.init {| Cloud.calendars := list_to_map [("work", []); ("home", [])];
                Cloud.nextId := 0; Cloud.clock := 1709917200000;
                Cloud.stored :=
                  Some {| targetCalendar := Some "work";
                          sourceCalendars := Some ["home"];
                          syncInterval := Some 60; weeksAhead := Some 1 |};
                Cloud.pageSize := None; Cloud.faults := [] |}.

(** Two tagged events in the target for one slot, as a run over two sources
    sharing the slot leaves them, once the sources have dropped it. *)
Definition twoStale : State Cloud.World :=
  Cloud.init (cloud [("work", [slot9 "evt0" (Some "true"); slot9 "evt1" (Some "true")]);
                     ("home", []); ("club", [])]).

End Scenario.

(* ===================================================================== *)
(** * The rest of the extension                                           *)
(* ===================================================================== *)

(** [background/auth.js], the remaining methods of [utils/storage.js],
    [CalendarService.fetchCalendarList], [SyncService.initializeSyncAlarm]
    and the listeners of [background/index.js].  They sit between the
    browser and the two services above: [Browser] lists the browser
    interfaces they call, and [platformOf] is the [Platform] the two
    services get once [authService] is in place. *)

(** An entry of the user's calendar list, with the two properties the
    popup reads. *)
Record CalendarEntry := {
  cal_id : string;
  cal_summary : string;
}.

(** The answer to the calendar list request.  [list_json] is what
    [response.json()] gives: [None] when it rejects, otherwise the value of
    [data.items] ([None] when the property is absent). *)
Record ListResponse := {
  list_status : Z;
  list_json : option (option (list CalendarEntry));
}.

Definition list_ok (r : ListResponse) : bool :=
  bool_decide (200 ≤ list_status r) && bool_decide (list_status r ≤ 299).

(** The browser interfaces.  [chrome_identity_getAuthToken] calls back with
    a token ([inr]) or with [chrome.runtime.lastError] set, of which the
    message is given ([inl]).  [fetch] is the network, at the event URLs
    ([Request]) and at the calendar list URL, with the token sent as
    [Authorization: Bearer]; it may reject.  The storage functions are
    those of [chrome.storage.sync] at the one key the extension uses.
    [chrome_alarms_create] is given the alarm name and [periodInMinutes]. *)
Class Browser (W : Type) := {
  chrome_identity_getAuthToken : bool → W → (string + string) * W;
  chrome_identity_removeCachedAuthToken : string → W → W;
  fetch : Request → string → W → (Exn + Response) * W;
  fetch_calendarList : string → W → (Exn + ListResponse) * W;
  chrome_storage_sync_get : W → (Exn + option Settings) * W;
  chrome_storage_sync_set : Settings → W → (Exn + unit) * W;
  chrome_storage_sync_remove : W → (Exn + unit) * W;
  chrome_alarms_create : string → option Z → W → (Exn + unit) * W;
  browser_now : W → Z * W;
  browser_tza : JsDate.TZA;
  browser_parse_legacy : string → option Z;
}.

(** An asynchronous browser-level operation: it ends with an error or a
    value, in a new world. *)
Definition IO (W A : Type) : Type := W → (Exn + A) * W.

(* --------------------------------------------------------------------- *)
(** ** [background/auth.js]: [AuthenticationService]                      *)
(* --------------------------------------------------------------------- *)

(** The methods are awaited one at a time here, so [_tokenPromise] is
    [null] whenever [getToken] is entered: the [finally] handler has reset
    it by the time the promise of the previous call has settled. *)
Module Auth.

Definition USER_REJECTED : string := "User declined to authenticate".
Definition TOKEN_FAILED : string := "Failed to obtain authentication token".
Definition REFRESH_FAILED : string := "Failed to refresh authentication token".

Section Auth.
Context {W : Type} {BR : Browser W}.

Definition ret {A} (a : A) : IO W A := λ w, (inr a, w).

Definition bind {A B} (m : IO W A) (f : A → IO W B) : IO W B := λ w,
  match m w with
  | (inr a, w') => f a w'
  | (inl e, w') => (inl e, w')
  end.

Definition throw {A} (e : Exn) : IO W A := λ w, (inl e, w).

Definition try_catch {A} (m : IO W A) (h : Exn → IO W A) : IO W A := λ w,
  match m w with
  | (inl e, w') => h e w'
  | r => r
  end.

(** [getToken(interactive)] *)
Definition getToken (interactive : bool) : IO W string := λ w,
  match chrome_identity_getAuthToken interactive w with
  | (inl lastError, w') =>
      (inl (Error (if bool_decide (lastError = "OAuth2 not granted or revoked.")
                   then USER_REJECTED else TOKEN_FAILED)), w')
  | (inr token, w') => (inr token, w')
  end.

(** [removeToken(token)] *)
Definition removeToken (token : string) : IO W unit := λ w,
  (inr (), chrome_identity_removeCachedAuthToken token w).

(** [refreshToken(token)] *)
Definition refreshToken (token : string) : IO W string :=
  try_catch
    (bind (removeToken token) (λ _, getToken true))
    (λ _, throw (Error REFRESH_FAILED)).

(** [makeAuthenticatedRequest(url, options)], for a family [Rq] of URLs
    and options whose answers [Rs] have a status; [send url token] is
    [fetch(url, { ...options, headers: { ..., Authorization } })]. *)
Definition makeAuthenticatedRequest {Rq Rs} (send : Rq → string → IO W Rs)
    (statusOf : Rs → Z) (url : Rq) : IO W Rs :=
  try_catch
    (bind (getToken false) (λ token,
     bind (send url token) (λ response,
     if bool_decide (statusOf response = 401) then
       bind (refreshToken token) (λ newToken, send url newToken)
     else ret response)))
    (λ error, throw error).

End Auth.
End Auth.

(** The platform of the two services in the browser: requests go through
    [authService], settings come from [chrome.storage.sync]. *)
Definition platformOf {W} (BR : Browser W) : Platform W :=
  {| makeAuthenticatedRequest := Auth.makeAuthenticatedRequest fetch status;
     chrome_storage_get := chrome_storage_sync_get;
     Date_now := browser_now;
     LocalTZA := browser_tza;
     Date_parse_legacy := browser_parse_legacy |}.

(* --------------------------------------------------------------------- *)
(** ** The remaining methods of the services, and [background/index.js]   *)
(* --------------------------------------------------------------------- *)

(** A message of the popup: [request.action], and [request.interval] for
    [updateAlarm]. *)
Record Message := {
  action : option string;
  interval : option Z;
}.

(** What [handleMessage] resolves to. *)
Inductive Reply :=
| ReplyCalendars (calendars : list CalendarEntry)       (* { success: true, calendars } *)
| ReplyDone                                             (* { success: true } *)
| ReplySynced (lastSync : option Z)                     (* { success: true, lastSync } *)
| ReplyStatus (isSyncing : bool) (lastSync : option Z)  (* { success: true, isSyncing, lastSync } *)
| ReplyError (error : string).                          (* { success: false, error } *)

Definition success (r : Reply) : bool :=
  match r with
  | ReplyError _ => false
  | _ => true
  end.

(** Truthiness of a number: [0], [NaN] and [undefined] are falsy. *)
Definition truthyNum (n : option Z) : bool :=
  match n with
  | Some 0 | None => false
  | Some _ => true
  end.

(** [parseInt(x)] for a number [x], which is first converted to a string.
    An integer below 10^21 in absolute value becomes its decimal notation
    (the shortest digits that denote it, and zeros), which parses back to
    it.  A larger one becomes [d.ddde+n] with the shortest digits that
    denote it, of which [parseInt] reads the digit before the point:
    [leadingDigit] is that digit, for an integer [n] that a double holds.
    With [lo] and [hi] the bounds of the reals that round to [n], it is
    the digit of the multiple of the highest power of ten that lies
    between them if there is one, and the first digit of [n] otherwise.
    [NaN] and [undefined] give [NaN]. *)
Definition leadingDigit (n : Z) : Z :=
  let e := Z.log2 n in
  let half := 2 ^ (e - 53) in
  let lo := n - (if bool_decide (n = 2 ^ e) then half `div` 2 else half) in
  let hi := n + half in
  let even := Z.even (n `div` 2 ^ (e - 52)) in
  let p := 10 ^ (Z.of_nat (String.length (pretty n)) - 1) in
  let m := if even then (lo + p - 1) `div` p else lo `div` p + 1 in
  if (if even then m * p <=? hi else m * p <? hi)
  then (if bool_decide (m = 10) then 1 else m)
  else n `div` p.

Definition parseInt (x : option Z) : option Z :=
  n ← x;
  if bool_decide (Z.abs n < 10 ^ 21) then Some n
  else Some (Z.sgn n * leadingDigit (Z.abs n)).

Section Extension.
Context {W : Type} {BR : Browser W}.

#[local] Existing Instance platformOf.

(** A browser-level operation awaited inside a method. *)
Definition liftIO {A} (io : IO W A) : M W A := λ st,
  let '(o, w') := io (world st) in
  let st' := {| world := w'; _syncInProgress := _syncInProgress st;
                _lastSyncTime := _lastSyncTime st; trace := trace st;
                awaited := awaited st ++ [_syncInProgress st] |} in
  match o with
  | inl e => (Throw e, st')
  | inr a => (Normal a, st')
  end.

(** A call of a browser function that is not awaited: what it throws is
    thrown at the call, and the method goes on at once. *)
Definition callIO {A} (io : IO W A) : M W A := λ st,
  let '(o, w') := io (world st) in
  let st' := {| world := w'; _syncInProgress := _syncInProgress st;
                _lastSyncTime := _lastSyncTime st; trace := trace st;
                awaited := awaited st |} in
  match o with
  | inl e => (Throw e, st')
  | inr a => (Normal a, st')
  end.

(** Reading the fields of the [SyncService] singleton. *)
Definition gets {A} (f : State W → A) : M W A := λ st, (Normal (f st), st).

(** [StorageService.saveSettings(settings)] *)
Definition saveSettings (settings : Settings) : M W unit :=
  try_catch (liftIO (chrome_storage_sync_set settings))
            (λ _, throw (Error "Failed to save settings")).

(** [StorageService.clearSettings()] *)
Definition clearSettings : M W unit :=
  try_catch (liftIO chrome_storage_sync_remove)
            (λ _, throw (Error "Failed to clear settings")).

(** [CalendarService.fetchCalendarList()] *)
Definition fetchCalendarList : M W (list CalendarEntry) :=
  try_catch
    (response ← liftIO (Auth.makeAuthenticatedRequest
                          (λ _ : unit, fetch_calendarList) list_status ());
     if negb (list_ok response)
     then throw (Error ("HTTP " +:+ pretty (list_status response)))
     else
       match list_json response with
       | None => throw (SyntaxError "Unexpected end of JSON input")
       | Some items => mret (default [] items)
       end)
    (λ _, throw (Error "Failed to fetch calendars")).

(** [SyncService.initializeSyncAlarm(intervalMinutes)] *)
Definition initializeSyncAlarm (intervalMinutes : option Z) : M W unit :=
  callIO (chrome_alarms_create "calendarSync" (parseInt intervalMinutes)).

(** The [switch (request.action)] of [handleMessage]. *)
Definition dispatch (fuel : nat) (msg : Message) : M W Reply :=
  if bool_decide (action msg = Some "getCalendars") then
    calendars ← fetchCalendarList;
    mret (ReplyCalendars calendars)
  else if bool_decide (action msg = Some "updateAlarm") then
    initializeSyncAlarm (interval msg);;
    mret ReplyDone
  else if bool_decide (action msg = Some "syncNow") then
    performSync;;
    lastSync ← gets getLastSyncTime;
    mret (ReplySynced lastSync)
  else if bool_decide (action msg = Some "cleanupAll") then
    cleanupAll fuel;;
    mret ReplyDone
  else if bool_decide (action msg = Some "getStatus") then
    isSyncing ← gets isSyncing;
    lastSync ← gets getLastSyncTime;
    mret (ReplyStatus isSyncing lastSync)
  else throw (Error ("Unknown action: " +:+ templ (action msg))).

(** The [handleMessage] of the [onMessage] listener. *)
Definition handleMessage (fuel : nat) (msg : Message) : M W Reply :=
  try_catch (dispatch fuel msg) (λ error, mret (ReplyError (message error))).

(** The [onInstalled] listener. *)
Definition onInstalled : M W unit :=
  try_catch
    (settings ← getSettings;
     if truthyNum (syncInterval settings)
     then initializeSyncAlarm (syncInterval settings)
     else mret ())
    (λ _, mret ()).

(** The [onStartup] listener. *)
Definition onStartup : M W unit :=
  try_catch (liftIO (Auth.getToken false);; mret ()) (λ _, mret ()).

(** The [onAlarm] listener; [performSync().catch(...)] handles the
    rejection. *)
Definition onAlarm (name : string) : M W unit :=
  if bool_decide (name = "calendarSync")
  then try_catch performSync (λ _, mret ())
  else mret ().

End Extension.


(* ===================================================================== *)
(** * Further properties of runs                                          *)
(* ===================================================================== *)

Definition isListRequest (r : Request) : bool :=
  match r with GET_events _ _ _ _ _ => true | _ => false end.

(** The list requests of a trace, in order. *)
Definition listings (tr : list (Request * (Exn + Response))) : list Request :=
  List.filter isListRequest tr.*1.

Section MoreProperties.
Context {W : Type} {PF : Platform W}.

(** The entry [x] of the trace [tr] is an insert of [b] that comes after a
    successful listing of one of the calendars [sources], and [b] is the
    busy event made of an eligible event of that listing. *)
Definition createdFromListing (sources : list string)
    (tr : list (Request * (Exn + Response))) (x : Request * (Exn + Response))
    (b : BusyEvent) : Prop :=
  ∃ before after s tmin tmax response ev now,
    tr = before ++ x :: after
    ∧ s ∈ sources
    ∧ (GET_events s tmin tmax "2500" None, inr response) ∈ before
    ∧ ok response = true
    ∧ ev ∈ itemsOrEmpty (body response)
    ∧ eligible ev = true
    ∧ b = busyEventOf ev now.

(** The key of the slot of a busy event. *)
Definition busyKey (b : BusyEvent) : string :=
  templ (dateTime (busy_start b)) +:+ "_" +:+ templ (dateTime (busy_end b)).

(** The trace [tr] begins with a successful listing of [target] that shows
    no tagged event for the slot of [b]. *)
Definition slotNotListed (tr : list (Request * (Exn + Response)))
    (target : string) (b : BusyEvent) : Prop :=
  ∃ tmin tmax response rest,
    tr = (GET_events target tmin tmax "2500" None, inr response) :: rest
    ∧ ok response = true
    ∧ busyKey b ∉ slotKey <$> filter isSynced (itemsOrEmpty (body response)).

(** The requests of the source phase of a run: listings, and inserts into
    [target] of busy events that are [fresh] and made of listed events. *)
Definition sourced (target : string) (fresh : BusyEvent → Prop)
    (srcs : list string) (new : list (Request * (Exn + Response))) : Prop :=
  ∀ x, x ∈ new →
    match x.1 with
    | GET_events _ _ _ _ _ => True
    | POST_events c b => c = target ∧ fresh b ∧ createdFromListing srcs new x b
    | DELETE_events _ _ => False
    end.

End MoreProperties.

(* ===================================================================== *)
(** * An executable browser                                               *)
(* ===================================================================== *)

(** A browser in front of the provider [Cloud], used to run the whole
    extension.  Its identity service keeps one cached token; asked without
    one, it hands out a fresh token when the request is interactive and the
    user consents, and otherwise fails with [lastErrorMessage].  Its network
    logs what is sent with which token, lets the provider answer a request
    carrying a token in [accepted], and answers 401 otherwise.  Its
    [chrome.storage.sync] holds the provider world's [stored] settings and
    gives back the value it was given: the serialisation of the real storage
    (which reads a [NaN] back as [null]) is left out, and nothing is stated
    below of what is read after a write.  An alarm created under a name
    replaces the one of that name. *)
Module Chromium.

Record World := {
  provider : Cloud.World;
  cachedToken : option string;
  consent : bool;
  lastErrorMessage : string;
  minted : nat;
  accepted : list string;
  sent : list (option Request * string);   (* [None]: the calendar list URL *)
  directory : list CalendarEntry;
  alarms : gmap string (option Z);
}.

Definition with_provider (p : Cloud.World) (w : World) : World :=
  {| provider := p; cachedToken := cachedToken w; consent := consent w;
     lastErrorMessage := lastErrorMessage w; minted := minted w;
     accepted := accepted w; sent := sent w; directory := directory w;
     alarms := alarms w |}.

Definition with_cachedToken (t : option string) (w : World) : World :=
  {| provider := provider w; cachedToken := t; consent := consent w;
     lastErrorMessage := lastErrorMessage w; minted := minted w;
     accepted := accepted w; sent := sent w; directory := directory w;
     alarms := alarms w |}.

Definition with_sent (l : list (option Request * string)) (w : World) : World :=
  {| provider := provider w; cachedToken := cachedToken w; consent := consent w;
     lastErrorMessage := lastErrorMessage w; minted := minted w;
     accepted := accepted w; sent := l; directory := directory w;
     alarms := alarms w |}.

Definition with_alarms (a : gmap string (option Z)) (w : World) : World :=
  {| provider := provider w; cachedToken := cachedToken w; consent := consent w;
     lastErrorMessage := lastErrorMessage w; minted := minted w;
     accepted := accepted w; sent := sent w; directory := directory w;
     alarms := a |}.

Definition with_stored (s : option Settings) (p : Cloud.World) : Cloud.World :=
  {| Cloud.calendars := Cloud.calendars p; Cloud.nextId := Cloud.nextId p;
     Cloud.clock := Cloud.clock p; Cloud.stored := s;
     Cloud.pageSize := Cloud.pageSize p; Cloud.faults := Cloud.faults p |}.

(** The token handed out next. *)
Definition freshToken (w : World) : string := "token" +:+ pretty (minted w).

Definition getAuthToken (interactive : bool) (w : World) : (string + string) * World :=
  match cachedToken w with
  | Some t => (inr t, w)
  | None =>
      if interactive && consent w then
        (inr (freshToken w),
         {| provider := provider w; cachedToken := Some (freshToken w);
            consent := consent w; lastErrorMessage := lastErrorMessage w;
            minted := S (minted w); accepted := freshToken w :: accepted w;
            sent := sent w; directory := directory w; alarms := alarms w |})
      else (inl (lastErrorMessage w), w)
  end.

Definition removeCachedAuthToken (token : string) (w : World) : World :=
  if bool_decide (cachedToken w = Some token) then with_cachedToken None w else w.

Definition unauthorized : Response :=
  Cloud.respond 401 "Unauthorized" (JError (Some "Invalid Credentials")).

Definition send (r : Request) (token : string) (w : World) : (Exn + Response) * World :=
  let w := with_sent (sent w ++ [(Some r, token)]) w in
  if bool_decide (token ∈ accepted w) then
    let '(o, p) := Cloud.handle r (provider w) in (o, with_provider p w)
  else (inr unauthorized, w).

Definition sendList (token : string) (w : World) : (Exn + ListResponse) * World :=
  let w := with_sent (sent w ++ [(None, token)]) w in
  if bool_decide (token ∈ accepted w) then
    (inr {| list_status := 200; list_json := Some (Some (directory w)) |}, w)
  else (inr {| list_status := 401; list_json := Some None |}, w).

Definition browser (tza : JsDate.TZA) : Browser World :=
  {| chrome_identity_getAuthToken := getAuthToken;
     chrome_identity_removeCachedAuthToken := removeCachedAuthToken;
     fetch := send;
     fetch_calendarList := sendList;
     chrome_storage_sync_get := λ w, (inr (Cloud.stored (provider w)), w);
     chrome_storage_sync_set := λ s w,
       (inr (), with_provider (with_stored (Some s) (provider w)) w);
     chrome_storage_sync_remove := λ w,
       (inr (), with_provider (with_stored None (provider w)) w);
     chrome_alarms_create := λ name period w,
       (inr (), with_alarms (<[name := period]> (alarms w)) w);
     browser_now := λ w, (Cloud.clock (provider w), w);
     browser_tza := tza;
     browser_parse_legacy := JsDate.strict |}.

Definition init (w : World) : State World :=
  {| world := w; _syncInProgress := false; _lastSyncTime := None; trace := [];
     awaited := [] |}.

End Chromium.

(* ===================================================================== *)
(** * Properties of the browser's worlds                                  *)
(* ===================================================================== *)

Section ChromiumProperties.
Import Chromium.

(** A browser that can reach the provider: it has a cached token (valid or
    not), the user consents to a new one, and the provider answers every
    request itself. *)
Definition online (w : World) : Prop :=
  is_Some (cachedToken w) ∧ consent w = true ∧ Cloud.faults (provider w) = [].

(** The state of the services as seen from the provider, behind the
    authentication layer. *)
Definition behind (st : State World) : State Cloud.World :=
  {| world := provider (world st); _syncInProgress := _syncInProgress st;
     _lastSyncTime := _lastSyncTime st; trace := trace st;
     awaited := awaited st |}.

(** [mc], run in the browser, does what [m] does on the provider alone:
    the same result, the same state of the services and of the provider,
    and the browser stays online. *)
Definition Sim {A} (mc : M World A) (m : M Cloud.World A) : Prop :=
  ∀ st, online (world st) →
    ∃ st', mc st = ((m (behind st)).1, st')
           ∧ behind st' = (m (behind st)).2
           ∧ online (world st').

End ChromiumProperties.

(** Browsers for the concrete calendars of [Scenario]. *)
Module Session.

Definition directory : list CalendarEntry :=
  [{| cal_id := "work"; cal_summary := "Work" |};
   {| cal_id := "home"; cal_summary := "Home" |}].

(** Signed in: the cached token is one the provider accepts. *)
Definition signedIn (p : Cloud.World) : Chromium.World :=
  {| Chromium.provider := p; Chromium.cachedToken := Some "token0";
     Chromium.consent := true; Chromium.lastErrorMessage := "The user is not signed in.";
     Chromium.minted := 1; Chromium.accepted := ["token0"]; Chromium.sent := [];
     Chromium.directory := directory; Chromium.alarms := ∅ |}.

(** The cached token has expired; the user will consent to a new one. *)
Definition expired (p : Cloud.World) : Chromium.World :=
  {| Chromium.provider := p; Chromium.cachedToken := Some "token0";
     Chromium.consent := true; Chromium.lastErrorMessage := "The user is not signed in.";
     Chromium.minted := 1; Chromium.accepted := []; Chromium.sent := [];
     Chromium.directory := directory; Chromium.alarms := ∅ |}.

(** The cached token has expired and the user declines. *)
Definition revoked (p : Cloud.World) : Chromium.World :=
  {| Chromium.provider := p; Chromium.cachedToken := Some "token0";
     Chromium.consent := false;
     Chromium.lastErrorMessage := "OAuth2 not granted or revoked.";
     Chromium.minted := 1; Chromium.accepted := []; Chromium.sent := [];
     Chromium.directory := directory; Chromium.alarms := ∅ |}.

(** No token, and none to be had without asking. *)
Definition signedOut (p : Cloud.World) : Chromium.World :=
  {| Chromium.provider := p; Chromium.cachedToken := None;
     Chromium.consent := true; Chromium.lastErrorMessage := "The user is not signed in.";
     Chromium.minted := 0; Chromium.accepted := []; Chromium.sent := [];
     Chromium.directory := directory; Chromium.alarms := ∅ |}.

Definition eastern : Browser Chromium.World :=
  Chromium.browser (JsDate.fixedOffset (-240)).

(** The platform of the two services in that browser. *)
Definition platform : Platform Chromium.World := platformOf eastern.

(** Provider worlds with the settings of [Scenario] changed: nothing
    stored; no [weeksAhead]; a target id of one space. *)
Definition withSettings (stored : option Settings) : Cloud.World :=
  {| Cloud.calendars := list_to_map [("work", []); ("home", [Scenario.slot9 "h1" None])];
     Cloud.nextId := 0; Cloud.clock := Scenario.noon; Cloud.stored := stored;
     Cloud.pageSize := None; Cloud.faults := [] |}.

Definition noWeeks : Settings :=
  {| targetCalendar := Some "work"; sourceCalendars := Some ["home"];
     syncInterval := Some 60; weeksAhead := None |}.

Definition blankTarget : Settings :=
  {| targetCalendar := Some " "; sourceCalendars := Some ["home"];
     syncInterval := Some 60; weeksAhead := Some 4 |}.

(** The target of [Scenario.threeTagged], where the provider answers the
    third request (the second delete of a cleanup) with 404. *)
Definition secondDeleteFails : State Cloud.World :=
  Cloud.init
    {| Cloud.calendars := Cloud.calendars (world Scenario.threeTagged);
       Cloud.nextId := 0; Cloud.clock := Scenario.noon;
       Cloud.stored := Some Scenario.settings; Cloud.pageSize := None;
       Cloud.faults := [None; None; Some (inr Cloud.notFound)] |}.

Definition oneSource : Settings :=
  {| targetCalendar := Some "work"; sourceCalendars := Some ["home"];
     syncInterval := Some 30; weeksAhead := Some 4 |}.

End Session.

(* ********************************************************************* *)
(** * Part II: theorems                                                   *)
(* ********************************************************************* *)

Example civil_epoch : JsDate.civil_from_days 0 = (1970, 1, 1).
Proof. reflexivity. Qed.

Example civil_leap_day : JsDate.civil_from_days (JsDate.days_from_civil 2024 2 29) = (2024, 2, 29).
Proof. reflexivity. Qed.

Example parse_utc : Cloud.instant "2024-06-01T00:00:00Z" = Some 1717200000000.
Proof. reflexivity. Qed.

Example parse_offset :
  Cloud.instant "2024-06-01T23:00:00-04:00" = Some (1717200000000 + 27 * 3600000).
Proof. reflexivity. Qed.

(** A date alone is UTC; a date with a time and no offset is local time. *)
Example parse_local :
  JsDate.parse JsDate.strict (JsDate.fixedOffset (-240)) <$>
    ["2024-06-01"; "2024-06-01T09:00"; "2024-02-29T24:00:00Z"]
  = [Some 1717200000000; Some (1717200000000 + 13 * 3600000);
     Some (1717200000000 - 92 * 86400000)].
Proof. reflexivity. Qed.

(** Strings outside the format go to the runtime's own parser, which in
    [JsDate.strict] takes none of them. *)
Example parse_legacy :
  JsDate.parseFormat (JsDate.fixedOffset 0) <$>
    ["tomorrow"; "2024-02-30T10:00:00Z"; "2024-06-01T10:00:00.123456Z";
     "2024-06-01T24:00:01Z"]
  = [None; None; None; None]
  ∧ Cloud.instant "tomorrow" = None.
Proof. split; reflexivity. Qed.

(** The last instant a [Date] holds, and the first it does not. *)
Example parse_range :
  Cloud.instant "+275760-09-13T00:00:00Z" = Some JsDate.maxTime
  ∧ Cloud.instant "+275760-09-13T00:00:00.001Z" = None.
Proof. split; reflexivity. Qed.

(* ===================================================================== *)
(** * Reasoning about the monad                                           *)
(* ===================================================================== *)

Section Reasoning.
Context {W : Type} {PF : Platform W}.

Local Abbreviation calls := (calls (W := W)).
Local Abbreviation Issues := (Issues (W := W)).

Lemma calls_refl st : calls st [] st.
Proof. unfold calls. by rewrite app_nil_r. Qed.

Lemma calls_trans st1 n1 st2 n2 st3 :
  calls st1 n1 st2 → calls st2 n2 st3 → calls st1 (n1 ++ n2) st3.
Proof.
  intros (? & ? & Ht1) (? & ? & Ht2). unfold calls.
  rewrite Ht2, Ht1, app_assoc. split_and!; congruence.
Qed.

Lemma calls_issued st new st' : calls st new st' → issued st st' = new.
Proof.
  intros (_ & _ & Ht). unfold issued. rewrite Ht.
  by rewrite drop_app_length.
Qed.

Lemma bind_inv {A B} (m : M W A) (f : A → M W B) st r st' :
  (m ≫= f) st = (r, st') →
  (∃ a st1, m st = (Normal a, st1) ∧ f a st1 = (r, st'))
  ∨ (∃ e, m st = (Throw e, st') ∧ r = Throw e)
  ∨ (m st = (OutOfFuel, st') ∧ r = OutOfFuel).
Proof.
  unfold mbind, M_bind. destruct (m st) as [[a|e|] st1]; intros Heq.
  - left. eauto.
  - right; left. inversion Heq; subst. eauto.
  - right; right. by inversion Heq; subst.
Qed.

Lemma try_catch_inv {A} (m : M W A) (h : Exn → M W A) st r st' :
  try_catch m h st = (r, st') →
  (∃ e st1, m st = (Throw e, st1) ∧ h e st1 = (r, st'))
  ∨ (m st = (r, st') ∧ ∀ e, r ≠ Throw e).
Proof.
  unfold try_catch. destruct (m st) as [[a|e|] st1]; intros Heq.
  - right. by inversion Heq; subst.
  - left. eauto.
  - right. by inversion Heq; subst.
Qed.

Lemma Issues_mono {A} (P Q : _ → Prop) (m : M W A) :
  (∀ x, P x → Q x) → Issues P m → Issues Q m.
Proof.
  intros HPQ Hm st r st' Hrun. destruct (Hm _ _ _ Hrun) as (? & new & ? & HP).
  split; [done|]. exists new. split; [done|]. eapply Forall_impl; eauto.
Qed.

Lemma Issues_ret {A} P (a : A) : Issues P (mret a).
Proof.
  intros st r st' Heq. inversion Heq; subst.
  split; [done|]. exists []. split; [apply calls_refl | constructor].
Qed.

Lemma Issues_throw {A} P e : Issues P (throw (A := A) e).
Proof.
  intros st r st' Heq. inversion Heq; subst.
  split; [done|]. exists []. split; [apply calls_refl | constructor].
Qed.

Lemma Issues_bind {A B} P (m : M W A) (f : A → M W B) :
  Issues P m → (∀ a, Issues P (f a)) → Issues P (m ≫= f).
Proof.
  intros Hm Hf st r st' Hrun.
  destruct (bind_inv _ _ _ _ _ Hrun) as [(a & st1 & H1 & H2)|[(e & H1 & ->)|[H1 ->]]].
  - destruct (Hm _ _ _ H1) as (_ & n1 & Hc1 & HP1).
    destruct (Hf a _ _ _ H2) as (? & n2 & Hc2 & HP2).
    split; [done|]. exists (n1 ++ n2).
    split; [by eapply calls_trans | by apply Forall_app].
  - destruct (Hm _ _ _ H1) as (_ & n1 & Hc1 & HP1). split; [done|]. eauto.
  - by destruct (Hm _ _ _ H1) as (? & _).
Qed.

Lemma Issues_try_catch {A} P (m : M W A) (h : Exn → M W A) :
  Issues P m → (∀ e, Issues P (h e)) → Issues P (try_catch m h).
Proof.
  intros Hm Hh st r st' Hrun.
  destruct (try_catch_inv _ _ _ _ _ Hrun) as [(e & st1 & H1 & H2)|[H1 _]].
  - destruct (Hm _ _ _ H1) as (_ & n1 & Hc1 & HP1).
    destruct (Hh e _ _ _ H2) as (? & n2 & Hc2 & HP2).
    split; [done|]. exists (n1 ++ n2).
    split; [by eapply calls_trans | by apply Forall_app].
  - eauto.
Qed.

Lemma Issues_forOf {A B} P (body : B → A → M W B) (xs : list A) :
  (∀ acc x, x ∈ xs → Issues P (body acc x)) → ∀ acc, Issues P (forOf body acc xs).
Proof.
  induction xs as [|x xs IH]; intros Hbody acc; simpl.
  - apply Issues_ret.
  - apply Issues_bind.
    + apply Hbody. by left.
    + intros acc'. apply IH. intros ? ? ?. apply Hbody. by right.
Qed.

Lemma Issues_liftE {A} P (r : Exn + A) : Issues P (liftE r).
Proof. destruct r; [apply Issues_throw | apply Issues_ret]. Qed.

Lemma Issues_newDate P : Issues P newDate.
Proof.
  intros st r st' Heq. inversion Heq; subst.
  split; [done|]. exists []. split; [|constructor].
  split_and!; simpl; [done..|by rewrite app_nil_r].
Qed.

Lemma request_inv r st res st' :
  request r st = (res, st') →
  ∃ o, makeAuthenticatedRequest r (world st) = (o, world st')
       ∧ calls st [(r, o)] st'
       ∧ res = match o with inl e => Throw e | inr resp => Normal resp end.
Proof.
  unfold request. destruct (makeAuthenticatedRequest r (world st)) as [o w'] eqn:Hreq.
  intros Heq. exists o.
  destruct o; inversion Heq; subst; simpl; (split; [done|]); by split.
Qed.

Lemma Issues_request (P : _ → Prop) r : (∀ o, P (r, o)) → Issues P (request r).
Proof.
  intros HP st res st' Hrun.
  destruct (request_inv _ _ _ _ Hrun) as (o & _ & Hc & ->).
  split; [by destruct o|]. exists [(r, o)]. split; [done|]. by repeat constructor.
Qed.

Lemma Issues_getSettings P : Issues P getSettings.
Proof.
  apply Issues_try_catch; [|intros; apply Issues_throw].
  apply Issues_bind; [|intros; apply Issues_ret].
  intros st r st'. unfold storage_get.
  destruct (chrome_storage_get (world st)) as [[e|s] w']; intros Heq;
    inversion Heq; subst; (split; [done|]); exists [];
    (split; [|constructor]); unfold calls; simpl; by rewrite app_nil_r.
Qed.

Lemma Issues_json P response : Issues P (json response).
Proof. unfold json. destruct (body response); try apply Issues_ret. apply Issues_throw. Qed.

End Reasoning.

Create HintDb issues.

Global Hint Resolve Issues_ret Issues_throw Issues_liftE Issues_newDate
  Issues_getSettings Issues_json : issues.

(* ===================================================================== *)
(** * What each method may request                                        *)
(* ===================================================================== *)

Section Footprints.
Context {W : Type} {PF : Platform W}.

Lemma fetchEvents_issues c tmin tmax tok :
  Issues (isList c tok) (fetchEvents c tmin tmax tok).
Proof.
  unfold fetchEvents. case_bool_decide; [apply Issues_throw|].
  destruct tmin as [a|], tmax as [b|]; try apply Issues_throw.
  apply Issues_try_catch; [|intros; apply Issues_throw].
  apply Issues_bind.
  - apply Issues_request. intros o. by exists a, b.
  - intros response. destruct (negb (ok response)); [apply Issues_throw|].
    apply Issues_bind; [apply Issues_json | intros; apply Issues_ret].
Qed.

Lemma createBusyEvent_issues c ev :
  Issues (isInsert c) (createBusyEvent c ev).
Proof.
  unfold createBusyEvent.
  destruct (_ || _); [apply Issues_ret|].
  destruct (strictNe _ _); [apply Issues_ret|].
  apply Issues_bind; [apply Issues_newDate|]. intros now.
  apply Issues_bind.
  - apply Issues_try_catch; [|intros; apply Issues_throw].
    apply Issues_bind.
    + apply Issues_request. intros o. by eexists.
    + intros response. destruct (negb (ok response)); auto with issues.
  - intros response. apply Issues_bind; auto with issues.
Qed.

Lemma deleteEvent_issues c i :
  Issues (λ x, x.1 = DELETE_events c i) (deleteEvent c i).
Proof.
  unfold deleteEvent.
  apply Issues_try_catch; [|intros; apply Issues_throw].
  apply Issues_bind.
  - by apply Issues_request.
  - intros response. destruct (negb (ok response)); auto with issues.
Qed.

Lemma syncEvent_issues target map keep ev :
  Issues (isInsert target) (syncEvent target map keep ev).
Proof.
  unfold syncEvent.
  destruct (_ || _); [apply Issues_ret|].
  destruct (strictNe _ _); [apply Issues_ret|].
  apply Issues_bind; [apply Issues_liftE|]. intros key.
  apply Issues_bind; [|intros; apply Issues_ret].
  destruct (negb _); [|apply Issues_ret].
  apply Issues_bind; [apply createBusyEvent_issues | intros; apply Issues_ret].
Qed.

Lemma syncSource_issues target a b map keep src :
  Issues notDelete (syncSource target a b map keep src).
Proof.
  unfold syncSource. apply Issues_bind.
  - eapply Issues_mono; [|apply fetchEvents_issues].
    intros [r o] (? & ? & Hr). simpl in Hr. by subst.
  - intros events. apply Issues_forOf. intros acc x _.
    eapply Issues_mono; [|apply syncEvent_issues].
    intros [r o] (? & Hr). simpl in Hr. by subst.
Qed.

Lemma deleteObsolete_issues target keep u entry :
  Issues (λ x, x.1 = DELETE_events target (id entry.2))
         (deleteObsolete target keep u entry).
Proof.
  unfold deleteObsolete. destruct (negb _); [apply deleteEvent_issues | apply Issues_ret].
Qed.

Lemma modify_inv f (st : State W) r st' :
  modify f st = (r, st') → r = Normal () ∧ st' = f st.
Proof. intros Heq. by inversion Heq. Qed.

Lemma Issues_Ends {A} P (m : M W A) : Issues P m → Ends P m.
Proof.
  intros Hm st r st' Hrun. destruct (Hm _ _ _ Hrun) as (? & new & (? & _ & ?) & ?).
  eauto.
Qed.

Lemma Ends_bind {A B} P (m : M W A) (f : A → M W B) :
  Ends P m → (∀ a, Ends P (f a)) → Ends P (m ≫= f).
Proof.
  intros Hm Hf st r st' Hrun.
  destruct (bind_inv _ _ _ _ _ Hrun) as [(a & st1 & H1 & H2)|[(e & H1 & ->)|[H1 ->]]].
  - destruct (Hm _ _ _ H1) as (_ & Hl1 & n1 & Ht1 & HP1).
    destruct (Hf a _ _ _ H2) as (? & Hl2 & n2 & Ht2 & HP2).
    split; [done|]. split; [congruence|]. exists (n1 ++ n2).
    split; [by rewrite Ht2, Ht1, app_assoc | by apply Forall_app].
  - destruct (Hm _ _ _ H1) as (_ & ? & ?). done.
  - by destruct (Hm _ _ _ H1) as (? & _).
Qed.

Lemma Ends_modify P f :
  (∀ st : State W, _syncInProgress (f st) = _syncInProgress st) →
  (∀ st : State W, trace (f st) = trace st) →
  Ends P (modify f).
Proof.
  intros Hl Ht st r st' Hrun. apply modify_inv in Hrun as [-> ->].
  split; [done|]. split; [done|]. exists [].
  split; [by rewrite Ht, app_nil_r | constructor].
Qed.

(** The [try] block of [performSync] ends, keeps the latch it took, and
    makes requests of the three kinds only. *)
Lemma performSync_try_ends st r st' :
  performSync_try st = (r, st') →
  r ≠ OutOfFuel ∧ _syncInProgress st' = true
  ∧ ∃ new, trace st' = trace st ++ new ∧ Forall syncRequest new.
Proof.
  unfold performSync_try. intros Hrun.
  apply bind_inv in Hrun as [(? & st0 & Hm & Hrun)|[(? & Hm & _)|[Hm _]]];
    [|by inversion Hm..].
  apply modify_inv in Hm as [_ ->].
  match type of Hrun with ?m _ = _ => assert (Hends : Ends syncRequest m) end.
  { apply Ends_bind; [eapply Issues_Ends, Issues_getSettings|].
    intros settings. destruct (_ || _).
    { eapply Issues_Ends, Issues_throw. }
    apply Ends_bind; [eapply Issues_Ends, Issues_newDate|]. intros now1.
    apply Ends_bind; [eapply Issues_Ends, Issues_newDate|]. intros now2.
    destruct (syncRange _ _ _) as [startTime endTime].
    apply Ends_bind.
    { eapply Issues_Ends, Issues_mono; [|apply fetchEvents_issues].
      intros q Hq. left. eauto. }
    intros events.
    apply Ends_bind; [eapply Issues_Ends, Issues_liftE|]. intros entries.
    apply Ends_bind.
    { eapply Issues_Ends, Issues_forOf. intros keep src _.
      unfold syncSource. apply Issues_bind.
      - eapply Issues_mono; [|apply fetchEvents_issues]. intros q Hq. left. eauto.
      - intros evs. apply Issues_forOf. intros acc ev _.
        eapply Issues_mono; [|apply syncEvent_issues].
        intros [q o] (? & Hq). simpl in Hq. subst. right. by left. }
    intros keep. apply Ends_bind.
    { eapply Issues_Ends, Issues_forOf. intros.
      eapply Issues_mono; [|apply deleteObsolete_issues].
      intros [q o] Hq. simpl in Hq. subst. right. by right. }
    intros _. apply Ends_bind; [eapply Issues_Ends, Issues_newDate|].
    intros now'. by apply Ends_modify. }
  destruct (Hends _ _ _ Hrun) as (? & Hl & new & Ht & HP). simpl in Hl, Ht. eauto.
Qed.

End Footprints.

(* ===================================================================== *)
(** * The latch and the recorded sync time                                *)
(* ===================================================================== *)

Section Latch.
Context {W : Type} {PF : Platform W}.

Lemma Records_throw {A} e : Records (throw (A := A) e).
Proof. intros st r st' Heq. by inversion Heq. Qed.

Lemma Records_bind {A B} P (m : M W A) (f : A → M W B) :
  Issues P m → (∀ a, Records (f a)) → Records (m ≫= f).
Proof.
  intros Hm Hf st r st' Hrun.
  destruct (bind_inv _ _ _ _ _ Hrun) as [(a & st1 & H1 & H2)|[(e & H1 & ->)|[H1 ->]]].
  - destruct (Hm _ _ _ H1) as (_ & n1 & (_ & Hs & _) & _).
    specialize (Hf a _ _ _ H2). destruct r; [done| |done]. congruence.
  - by destruct (Hm _ _ _ H1) as (_ & n1 & (_ & Hs & _) & _).
  - by destruct (Hm _ _ _ H1) as (? & _).
Qed.

Lemma performSync_try_records : Records performSync_try.
Proof.
  unfold performSync_try. intros st r st' Hrun.
  apply bind_inv in Hrun as [(? & st0 & Hm & Hrun)|[(? & Hm & _)|[Hm _]]];
    [|by inversion Hm..].
  apply modify_inv in Hm as [_ ->].
  match type of Hrun with ?m _ = _ => assert (Hrec : Records m) end.
  { eapply Records_bind; [apply (Issues_getSettings (λ _, True))|].
    intros settings. destruct (_ || _); [apply Records_throw|].
    eapply Records_bind; [apply (Issues_newDate (λ _, True))|]. intros now1.
    eapply Records_bind; [apply (Issues_newDate (λ _, True))|]. intros now2.
    destruct (syncRange _ _ _) as [startTime endTime].
    eapply Records_bind; [apply fetchEvents_issues|]. intros events.
    eapply Records_bind; [apply (Issues_liftE (λ _, True))|]. intros entries.
    eapply Records_bind.
    { apply Issues_forOf. intros. apply syncSource_issues. }
    intros keep. eapply Records_bind.
    { apply (Issues_forOf (λ _, True)). intros.
      eapply Issues_mono; [|apply deleteObsolete_issues]. done. }
    intros _ sa ra sb Hlast.
    apply bind_inv in Hlast as [(now' & sc & Hn & Hmod)|[(? & Hn & _)|[Hn _]]];
      [|by inversion Hn..].
    inversion Hn; subst now' sc.
    apply modify_inv in Hmod as [-> ->]. by exists sa. }
  specialize (Hrec _ _ _ Hrun). by destruct r.
Qed.

(** What [performSync] does once past the latch test. *)
Lemma performSync_run st r st' :
  _syncInProgress st = false →
  performSync st = (r, st') →
  ∃ st1, performSync_try st = (r, st1) ∧ st' = set_syncInProgress false st1
         ∧ r ≠ OutOfFuel.
Proof.
  intros Hidle. unfold performSync, try_finally, try_catch. rewrite Hidle.
  destruct (performSync_try st) as [r0 st1] eqn:Htry.
  destruct (performSync_try_ends _ _ _ Htry) as (Hfuel & _).
  destruct r0; [|unfold throw|done]; intros Heq; inversion Heq; subst; eauto.
Qed.

Local Abbreviation Waits := (Waits (W := W)).

(** The latch while a method waits. *)
Lemma Waits_ret {A} (a : A) : Waits (mret a : M W A).
Proof. intros st r st' [= <- <-]. split; [done|]. exists 0%nat. by rewrite app_nil_r. Qed.

Lemma Waits_throw {A} e : Waits (throw (A := A) e).
Proof. intros st r st' [= <- <-]. split; [done|]. exists 0%nat. by rewrite app_nil_r. Qed.

Lemma Waits_bind {A B} (m : M W A) (f : A → M W B) :
  Waits m → (∀ a, Waits (f a)) → Waits (m ≫= f).
Proof.
  intros Hm Hf st r st' Hrun.
  destruct (bind_inv _ _ _ _ _ Hrun) as [(a & st1 & H1 & H2)|[(e & H1 & ->)|[H1 ->]]];
    [|by apply (Hm _ _ _ H1)..].
  destruct (Hm _ _ _ H1) as (Hl1 & k1 & Ha1).
  destruct (Hf a _ _ _ H2) as (Hl2 & k2 & Ha2).
  split; [congruence|]. exists (k1 + k2)%nat.
  by rewrite Ha2, Ha1, Hl1, replicate_add, app_assoc.
Qed.

Lemma Waits_try_catch {A} (m : M W A) (h : Exn → M W A) :
  Waits m → (∀ e, Waits (h e)) → Waits (try_catch m h).
Proof.
  intros Hm Hh st r st' Hrun.
  destruct (try_catch_inv _ _ _ _ _ Hrun) as [(e & st1 & H1 & H2)|[H1 _]];
    [|by apply (Hm _ _ _ H1)].
  destruct (Hm _ _ _ H1) as (Hl1 & k1 & Ha1).
  destruct (Hh e _ _ _ H2) as (Hl2 & k2 & Ha2).
  split; [congruence|]. exists (k1 + k2)%nat.
  by rewrite Ha2, Ha1, Hl1, replicate_add, app_assoc.
Qed.

Lemma Waits_forOf {A B} (body : B → A → M W B) (xs : list A) :
  (∀ acc x, Waits (body acc x)) → ∀ acc, Waits (forOf body acc xs).
Proof.
  intros Hbody. induction xs as [|x xs IH]; intros acc; simpl.
  - apply Waits_ret.
  - apply Waits_bind; [apply Hbody | apply IH].
Qed.

Lemma Waits_liftE {A} (r : Exn + A) : Waits (liftE r).
Proof. destruct r; [apply Waits_throw | apply Waits_ret]. Qed.

Lemma Waits_newDate : Waits newDate.
Proof.
  intros st r st' Hrun. inversion Hrun; subst; simpl.
  split; [done|]. exists 0%nat. by rewrite app_nil_r.
Qed.

Lemma Waits_once {A} (m : M W A) :
  (∀ st r st', m st = (r, st') →
     _syncInProgress st' = _syncInProgress st
     ∧ awaited st' = awaited st ++ [_syncInProgress st]) →
  Waits m.
Proof. intros Hm st r st' Hrun. destruct (Hm _ _ _ Hrun). split; [done|]. by exists 1%nat. Qed.

Lemma request_waits r st res st' :
  request r st = (res, st') →
  _syncInProgress st' = _syncInProgress st
  ∧ awaited st' = awaited st ++ [_syncInProgress st].
Proof.
  unfold request. destruct (makeAuthenticatedRequest r (world st)) as [[e|resp] w'];
    by intros [= <- <-].
Qed.

Lemma storage_get_waits st res st' :
  storage_get st = (res, st') →
  _syncInProgress st' = _syncInProgress st
  ∧ awaited st' = awaited st ++ [_syncInProgress st].
Proof.
  unfold storage_get. destruct (chrome_storage_get (world st)) as [[e|s] w'];
    by intros [= <- <-].
Qed.

(** [getSettings] waits once, whatever comes of it. *)
Lemma getSettings_waits st res st' :
  getSettings st = (res, st') →
  _syncInProgress st' = _syncInProgress st
  ∧ awaited st' = awaited st ++ [_syncInProgress st].
Proof.
  unfold getSettings, try_catch, mbind, M_bind.
  destruct (storage_get st) as [[s|e|] st1] eqn:Hget;
    destruct (storage_get_waits _ _ _ Hget); by intros [= <- <-].
Qed.

Lemma Waits_json response : Waits (json response).
Proof. unfold json. destruct (body response); apply Waits_ret || apply Waits_throw. Qed.

Lemma Waits_fetchEvents c tmin tmax tok : Waits (fetchEvents c tmin tmax tok).
Proof.
  unfold fetchEvents. case_bool_decide; [apply Waits_throw|].
  destruct tmin, tmax; try apply Waits_throw.
  apply Waits_try_catch; [|intros; apply Waits_throw].
  apply Waits_bind; [apply Waits_once, request_waits|]. intros response.
  destruct (negb _); [apply Waits_throw|].
  apply Waits_bind; [apply Waits_json|]. intros. apply Waits_ret.
Qed.

Lemma Waits_createBusyEvent c ev : Waits (createBusyEvent c ev).
Proof.
  unfold createBusyEvent. destruct (_ || _); [apply Waits_ret|].
  destruct (strictNe _ _); [apply Waits_ret|].
  apply Waits_bind; [apply Waits_newDate|]. intros now.
  apply Waits_bind.
  { apply Waits_try_catch; [|intros; apply Waits_throw].
    apply Waits_bind; [apply Waits_once, request_waits|]. intros response.
    destruct (negb _); [apply Waits_throw | apply Waits_ret]. }
  intros response. apply Waits_bind; [apply Waits_json|]. intros. apply Waits_ret.
Qed.

Lemma Waits_deleteEvent c i : Waits (deleteEvent c i).
Proof.
  unfold deleteEvent. apply Waits_try_catch; [|intros; apply Waits_throw].
  apply Waits_bind; [apply Waits_once, request_waits|]. intros response.
  destruct (negb _); [apply Waits_throw | apply Waits_ret].
Qed.

Lemma Waits_syncSource target a b map keep src :
  Waits (syncSource target a b map keep src).
Proof.
  unfold syncSource. apply Waits_bind; [apply Waits_fetchEvents|]. intros events.
  apply Waits_forOf. intros acc ev. unfold syncEvent.
  destruct (_ || _); [apply Waits_ret|].
  destruct (strictNe _ _); [apply Waits_ret|].
  apply Waits_bind; [apply Waits_liftE|]. intros key.
  apply Waits_bind; [|intros; apply Waits_ret].
  destruct (negb _); [|apply Waits_ret].
  apply Waits_bind; [apply Waits_createBusyEvent|]. intros. apply Waits_ret.
Qed.

(** The [try] block of [performSync] takes the latch before anything else,
    waits for the settings, and holds the latch at that and at every later
    wait, and at its end. *)
Lemma performSync_try_holds st r st' :
  performSync_try st = (r, st') →
  _syncInProgress st' = true
  ∧ ∃ k, awaited st' = awaited st ++ replicate (S k) true.
Proof.
  unfold performSync_try. intros Hrun.
  apply bind_inv in Hrun as [(? & st0 & Hm & Hrun)|[(? & Hm & _)|[Hm _]]];
    [|by inversion Hm..].
  apply modify_inv in Hm as [_ ->].
  assert (Hrest : ∀ (rest : M W unit) sa,
            Waits rest → _syncInProgress sa = true →
            awaited sa = awaited st ++ [true] →
            ∀ ra sb, rest sa = (ra, sb) →
              _syncInProgress sb = true
              ∧ ∃ k, awaited sb = awaited st ++ replicate (S k) true).
  { intros rest sa Hw Hl Ha ra sb Hr. destruct (Hw _ _ _ Hr) as (Hl' & k & Ha').
    split; [congruence|]. exists k. rewrite Ha', Ha, Hl. simpl.
    by rewrite <- app_assoc. }
  apply bind_inv in Hrun as [(settings & st1 & Hs & Hrun)|[(e & Hs & ->)|[Hs ->]]];
    destruct (getSettings_waits _ _ _ Hs) as [Hl1 Ha1]; simpl in Hl1, Ha1.
  2,3: split; [done|]; exists 0%nat; by rewrite Ha1.
  eapply Hrest; [|done|done|exact Hrun].
  destruct (_ || _); [apply Waits_throw|].
  apply Waits_bind; [apply Waits_newDate|]. intros now1.
  apply Waits_bind; [apply Waits_newDate|]. intros now2.
  destruct (syncRange _ _ _) as [startTime endTime].
  apply Waits_bind; [apply Waits_fetchEvents|]. intros events.
  apply Waits_bind; [apply Waits_liftE|]. intros entries.
  apply Waits_bind; [apply Waits_forOf; intros; apply Waits_syncSource|].
  intros keep. apply Waits_bind.
  { apply Waits_forOf. intros [] entry. unfold deleteObsolete.
    destruct (negb _); [apply Waits_deleteEvent | apply Waits_ret]. }
  intros _. apply Waits_bind; [apply Waits_newDate|]. intros now.
  intros sa ra sb Hmod. apply modify_inv in Hmod as [-> ->]. simpl.
  split; [done|]. exists 0%nat. by rewrite app_nil_r.
Qed.

(** C7. A call made while the latch is held returns at once, without an
    error and without waiting for anything, leaving the world and the
    trace of requests untouched.  A call made while the latch is free holds
    it every time it waits for the browser (for the settings, for the
    answer to a request), which it does at least once: a call that arrives
    during any of these waits finds the latch held and, by the first part,
    returns at once.  The run ends (normally or by a throw) with the latch
    released. *)
Theorem performSync_latch (st : State W) :
  (_syncInProgress st = true → performSync st = (Normal (), st))
  ∧ (_syncInProgress st = false →
     ∀ r st', performSync st = (r, st') →
       r ≠ OutOfFuel
       ∧ (∃ k, awaited st' = awaited st ++ replicate (S k) true)
       ∧ _syncInProgress st' = false ∧ isSyncing st' = false).
Proof.
  split.
  - intros Hheld. unfold performSync. by rewrite Hheld.
  - intros Hidle r st' Hrun.
    destruct (performSync_run _ _ _ Hidle Hrun) as (st1 & Htry & -> & ?).
    destruct (performSync_try_holds _ _ _ Htry) as [_ Hk]. done.
Qed.

(** What a run does to the recorded time. *)
Lemma performSync_time (st : State W) r st' :
  performSync st = (r, st') →
  (∀ e, r = Throw e → _lastSyncTime st' = _lastSyncTime st)
  ∧ (_lastSyncTime st' ≠ _lastSyncTime st →
     r = Normal () ∧ _syncInProgress st = false
     ∧ ∃ st1, _lastSyncTime st' = Some (nowAt st1)
              ∧ world st' = world (afterDate st1)).
Proof.
  intros Hrun.
  destruct (_syncInProgress st) eqn:Hlatch.
  - unfold performSync in Hrun. rewrite Hlatch in Hrun. inversion Hrun; subst.
    split; [done|]. by intros [].
  - destruct (performSync_run _ _ _ Hlatch Hrun) as (st1 & Htry & -> & Hfuel).
    pose proof (performSync_try_records _ _ _ Htry) as Hrec. simpl.
    destruct r as [[]|e|]; [| |done].
    + split; [done|]. by intros _.
    + split; [done|]. by intros [].
Qed.

(** C10. A run that throws leaves the recorded last-sync time as it was;
    the recorded time changes only in a run that got past the latch and
    returned normally, and is then the time read at its end: reading it
    is the last thing the run did to the world. *)
Theorem performSync_lastSyncTime (st : State W) r st' :
  performSync st = (r, st') →
  (∀ e, r = Throw e → getLastSyncTime st' = getLastSyncTime st)
  ∧ (getLastSyncTime st' ≠ getLastSyncTime st →
     r = Normal () ∧ _syncInProgress st = false
     ∧ ∃ st1, getLastSyncTime st' = Some (nowAt st1)
              ∧ world st' = world (afterDate st1)).
Proof. apply performSync_time. Qed.

End Latch.

(* ===================================================================== *)
(** * The time ranges                                                     *)
(* ===================================================================== *)

Module JsDateFacts.
Import JsDate.

Lemma Day_MakeDate d t : 0 ≤ t < msPerDay → Day (MakeDate d t) = d.
Proof.
  intros Ht. unfold Day, MakeDate, msPerDay in *.
  symmetry. apply (Z.div_unique_pos _ _ d t); lia.
Qed.

Lemma TimeWithinDay_MakeDate d t : 0 ≤ t < msPerDay → TimeWithinDay (MakeDate d t) = t.
Proof.
  intros Ht. unfold TimeWithinDay, MakeDate, msPerDay in *.
  symmetry. apply (Z.mod_unique_pos _ _ d t); lia.
Qed.

Lemma MakeDate_Day_TimeWithinDay t : MakeDate (Day t) (TimeWithinDay t) = t.
Proof.
  unfold MakeDate, Day, TimeWithinDay, msPerDay.
  pose proof (Z.div_mod t 86400000). lia.
Qed.

Lemma TimeWithinDay_range t : 0 ≤ TimeWithinDay t < msPerDay.
Proof. unfold TimeWithinDay, msPerDay. apply Z.mod_pos_bound. lia. Qed.

Lemma TimeClip_Some t : valid t → TimeClip t = Some t.
Proof. intros Ht. unfold TimeClip. by rewrite bool_decide_true. Qed.

Lemma TimeClip_inv t u : TimeClip t = Some u → u = t ∧ valid t.
Proof. unfold TimeClip. case_bool_decide; [|done]. by intros [= <-]. Qed.

(** [d.setDate(d.getDate() + k)] moves the local time of [d] by [k] whole
    days, in any zone. *)
Lemma setDate_getDate tza t k :
  setDate tza (Some t) (x ← getDate tza (Some t); Some (x + k))
  = TimeClip (UTC tza (LocalTime tza t + k * msPerDay)).
Proof.
  unfold setDate, getDate, monthStartDay; simpl. do 2 f_equal.
  pose proof (MakeDate_Day_TimeWithinDay (LocalTime tza t)) as Hsplit.
  unfold MakeDate in *. lia.
Qed.

Lemma setHours_midnight tza t :
  setHours tza (Some t) 0 0 0 0 = TimeClip (startOfDay tza t).
Proof. reflexivity. Qed.

Lemma setHours_last tza t :
  setHours tza (Some t) 23 59 59 999 = TimeClip (endOfDay tza t).
Proof. reflexivity. Qed.

(** In a zone that never changes its offset, local time and UTC move
    together. *)
Lemma UTC_LocalTime tza c t x :
  constantOffset tza c → UTC tza (LocalTime tza t + x) = t + x.
Proof. intros Hc. unfold UTC, LocalTime. rewrite !Hc. lia. Qed.

Lemma startOfDay_shift tza c t k :
  constantOffset tza c →
  startOfDay tza (startOfDay tza t + k * msPerDay) = startOfDay tza t + k * msPerDay.
Proof.
  intros Hc. unfold startOfDay, UTC, LocalTime. rewrite !Hc.
  replace (MakeDate (Day (t + c)) 0 - c + k * msPerDay + c)
    with (MakeDate (Day (t + c) + k) 0) by (unfold MakeDate; lia).
  rewrite Day_MakeDate by (unfold msPerDay; lia). unfold MakeDate. lia.
Qed.

Lemma endOfDay_startOfDay tza c t :
  constantOffset tza c → endOfDay tza t = startOfDay tza t + (msPerDay - 1).
Proof. intros Hc. unfold endOfDay, startOfDay, UTC, MakeDate. rewrite !Hc. lia. Qed.

Lemma endOfDay_shift tza c t k :
  constantOffset tza c →
  endOfDay tza (startOfDay tza t + k * msPerDay)
  = startOfDay tza t + k * msPerDay + (msPerDay - 1).
Proof.
  intros Hc. by rewrite (endOfDay_startOfDay _ c), (startOfDay_shift _ c).
Qed.

Lemma constantOffset_fixed m : constantOffset (fixedOffset m) (m * msPerMinute).
Proof. by intros t b. Qed.

End JsDateFacts.

Section Ranges.
Context {W : Type} {PF : Platform W}.

Import JsDate JsDateFacts.

(** The range of a sync run, on the local clock. *)
Lemma syncRange_eq now1 now2 w :
  syncRange now1 now2 (Some w)
  = (TimeClip (UTC LocalTZA (LocalTime LocalTZA now1 - 7 * msPerDay)),
     TimeClip (UTC LocalTZA (LocalTime LocalTZA now2 + w * 7 * msPerDay))).
Proof.
  unfold syncRange, numSub, numAdd, numMul. f_equal.
  - replace (LocalTime LocalTZA now1 - 7 * msPerDay)
      with (LocalTime LocalTZA now1 + (-7) * msPerDay) by lia.
    apply (setDate_getDate _ _ (-7)).
  - simpl (_ ≫= _). apply (setDate_getDate _ _ (w * 7)).
Qed.

Lemma syncRange_NaN now1 now2 : (syncRange now1 now2 None).2 = None.
Proof. done. Qed.

(** [_getDateRange] in a zone that never changes its offset, when the
    three dates are in the range of a [Date]. *)
Lemma _getDateRange_eq c w st :
  constantOffset LocalTZA c →
  let startDate := startOfDay LocalTZA (nowAt st) in
  valid (startDate - 7 * msPerDay) → valid startDate →
  valid (startDate + w * 7 * msPerDay) →
  valid (startDate + w * 7 * msPerDay + (msPerDay - 1)) →
  _getDateRange (Some w) st =
  (Normal (Some (startDate - 7 * msPerDay), Some startDate,
           Some (startDate + w * 7 * msPerDay + (msPerDay - 1))),
   afterDate st).
Proof.
  intros Hc startDate H1 H2 Hmid H3.
  unfold _getDateRange, mbind, M_bind, newDate, mret, M_ret.
  rewrite setHours_midnight. fold startDate.
  rewrite (TimeClip_Some startDate) by done.
  unfold numSub, numAdd, numMul. simpl (Some w ≫= _).
  assert (Hlocal : ∀ x, UTC LocalTZA (LocalTime LocalTZA startDate + x) = startDate + x)
    by (intros; by apply (UTC_LocalTime _ c)).
  do 3 f_equal.
  - f_equal. etrans; [apply (setDate_getDate _ _ (-7))|].
    rewrite Hlocal. rewrite <- (TimeClip_Some _ H1).
    by replace (startDate + -7 * msPerDay) with (startDate - 7 * msPerDay) by lia.
  - rewrite (setDate_getDate _ _ (w * 7)), Hlocal.
    rewrite (TimeClip_Some _ Hmid), setHours_last.
    unfold startDate. rewrite (endOfDay_shift _ c) by done.
    by apply TimeClip_Some.
Qed.

End Ranges.

(* ===================================================================== *)
(** * The calendar access methods, request by request                     *)
(* ===================================================================== *)

Section Access.
Context {W : Type} {PF : Platform W}.

Lemma fetchEvents_run c a b tok st :
  c ≠ "" →
  ∃ o st',
    makeAuthenticatedRequest (GET_events c a b "2500" tok) (world st) = (o, world st')
    ∧ calls st [(GET_events c a b "2500" tok, o)] st'
    ∧ fetchEvents c (Some a) (Some b) tok st = (fetchOutcome o, st').
Proof.
  intros Hc. unfold fetchEvents. rewrite bool_decide_false by done.
  unfold try_catch, mbind, M_bind.
  destruct (request (GET_events c a b "2500" tok) st) as [res st'] eqn:Hreq.
  destruct (request_inv _ _ _ _ Hreq) as (o & Hw & Hcalls & ->).
  exists o, st'. split; [done|]. split; [done|].
  destruct o as [e|response]; simpl; [done|].
  destruct (ok response); simpl; [|done].
  unfold json. by destruct (body response).
Qed.

Lemma fetchEvents_normal c tmin tmax tok st items st' :
  fetchEvents c tmin tmax tok st = (Normal items, st') →
  ∃ a b response,
    tmin = Some a ∧ tmax = Some b
    ∧ calls st [(GET_events c a b "2500" tok, inr response)] st'
    ∧ ok response = true ∧ items = itemsOrEmpty (body response).
Proof.
  intros Hrun. unfold fetchEvents in Hrun.
  case_bool_decide as Hc; [by inversion Hrun|].
  destruct tmin as [a|], tmax as [b|]; try by inversion Hrun.
  destruct (fetchEvents_run c a b tok st Hc) as (o & st1 & _ & Hcalls & Hrun').
  unfold fetchEvents in Hrun'. rewrite bool_decide_false in Hrun' by done.
  rewrite Hrun in Hrun'. inversion Hrun' as [[Hres Hst]]. subst st1.
  exists a, b. destruct o as [e|response]; [done|]. simpl in Hres.
  exists response. destruct (ok response); [|done].
  split_and!; try done. by destruct (body response); inversion Hres.
Qed.

Lemma deleteEvent_run c i st :
  ∃ o st',
    makeAuthenticatedRequest (DELETE_events c i) (world st) = (o, world st')
    ∧ calls st [(DELETE_events c i, o)] st'
    ∧ deleteEvent c i st = (deleteOutcome o, st').
Proof.
  unfold deleteEvent, try_catch, mbind, M_bind.
  destruct (request (DELETE_events c i) st) as [res st'] eqn:Hreq.
  destruct (request_inv _ _ _ _ Hreq) as (o & Hw & Hcalls & ->).
  exists o, st'. split; [done|]. split; [done|].
  destruct o as [e|response]; simpl; [done|]. by destruct (ok response).
Qed.

(** A loop that deletes the events [evs] one after the other: it requests
    the deletions in order and stops at the first one that fails. *)
Lemma deleteLoop_run c (evs : list Event) st r st' :
  forOf (λ _ ev, deleteEvent c (id ev)) () evs st = (r, st') →
  ∃ new, calls st new st'
    ∧ match r with
      | Normal _ =>
          new.*1 = (λ ev, DELETE_events c (id ev)) <$> evs
          ∧ Forall (λ x, deleteOutcome x.2 = Normal ()) new
      | Throw e =>
          e = Error DELETE_FAILED
          ∧ ∃ good bad, new = good ++ [bad]
              ∧ new.*1 = (λ ev, DELETE_events c (id ev)) <$> take (length new) evs
              ∧ (length new ≤ length evs)%nat
              ∧ Forall (λ x, deleteOutcome x.2 = Normal ()) good
              ∧ deleteOutcome bad.2 = Throw (Error DELETE_FAILED)
      | OutOfFuel => False
      end.
Proof.
  revert st. induction evs as [|ev evs IH]; intros st Hrun; simpl in Hrun.
  - inversion Hrun; subst. exists []. split; [apply calls_refl|]. by split.
  - destruct (deleteEvent_run c (id ev) st) as (o & st1' & _ & Hc1 & Hrun1).
    apply bind_inv in Hrun as [([] & st1 & H1 & H2)|[(e & H1 & ->)|[H1 ->]]];
      rewrite Hrun1 in H1;
      first [ assert (st1' = st1) as -> by congruence
            | assert (st1' = st') as -> by congruence ].
    + assert (Ho : deleteOutcome o = Normal ()) by congruence. clear H1.
      destruct (IH _ H2) as (new & Hc2 & Hr).
      exists ((DELETE_events c (id ev), o) :: new).
      split; [by apply (calls_trans _ [_] _ _ _ Hc1)|].
      destruct r as [[]|e|]; [| |done].
      * destruct Hr as [Hreqs Hok]. split; [simpl; by f_equal|].
        by constructor.
      * destruct Hr as (-> & good & bad & -> & Hreqs & Hlen & Hgood & Hbad).
        split; [done|].
        exists ((DELETE_events c (id ev), o) :: good), bad.
        split; [done|]. split; [|split; [simpl in *; lia|]].
        { change (length ((DELETE_events c (id ev), o) :: good ++ [bad]))
            with (S (length (good ++ [bad]))). simpl. by f_equal. }
        split; [by constructor|done].
    + assert (Ho : deleteOutcome o = Throw e) by congruence. clear H1.
      exists [(DELETE_events c (id ev), o)]. split; [done|].
      assert (e = Error DELETE_FAILED) as ->.
      { unfold deleteOutcome in Ho. destruct o as [|resp]; [by inversion Ho|].
        destruct (ok resp); by inversion Ho. }
      split; [done|]. exists [], (DELETE_events c (id ev), o).
      split; [done|]. split; [done|]. split; [simpl; lia|]. by split.
    + assert (Ho : deleteOutcome o = OutOfFuel) by congruence.
      unfold deleteOutcome in Ho. destruct o as [|resp]; [done|].
      by destruct (ok resp).
Qed.

(** The delete phase of [performSync] is such a loop, over the values of
    the entries whose key is not kept. *)
Lemma deleteObsolete_loop target (keep : gset string)
    (entries : list (string * Event)) st :
  forOf (deleteObsolete target keep) () entries st
  = forOf (λ _ ev, deleteEvent target (id ev)) ()
      ((filter (λ kv, kv.1 ∉ keep) entries).*2) st.
Proof.
  revert st. induction entries as [|[k ev] entries IH]; intros st; [done|].
  rewrite filter_cons. cbn [forOf]. unfold mbind, M_bind.
  unfold deleteObsolete at 1. cbn [fst snd].
  destruct (decide (k ∈ keep)) as [Hk|Hk].
  - rewrite bool_decide_true by done. rewrite decide_False by (by intros ?).
    cbn. apply IH.
  - rewrite bool_decide_false by done. rewrite decide_True by done.
    cbn [negb fmap list_fmap snd forOf]. unfold mbind, M_bind.
    destruct (deleteEvent target (id ev) st) as [[[]|e|] st1]; [apply IH|done..].
Qed.

End Access.

(* ===================================================================== *)
(** * The anatomy of a sync run                                           *)
(* ===================================================================== *)

Section Anatomy.
Context {W : Type} {PF : Platform W}.

Lemma issued_app (st st' : State W) new :
  trace st' = trace st ++ new → issued st st' = new.
Proof. intros Ht. unfold issued. by rewrite Ht, drop_app_length. Qed.

Lemma Forall_False_nil {A} (l : list A) : Forall (λ _, False) l → l = [].
Proof. destruct l; [done|]. by inversion 1. Qed.

(** Every value of [new Map(entries)] is the value of one of the entries. *)
Lemma Map_set_values {V} k (v : V) m x :
  x ∈ (Map_set k v m).*2 → x = v ∨ x ∈ m.*2.
Proof.
  induction m as [|[k' v'] m IH]; simpl.
  - rewrite list_elem_of_singleton. auto.
  - case_bool_decide; simpl; rewrite !elem_of_cons; intros [->|Hx]; auto.
    destruct (IH Hx); auto.
Qed.

Lemma Map_new_values {V} (entries : list (string * V)) x :
  x ∈ (Map_new entries).*2 → x ∈ entries.*2.
Proof.
  unfold Map_new.
  assert (Hgen : ∀ m, x ∈ (foldl (λ m kv, Map_set kv.1 kv.2 m) m entries).*2 →
                      x ∈ m.*2 ∨ x ∈ entries.*2).
  { induction entries as [|[k v] entries IH]; intros m; simpl; [auto|].
    intros Hx. destruct (IH _ Hx) as [Hm|He].
    - apply Map_set_values in Hm as [->|Hm]; [right; by left | by left].
    - right. by right. }
  intros Hx. destruct (Hgen [] Hx) as [Hnil|]; [|done]. by inversion Hnil.
Qed.

Lemma keyedEntries_values events entries :
  keyedEntries events = inr entries → entries.*2 = events.
Proof.
  revert entries. induction events as [|ev events IH]; intros entries; simpl.
  - by intros [= <-].
  - destruct (_createEventKey _ _); [done|].
    destruct (keyedEntries events) as [|rest]; [done|].
    intros [= <-]. simpl. f_equal. by apply IH.
Qed.

(** A run of the [try] block either fails before its delete phase, having
    made no delete request, or reaches the delete phase with the map built
    from the tagged events of the target listing, and ends as that phase
    ends. *)
Lemma performSync_try_anatomy st r st' :
  performSync_try st = (r, st') →
  ∃ pre, Forall notDelete pre
    ∧ ((issued st st' = pre ∧ ∃ e, r = Throw e)
       ∨ ∃ target a b response entries keep st2 rl st3,
           (GET_events target a b "2500" None, inr response) ∈ pre
           ∧ ok response = true
           ∧ keyedEntries (filter isSynced (itemsOrEmpty (body response)))
             = inr entries
           ∧ trace st2 = trace st ++ pre
           ∧ forOf (deleteObsolete target keep) () (Map_new entries) st2 = (rl, st3)
           ∧ trace st' = trace st3
           ∧ match rl with
             | Normal _ => r = Normal ()
             | Throw e => r = Throw e
             | OutOfFuel => False
             end).
Proof.
  unfold performSync_try. intros Hrun.
  apply bind_inv in Hrun as [(? & st0 & Hm & Hrun)|[(? & Hm & _)|[Hm _]]];
    [|by inversion Hm..].
  apply modify_inv in Hm as [_ ->].
  apply bind_inv in Hrun as [(settings & st1 & Hs & Hrun)|[(e & Hs & ->)|[Hs ->]]];
    destruct (Issues_getSettings (λ _, False) _ _ _ Hs) as (Hf0 & n0 & (_ & _ & Ht0) & HF);
    apply Forall_False_nil in HF as ->; rewrite app_nil_r in Ht0; simpl in Ht0;
    [| |done].
  2: { exists []. split; [constructor|]. left. split; [|eauto].
       apply issued_app. by rewrite app_nil_r. }
  destruct (_ || _).
  { inversion Hrun; subst. exists []. split; [constructor|]. left.
    split; [|eauto]. apply issued_app. by rewrite app_nil_r. }
  apply bind_inv in Hrun as [(now1 & st1' & Hn & Hrun)|[(? & Hn & _)|[Hn _]]];
    [|by inversion Hn..].
  inversion Hn; subst now1 st1'; clear Hn.
  apply bind_inv in Hrun as [(now2 & st1' & Hn & Hrun)|[(? & Hn & _)|[Hn _]]];
    [|by inversion Hn..].
  inversion Hn; subst now2 st1'; clear Hn.
  destruct (syncRange _ _ _) as [startTime endTime].
  set (target := trim (default "" (targetCalendar settings))) in *.
  (* the listing of the target calendar *)
  apply bind_inv in Hrun as [(events & st2 & Hfetch & Hrun)|[(e & Hfetch & ->)|[Hfetch ->]]].
  3: by destruct (fetchEvents_issues _ _ _ _ _ _ _ Hfetch).
  2: { destruct (fetchEvents_issues _ _ _ _ _ _ _ Hfetch) as (_ & n1 & (_ & _ & Ht1) & HP).
       simpl in Ht1. exists n1. split.
       - eapply Forall_impl; [exact HP|]. intros [q o] (? & ? & Hq).
         simpl in Hq. by subst.
       - left. split; [|eauto]. apply issued_app. congruence. }
  destruct (fetchEvents_normal _ _ _ _ _ _ _ Hfetch)
    as (a & b & response & -> & -> & (_ & _ & Ht1) & Hok & ->).
  simpl in Ht1. rewrite Ht0 in Ht1.
  apply bind_inv in Hrun as [(entries & st2' & He & Hrun)|[(e & He & ->)|[He ->]]];
    [| |by destruct (keyedEntries _); inversion He].
  2: { destruct (keyedEntries _); inversion He; subst.
       exists [(GET_events target a b "2500" None, inr response)].
       split; [by repeat constructor|]. left. split; [|eauto]. by apply issued_app. }
  destruct (keyedEntries _) as [|entries'] eqn:Hentries; inversion He; subst; clear He.
  (* the source calendars *)
  apply bind_inv in Hrun as [(keep & st3 & Hsrc & Hrun)|[(e & Hsrc & ->)|[Hsrc ->]]];
    match type of Hsrc with forOf ?f ?acc ?xs _ = _ =>
      assert (Hiss : Issues notDelete (forOf f acc xs))
        by (apply Issues_forOf; intros; apply syncSource_issues)
    end;
    destruct (Hiss _ _ _ Hsrc) as (? & n2 & (_ & _ & Ht2) & HP2); [| |done].
  2: { exists ((GET_events target a b "2500" None, inr response) :: n2).
       split; [by constructor|]. left. split; [|eauto]. apply issued_app.
       rewrite Ht2, Ht1. by rewrite <- app_assoc. }
  (* the delete phase *)
  exists ((GET_events target a b "2500" None, inr response) :: n2).
  split; [by constructor|]. right.
  apply bind_inv in Hrun as [([] & st4 & Hdel & Hrun)|[(e & Hdel & ->)|[Hdel ->]]].
  - apply bind_inv in Hrun as [(now & st4' & Hn & Hrun)|[(? & Hn & _)|[Hn _]]];
      [|by inversion Hn..].
    inversion Hn; subst now st4'; clear Hn. apply modify_inv in Hrun as [-> ->].
    exists target, a, b, response, entries, keep, st3, (Normal ()), st4.
    split_and!; try done; [by left | rewrite Ht2, Ht1; by rewrite <- app_assoc].
  - exists target, a, b, response, entries, keep, st3, (Throw e), st'.
    split_and!; try done; [by left | rewrite Ht2, Ht1; by rewrite <- app_assoc].
  - match type of Hdel with forOf ?f ?acc ?xs _ = _ =>
      assert (Hiss' : Issues (λ _, True) (forOf f acc xs))
    end.
    { apply Issues_forOf. intros. eapply Issues_mono; [|apply deleteObsolete_issues]. done. }
    by destruct (Hiss' _ _ _ Hdel).
Qed.

(** The [try] block, step by step: where it can stop, and with what. *)
Lemma performSync_try_steps st r st' :
  performSync_try st = (r, st') →
  (∃ e, r = Throw e ∧ getSettings (set_syncInProgress true st) = (Throw e, st'))
  ∨ ∃ settings st1,
      getSettings (set_syncInProgress true st) = (Normal settings, st1)
      ∧ let target := trim (default "" (targetCalendar settings)) in
        let sources := trim <$> default [] (sourceCalendars settings) in
        let range := syncRange (nowAt st1) (nowAt (afterDate st1))
                       (weeksAhead settings) in
        let st1' := afterDate (afterDate st1) in
        if negb (truthy (targetCalendar settings))
           || bool_decide (default [] (sourceCalendars settings) = [])
        then r = Throw (Error "Sync settings not configured") ∧ st' = st1
        else
          (∃ e, r = Throw e
                ∧ fetchEvents target range.1 range.2 None st1' = (Throw e, st'))
          ∨ ∃ events st2,
              fetchEvents target range.1 range.2 None st1' = (Normal events, st2)
              ∧ match keyedEntries (filter isSynced events) with
                | inl e => r = Throw e ∧ st' = st2
                | inr entries =>
                    (∃ e, r = Throw e
                          ∧ forOf (syncSource target range.1 range.2 (Map_new entries))
                              ∅ sources st2 = (Throw e, st'))
                    ∨ ∃ keep st3,
                        forOf (syncSource target range.1 range.2 (Map_new entries))
                          ∅ sources st2 = (Normal keep, st3)
                        ∧ ((∃ e, r = Throw e
                                 ∧ forOf (deleteObsolete target keep) ()
                                     (Map_new entries) st3 = (Throw e, st'))
                           ∨ ∃ st4,
                               forOf (deleteObsolete target keep) ()
                                 (Map_new entries) st3 = (Normal (), st4)
                               ∧ r = Normal ()
                               ∧ st' = set_lastSyncTime (Some (nowAt st4))
                                         (afterDate st4))
                end.
Proof.
  unfold performSync_try. intros Hrun.
  apply bind_inv in Hrun as [(? & st0 & Hm & Hrun)|[(? & Hm & _)|[Hm _]]];
    [|by inversion Hm..].
  apply modify_inv in Hm as [_ ->].
  apply bind_inv in Hrun as [(settings & st1 & Hs & Hrun)|[(e & Hs & ->)|[Hs ->]]].
  2: { left. eauto. }
  2: { by destruct (Issues_getSettings (λ _, True) _ _ _ Hs). }
  right. exists settings, st1. split; [done|]. cbn zeta.
  destruct (_ || _); [by inversion Hrun|].
  apply bind_inv in Hrun as [(now1 & st1' & Hn & Hrun)|[(? & Hn & _)|[Hn _]]];
    [|by inversion Hn..].
  inversion Hn; subst now1 st1'; clear Hn.
  apply bind_inv in Hrun as [(now2 & st1' & Hn & Hrun)|[(? & Hn & _)|[Hn _]]];
    [|by inversion Hn..].
  inversion Hn; subst now2 st1'; clear Hn.
  destruct (syncRange _ _ _) as [startTime endTime]. cbn [fst snd].
  apply bind_inv in Hrun as [(events & st2 & Hfetch & Hrun)|[(e & Hfetch & ->)|[Hfetch ->]]].
  2: { left. eauto. }
  2: { by destruct (fetchEvents_issues _ _ _ _ _ _ _ Hfetch). }
  right. exists events, st2. split; [done|].
  apply bind_inv in Hrun as [(entries & st2' & He & Hrun)|[(e & He & ->)|[He ->]]];
    destruct (keyedEntries _) as [e0|entries0]; inversion He; subst; clear He.
  2: { done. }
  apply bind_inv in Hrun as [(keep & st3 & Hsrc & Hrun)|[(e & Hsrc & ->)|[Hsrc ->]]].
  2: { left. eauto. }
  2: { match type of Hsrc with forOf ?f ?acc ?xs _ = _ =>
         assert (Hiss : Issues notDelete (forOf f acc xs))
           by (apply Issues_forOf; intros; apply syncSource_issues)
       end. by destruct (Hiss _ _ _ Hsrc). }
  right. exists keep, st3. split; [done|].
  apply bind_inv in Hrun as [([] & st4 & Hdel & Hrun)|[(e & Hdel & ->)|[Hdel ->]]].
  - right. exists st4. split; [done|].
    apply bind_inv in Hrun as [(now & st4' & Hn & Hrun)|[(? & Hn & _)|[Hn _]]];
      [|by inversion Hn..].
    inversion Hn; subst now st4'; clear Hn. by apply modify_inv in Hrun as [-> ->].
  - left. eauto.
  - rewrite deleteObsolete_loop in Hdel.
    by destruct (deleteLoop_run _ _ _ _ _ Hdel) as (? & _ & ?).
Qed.

End Anatomy.

(* ===================================================================== *)
(** * Cleanup, request by request                                         *)
(* ===================================================================== *)

Section Cleanup.
Context {W : Type} {PF : Platform W}.

Import JsDate JsDateFacts.

(** With fuel left, the page loop of [cleanupSyncedEvents] is one call of
    [fetchEvents]: the token it reads back is always [undefined]. *)
Lemma cleanupPages_once fuel c tmin tmax all tok st :
  cleanupPages (S fuel) c tmin tmax all tok st
  = (data ← fetchEvents c tmin tmax tok; mret (all ++ data)) st.
Proof. reflexivity. Qed.

(** A run of [cleanupSyncedEvents] with fuel, on a calendar id and two
    valid dates: one list request, then the delete loop over the tagged
    events of the answer. *)
Lemma cleanupSyncedEvents_run fuel c a b st r st' :
  c ≠ "" →
  cleanupSyncedEvents (S fuel) c (Some a) (Some b) st = (r, st') →
  ∃ o st1,
    calls st [(GET_events c a b "2500" None, o)] st1
    ∧ match fetchOutcome o with
      | Normal items =>
          ∃ rl, forOf (λ _ ev, deleteEvent c (id ev)) () (filter isSynced items) st1
                = (rl, st')
            ∧ match rl with
              | Normal _ => r = Normal (length (filter isSynced items))
              | Throw e => r = Throw e
              | OutOfFuel => False
              end
      | Throw e => r = Throw e ∧ st' = st1
      | OutOfFuel => False
      end.
Proof.
  intros Hc Hrun. unfold cleanupSyncedEvents in Hrun.
  destruct (fetchEvents_run c a b None st Hc) as (o & st1 & _ & Hcalls & Hfetch).
  exists o, st1. split; [done|].
  apply bind_inv in Hrun as [(all & st1' & Hp & Hrun)|[(e & Hp & ->)|[Hp ->]]];
    rewrite cleanupPages_once in Hp; unfold mbind, M_bind in Hp;
    rewrite Hfetch in Hp; destruct (fetchOutcome o) as [items|e'|] eqn:Hout;
    inversion Hp; subst; clear Hp; try done.
  simpl in Hrun.
  apply bind_inv in Hrun as [([] & st2 & Hdel & Hrun)|[(e & Hdel & ->)|[Hdel ->]]].
  - inversion Hrun; subst. by exists (Normal ()).
  - by exists (Throw e).
  - destruct (deleteLoop_run _ _ _ _ _ Hdel) as (? & _ & []).
  - unfold fetchOutcome in Hout. destruct o as [|resp]; [done|].
    destruct (ok resp); [by destruct (body resp)|done].
Qed.

Lemma cleanupSyncedEvents_issues fuel c tmin tmax :
  Issues (λ x, isList c None x ∨ ∃ i, x.1 = DELETE_events c i)
         (cleanupSyncedEvents (S fuel) c tmin tmax).
Proof.
  unfold cleanupSyncedEvents. apply Issues_bind.
  - change (cleanupPages (S fuel) c tmin tmax [] None)
      with (data ← fetchEvents c tmin tmax None; mret (M := M W) ([] ++ data)).
    apply Issues_bind; [|intros; apply Issues_ret].
    eapply Issues_mono; [|apply fetchEvents_issues]. by left.
  - intros all. apply Issues_bind; [|intros; apply Issues_ret].
    apply Issues_forOf. intros _ ev _.
    eapply Issues_mono; [|apply deleteEvent_issues]. intros x Hx. right.
    by exists (id ev).
Qed.

Lemma _getDateRange_issues P w : Issues P (_getDateRange w).
Proof.
  unfold _getDateRange. apply Issues_bind; [apply Issues_newDate|].
  intros now. apply Issues_ret.
Qed.

(** With fuel, [cleanupAll] ends. *)
Lemma cleanupAll_ends fuel st : (cleanupAll (S fuel) st).1 ≠ OutOfFuel.
Proof.
  assert (Hiss : Issues (λ _, True) (cleanupAll (S fuel))).
  { unfold cleanupAll. apply Issues_try_catch; [|intros; apply Issues_throw].
    apply Issues_bind; [apply Issues_getSettings|]. intros settings.
    destruct (negb _); [apply Issues_throw|].
    apply Issues_bind; [apply _getDateRange_issues|].
    intros [[cleanupStart startDate] endDate].
    apply Issues_bind; [|intros; apply Issues_ret].
    eapply Issues_mono; [|apply cleanupSyncedEvents_issues]. done. }
  destruct (cleanupAll (S fuel) st) as [r st'] eqn:Hrun.
  by destruct (Hiss _ _ _ Hrun).
Qed.

Lemma numOr1_Some n : ∃ k, numOr1 n = Some k ∧ k ≠ 0
                           ∧ (∀ j, n = Some j → j ≠ 0 → k = j).
Proof.
  destruct n as [[| |]|]; simpl; eexists; (split; [done|]); split; try done;
    by intros ? [= <-].
Qed.

Lemma getSettings_run st settings w1 :
  chrome_storage_get (world st) = (inr (Some settings), w1) →
  getSettings st
  = (Normal settings,
     {| world := w1; _syncInProgress := _syncInProgress st;
        _lastSyncTime := _lastSyncTime st; trace := trace st;
        awaited := awaited st ++ [_syncInProgress st] |}).
Proof.
  intros Hget. unfold getSettings, try_catch, mbind, M_bind, storage_get.
  by rewrite Hget.
Qed.

(** The delete requests of [cleanupSyncedEvents] name tagged events of
    its listing. *)
Lemma cleanupSyncedEvents_listed fuel c tmin tmax st r st' ci i o :
  cleanupSyncedEvents fuel c tmin tmax st = (r, st') →
  (DELETE_events ci i, o) ∈ issued st st' →
  listedBefore (issued st st') (DELETE_events ci i, o) ci i.
Proof.
  intros Hrun Hin.
  assert (Hnone : trace st' = trace st →
            listedBefore (issued st st') (DELETE_events ci i, o) ci i).
  { intros Ht. rewrite (issued_app st st' []) in Hin by (by rewrite app_nil_r).
    by inversion Hin. }
  destruct fuel as [|fuel].
  { apply Hnone. unfold cleanupSyncedEvents in Hrun.
    apply bind_inv in Hrun as [(? & ? & Hp & _)|[(? & Hp & _)|[Hp _]]];
      by inversion Hp. }
  destruct (decide (c = "")) as [->|Hc].
  { apply Hnone. unfold cleanupSyncedEvents in Hrun.
    apply bind_inv in Hrun as [(? & ? & Hp & _)|[(? & Hp & _)|[Hp _]]];
      by inversion Hp. }
  destruct tmin as [a|], tmax as [b|].
  2,3,4: apply Hnone; unfold cleanupSyncedEvents in Hrun;
    apply bind_inv in Hrun as [(? & ? & Hp & _)|[(? & Hp & _)|[Hp _]]];
    rewrite cleanupPages_once in Hp; unfold fetchEvents in Hp;
    rewrite bool_decide_false in Hp by done; by inversion Hp.
  destruct (cleanupSyncedEvents_run _ _ _ _ _ _ _ Hc Hrun)
    as (o1 & st1 & (_ & _ & Ht1) & Hcase).
  destruct (fetchOutcome o1) as [items|e|] eqn:Hout; [| |done].
  2: { destruct Hcase as [_ ->].
       rewrite (issued_app _ _ _ Ht1) in Hin |- *.
       apply list_elem_of_singleton in Hin. by inversion Hin. }
  destruct Hcase as (rl & Hloop & _).
  assert (Hiss : Issues (λ x, ∃ ev, ev ∈ filter isSynced items
                              ∧ x.1 = DELETE_events c (id ev))
                   (forOf (λ _ ev, deleteEvent c (id ev)) ()
                      (filter isSynced items))).
  { apply Issues_forOf. intros _ ev Hev.
    eapply Issues_mono; [|apply deleteEvent_issues]. intros x Hx. eauto. }
  destruct (Hiss _ _ _ Hloop) as (_ & dels & (_ & _ & Ht2) & Hdels).
  assert (Hall : issued st st'
                 = (GET_events c a b "2500" None, o1) :: dels).
  { apply issued_app. rewrite Ht2, Ht1. by rewrite <- app_assoc. }
  rewrite Hall in Hin |- *.
  apply elem_of_cons in Hin as [Hin|Hin]; [by inversion Hin|].
  rewrite Forall_forall in Hdels.
  destruct (Hdels _ Hin) as (ev & Hev & Heq). simpl in Heq. inversion Heq; subst.
  apply list_elem_of_filter in Hev as [Htag Hev].
  unfold fetchOutcome in Hout. destruct o1 as [|response]; [done|].
  destruct (ok response) eqn:Hok; [|done].
  apply list_elem_of_split in Hin as (l1 & l2 & ->).
  exists ((GET_events c a b "2500" None, inr response) :: l1), l2.
  split; [done|].
  exists a, b, "2500", None, response, ev.
  split; [by left|]. split; [done|]. split; [|done].
  destruct (body response); inversion Hout; by subst.
Qed.

(** The requests of [cleanupAll] are those of the [cleanupSyncedEvents]
    it runs, if it gets that far. *)
Lemma cleanupAll_trace fuel st r st' :
  cleanupAll fuel st = (r, st') →
  trace st' = trace st
  ∨ ∃ c tmin tmax st1 r1,
      trace st1 = trace st
      ∧ cleanupSyncedEvents fuel c tmin tmax st1 = (r1, st').
Proof.
  intros Hrun. unfold cleanupAll in Hrun.
  assert (Hbody : ∃ res, (settings ← getSettings;
      if negb (truthy (targetCalendar settings)) then throw (Error NOT_CONFIGURED)
      else
        '(cleanupStart, _, endDate) ← _getDateRange (numOr1 (weeksAhead settings));
        cleanupSyncedEvents fuel (default "" (targetCalendar settings))
                            cleanupStart endDate;;
        mret ()) st = (res, st')).
  { apply try_catch_inv in Hrun as [(e & st1 & Hb & Hthrow)|[Hb _]]; [|eauto].
    inversion Hthrow; subst. eauto. }
  clear Hrun. destruct Hbody as [res Hbody].
  apply bind_inv in Hbody as [(settings & st1 & Hs & Hbody)|[(e' & Hs & _)|[Hs _]]];
    destruct (Issues_getSettings (λ _, False) _ _ _ Hs)
      as (_ & n0 & (_ & _ & Ht0) & HF);
    apply Forall_False_nil in HF as ->; rewrite app_nil_r in Ht0; [|by left..].
  destruct (negb _); [inversion Hbody; subst; by left|].
  apply bind_inv in Hbody as [([[cs sd] ed] & st2 & Hrange & Hbody)
                              |[(e' & Hrange & _)|[Hrange _]]];
    unfold _getDateRange, newDate, mbind at 1, M_bind at 1 in Hrange;
    inversion Hrange; subst; clear Hrange.
  right.
  apply bind_inv in Hbody as [(n & st3 & Hclean & Hbody)
                              |[(e' & Hclean & _)|[Hclean _]]];
    [inversion Hbody; subst; clear Hbody| |];
    (eexists _, _, _, (afterDate st1), _; split; [exact Ht0|exact Hclean]).
Qed.

End Cleanup.

(* ===================================================================== *)
(** * Listing                                                             *)
(* ===================================================================== *)

Section Listing.
Context {W : Type} {PF : Platform W}.

(** C3, as amended. A call of [fetchEvents] (on a calendar id and two
    valid dates) makes exactly one list request, with the page token it
    was given, and returns the events of that one answer in the order of
    the answer; a continuation token in the answer plays no part. *)
Theorem fetchEvents_single_request (c : string) (a b : Z) (tok : option string)
    (st : State W) :
  c ≠ "" →
  ∃ o st',
    fetchEvents c (Some a) (Some b) tok st = (fetchOutcome o, st')
    ∧ issued st st' = [(GET_events c a b "2500" tok, o)]
    ∧ ∀ response items next,
        o = inr response → ok response = true →
        body response = JList (Some items) next →
        fetchOutcome o = Normal items.
Proof.
  intros Hc. destruct (fetchEvents_run c a b tok st Hc) as (o & st' & _ & Hcalls & Hrun).
  exists o, st'. split; [done|]. split; [by apply calls_issued|].
  intros response items next -> Hok Hbody. simpl. by rewrite Hok, Hbody.
Qed.

End Listing.

(** Witness for C3 (amended): the first page of a target that takes two. *)
Lemma fetchEvents_single_request_witness :
  ∃ o st',
    fetchEvents (PF := Scenario.eastern) "work" (Some 0) (Some (2 * Scenario.noon))
      None Scenario.paged = (fetchOutcome o, st')
    ∧ issued Scenario.paged st'
      = [(GET_events "work" 0 (2 * Scenario.noon) "2500" None, o)]
    ∧ ∀ response items next,
        o = inr response → ok response = true →
        body response = JList (Some items) next →
        fetchOutcome o = Normal items.
Proof.
  apply (fetchEvents_single_request (PF := Scenario.eastern) "work" 0
           (2 * Scenario.noon) None Scenario.paged).
  done.
Defined.

(** Counterexample to C3 as stated: the provider serves the target in two
    pages; [fetchEvents] returns the first page only, and cleanup, which
    reads through it, leaves the tagged event of the second page in place. *)
Lemma fetchEvents_drops_pages :
  (fetchEvents (PF := Scenario.eastern) "work" (Some 0) (Some (2 * Scenario.noon))
     None Scenario.paged).1
  = Normal (take 2 Scenario.threeEvents)
  ∧ (listAllPages (PF := Scenario.eastern) 3 "work" 0 (2 * Scenario.noon)
       None Scenario.paged).1
    = Normal Scenario.threeEvents
  ∧ (fetchEvents (PF := Scenario.eastern) "work" (Some 0) (Some (2 * Scenario.noon))
       None Scenario.paged).1
    ≠ (listAllPages (PF := Scenario.eastern) 3 "work" 0 (2 * Scenario.noon)
         None Scenario.paged).1
  ∧ (let r := cleanupSyncedEvents (PF := Scenario.eastern) 3 "work" (Some 0)
                (Some (2 * Scenario.noon)) Scenario.paged in
     r.1 = Normal 1%nat
     ∧ filter isSynced (Cloud.eventsOf r.2 "work") = drop 2 Scenario.threeEvents).
Proof.
  split; [by vm_compute|]. split; [by vm_compute|]. split; [|by vm_compute].
  vm_compute. discriminate.
Qed.

(* ===================================================================== *)
(** * Deleting                                                            *)
(* ===================================================================== *)

Section Deleting.
Context {W : Type} {PF : Platform W}.

(** The delete requests of a run come after everything else, and name
    tagged events of the target listing. *)
Lemma performSync_deletes st r st' :
  performSync st = (r, st') →
  issued st st' = [] ∨
  ∃ pre dels target evs,
    issued st st' = pre ++ dels
    ∧ Forall notDelete pre
    ∧ (∀ x, x ∈ dels → listedTagged pre target (match x.1 with
                                                 | DELETE_events _ i => i
                                                 | _ => ""
                                                 end))
    ∧ dels.*1 = (λ ev, DELETE_events target (id ev)) <$> evs
    ∧ match r with
      | Normal _ => Forall (λ x, deleteOutcome x.2 = Normal ()) dels
      | Throw e =>
          dels = [] ∨
          (e = Error DELETE_FAILED
           ∧ ∃ good bad, dels = good ++ [bad]
               ∧ Forall (λ x, deleteOutcome x.2 = Normal ()) good
               ∧ deleteOutcome bad.2 = Throw (Error DELETE_FAILED))
      | OutOfFuel => False
      end.
Proof.
  intros Hrun. destruct (_syncInProgress st) eqn:Hlatch.
  { left. unfold performSync in Hrun. rewrite Hlatch in Hrun.
    inversion Hrun; subst. apply issued_app. by rewrite app_nil_r. }
  right. destruct (performSync_run _ _ _ Hlatch Hrun) as (st1 & Htry & -> & Hfuel).
  destruct (performSync_try_anatomy _ _ _ Htry) as (pre & Hpre & Hcases).
  change (issued st (set_syncInProgress false st1)) with (issued st st1).
  destruct Hcases as [[Hiss [e ->]]|Hphase].
  { exists pre, [], "", []. rewrite app_nil_r. split_and!; try done.
    - intros x Hx. by inversion Hx.
    - by left. }
  destruct Hphase as (target & a & b & response & entries & keep & st2 & rl & st3
                      & Hget & Hok & Hentries & Ht2 & Hloop & Ht3 & Hr).
  rewrite deleteObsolete_loop in Hloop.
  destruct (deleteLoop_run _ _ _ _ _ Hloop) as (dels & (_ & _ & Htd) & Hres).
  set (evs := (filter (λ kv, kv.1 ∉ keep) (Map_new entries)).*2) in *.
  assert (Hevs : ∀ ev, ev ∈ evs → ev ∈ itemsOrEmpty (body response) ∧ isSynced ev).
  { intros ev Hev. subst evs.
    apply list_elem_of_fmap in Hev as ([k ev'] & -> & Hin).
    apply list_elem_of_filter in Hin as [_ Hin]. simpl.
    assert (Hv : ev' ∈ (Map_new entries).*2).
    { apply list_elem_of_fmap. by exists (k, ev'). }
    apply Map_new_values in Hv. rewrite (keyedEntries_values _ _ Hentries) in Hv.
    by apply list_elem_of_filter in Hv as [? ?]. }
  assert (Hd : ∃ n, dels.*1 = (λ ev, DELETE_events target (id ev)) <$> take n evs).
  { destruct rl as [[]|e|]; [| |done].
    - exists (length evs). rewrite firstn_all. by destruct Hres.
    - destruct Hres as (_ & good & bad & _ & Hreq & _). eauto. }
  destruct Hd as [n Hd].
  exists pre, dels, target, (take n evs).
  split; [apply issued_app; rewrite Ht3, Htd, Ht2; by rewrite <- app_assoc|].
  split; [done|]. split; [|split; [done|]].
  - intros x Hx.
    assert (Hx1 : x.1 ∈ dels.*1) by (apply list_elem_of_fmap; eauto).
    rewrite Hd in Hx1. apply list_elem_of_fmap in Hx1 as (ev & -> & Hev).
    apply elem_of_take in Hev as (j & Hev & _).
    apply list_elem_of_lookup_2 in Hev. destruct (Hevs _ Hev) as [Hitem Htag].
    exists a, b, "2500", None, response, ev. done.
  - destruct rl as [[]|e|]; [| |done].
    + subst r. by destruct Hres.
    + subst r. right.
      destruct Hres as (-> & good & bad & -> & _ & _ & Hgood & Hbad).
      split; [done|]. by exists good, bad.
Qed.

(** C4, as amended. [deleteEvent] turns every answer that is not a
    success, a "not found" (404) among them, into the error
    [DELETE_FAILED]; a sync run that receives such an answer to a delete
    request ends there, throwing that error, with the last-sync time left
    as it was. *)
Theorem delete_failure_aborts :
  (∀ c i (st : State W) response w',
     makeAuthenticatedRequest (DELETE_events c i) (world st) = (inr response, w') →
     ok response = false →
     ∃ st', deleteEvent c i st = (Throw (Error DELETE_FAILED), st')
            ∧ world st' = w')
  ∧ (∀ (st : State W) r st' c i response,
       performSync st = (r, st') →
       (DELETE_events c i, inr response) ∈ issued st st' →
       ok response = false →
       r = Throw (Error DELETE_FAILED)
       ∧ last (issued st st') = Some (DELETE_events c i, inr response)
       ∧ getLastSyncTime st' = getLastSyncTime st).
Proof.
  split.
  - intros c i st response w' Hreq Hok.
    destruct (deleteEvent_run c i st) as (o & st' & Hw & _ & Hrun).
    rewrite Hreq in Hw. inversion Hw; subst. exists st'.
    split; [|done]. rewrite Hrun. simpl. by rewrite Hok.
  - intros st r st' c i response Hrun Hin Hok.
    assert (Hbad : deleteOutcome (inr response) ≠ Normal ()).
    { simpl. by rewrite Hok. }
    destruct (performSync_deletes _ _ _ Hrun) as [Hnil|Hd].
    { rewrite Hnil in Hin. by inversion Hin. }
    destruct Hd as (pre & dels & target & evs & Hiss & Hpre & _ & _ & Hres).
    rewrite Hiss in Hin |- *. apply elem_of_app in Hin as [Hin|Hin].
    { rewrite Forall_forall in Hpre. by specialize (Hpre _ Hin). }
    assert (Hfail : ∀ good, Forall (λ x, deleteOutcome x.2 = Normal ()) good →
              (DELETE_events c i, inr response) ∉ good).
    { intros good Hgood Hmem. rewrite Forall_forall in Hgood.
      by specialize (Hgood _ Hmem). }
    destruct r as [[]|e|]; [by destruct (Hfail _ Hres) | |done].
    destruct Hres as [->|(-> & good & bad & -> & Hgood & Hlast)]; [by inversion Hin|].
    apply elem_of_app in Hin as [Hin|Hin]; [by destruct (Hfail _ Hgood)|].
    apply list_elem_of_singleton in Hin as <-.
    split; [done|]. split; [by rewrite app_assoc, last_snoc|].
    by eapply (proj1 (performSync_time _ _ _ Hrun)).
Qed.

(** C8. Every delete request made by a sync run or by a cleanup names, on
    the calendar it is sent to, the id of an event that an earlier listing
    of that calendar in the same run returned carrying the tag: the runs
    delete nothing but what they have seen tagged. *)
Theorem deletes_only_tagged :
  (∀ (st : State W) r st' c i o,
     performSync st = (r, st') →
     (DELETE_events c i, o) ∈ issued st st' →
     listedBefore (issued st st') (DELETE_events c i, o) c i)
  ∧ (∀ fuel (st : State W) r st' c i o,
       cleanupAll fuel st = (r, st') →
       (DELETE_events c i, o) ∈ issued st st' →
       listedBefore (issued st st') (DELETE_events c i, o) c i).
Proof.
  split.
  - intros st r st' c i o Hrun Hin.
    destruct (performSync_deletes _ _ _ Hrun) as [Hnil|Hd].
    { rewrite Hnil in Hin. by inversion Hin. }
    destruct Hd as (pre & dels & target & evs & Hiss & Hpre & Hlisted & Hreqs & _).
    rewrite Hiss in Hin |- *. apply elem_of_app in Hin as [Hin|Hin].
    { rewrite Forall_forall in Hpre. by specialize (Hpre _ Hin). }
    assert (Hc : c = target).
    { assert (Hx1 : DELETE_events c i ∈ dels.*1).
      { apply list_elem_of_fmap. by exists (DELETE_events c i, o). }
      rewrite Hreqs in Hx1. apply list_elem_of_fmap in Hx1 as (ev & Heq & _).
      by inversion Heq. }
    subst c. destruct (Hlisted _ Hin) as (a & b & mr & tok & resp & ev & Hget & ?).
    apply list_elem_of_split in Hin as (l1 & l2 & ->).
    exists (pre ++ l1), l2. split; [by rewrite <- app_assoc|].
    exists a, b, mr, tok, resp, ev. split; [|done]. apply elem_of_app. by left.
  - intros fuel st r st' c i o Hrun Hin.
    destruct (cleanupAll_trace _ _ _ _ Hrun) as [Ht|(c' & tmin & tmax & st1 & r1 & Ht & Hclean)].
    { rewrite (issued_app st st' []) in Hin by (by rewrite app_nil_r).
      by inversion Hin. }
    unfold issued in *. rewrite <- Ht in *.
    by eapply cleanupSyncedEvents_listed.
Qed.

End Deleting.

(** Witness for C4 (amended): a delete of an id the target does not hold,
    and a run whose delete request is answered with 404. *)
Lemma delete_failure_aborts_witness :
  (∃ st', deleteEvent (PF := Scenario.eastern) "work" "ghost" Scenario.stale
          = (Throw (Error DELETE_FAILED), st')
          ∧ world st' = world Scenario.stale)
  ∧ (let run := performSync (PF := Scenario.eastern) Scenario.staleGone in
     run.1 = Throw (Error DELETE_FAILED)
     ∧ last (issued Scenario.staleGone run.2)
       = Some (DELETE_events "work" "old1", inr Cloud.notFound)
     ∧ getLastSyncTime run.2 = getLastSyncTime Scenario.staleGone).
Proof.
  split.
  - apply (proj1 (delete_failure_aborts (PF := Scenario.eastern))
             "work" "ghost" Scenario.stale Cloud.notFound (world Scenario.stale)).
    + vm_compute. reflexivity.
    + vm_compute. reflexivity.
  - apply (proj2 (delete_failure_aborts (PF := Scenario.eastern))
             Scenario.staleGone
             (performSync (PF := Scenario.eastern) Scenario.staleGone).1
             (performSync (PF := Scenario.eastern) Scenario.staleGone).2
             "work" "old1" Cloud.notFound).
    + apply surjective_pairing.
    + vm_compute. do 3 apply list_elem_of_further. apply list_elem_of_here.
    + vm_compute. reflexivity.
Defined.

(** Counterexample to C4 as stated: the provider answers 404 to the delete
    of an unknown id; [deleteEvent] does not return but throws, and a sync
    run whose delete is answered that way aborts. *)
Lemma delete_not_found_throws :
  (makeAuthenticatedRequest (Platform := Scenario.eastern)
     (DELETE_events "work" "ghost") (world Scenario.stale)).1
  = inr Cloud.notFound
  ∧ (deleteEvent (PF := Scenario.eastern) "work" "ghost" Scenario.stale).1
    ≠ Normal ()
  ∧ (deleteEvent (PF := Scenario.eastern) "work" "ghost" Scenario.stale).1
    = Throw (Error DELETE_FAILED)
  ∧ (let run := performSync (PF := Scenario.eastern) Scenario.staleGone in
     last (trace run.2) = Some (DELETE_events "work" "old1", inr Cloud.notFound)
     ∧ run.1 = Throw (Error DELETE_FAILED)).
Proof. vm_compute. split_and!; done. Qed.

(** Witness for C8: the run over [Scenario.stale] deletes the stale tagged
    event, which its listing of the target returned; and so does cleanup. *)
Lemma deletes_only_tagged_witness :
  listedBefore
    (issued Scenario.stale (performSync (PF := Scenario.eastern) Scenario.stale).2)
    (DELETE_events "work" "old1", inr (Cloud.respond 204 "No Content" JUnparsable))
    "work" "old1"
  ∧ listedBefore
      (issued Scenario.stale (cleanupAll (PF := Scenario.eastern) 1 Scenario.stale).2)
      (DELETE_events "work" "old1", inr (Cloud.respond 204 "No Content" JUnparsable))
      "work" "old1".
Proof.
  split.
  - apply (proj1 (deletes_only_tagged (PF := Scenario.eastern))
             Scenario.stale
             (performSync (PF := Scenario.eastern) Scenario.stale).1
             (performSync (PF := Scenario.eastern) Scenario.stale).2
             "work" "old1"
             (inr (Cloud.respond 204 "No Content" JUnparsable))).
    + apply surjective_pairing.
    + vm_compute. do 3 apply list_elem_of_further. apply list_elem_of_here.
  - apply (proj2 (deletes_only_tagged (PF := Scenario.eastern))
             1%nat Scenario.stale
             (cleanupAll (PF := Scenario.eastern) 1 Scenario.stale).1
             (cleanupAll (PF := Scenario.eastern) 1 Scenario.stale).2
             "work" "old1"
             (inr (Cloud.respond 204 "No Content" JUnparsable))).
    + apply surjective_pairing.
    + vm_compute. apply list_elem_of_further. apply list_elem_of_here.
Defined.

(** The untagged meeting of [Scenario.stale] is still there after a sync
    and after a cleanup; the stale tagged event is gone. *)
Example untagged_survives :
  Cloud.eventsOf (performSync (PF := Scenario.eastern) Scenario.stale).2 "work"
  = [Scenario.slot14 "mtg" None]
  ∧ Cloud.eventsOf (cleanupAll (PF := Scenario.eastern) 1 Scenario.stale).2 "work"
    = [Scenario.slot14 "mtg" None].
Proof. by vm_compute. Qed.

(** Witness for C7: a call while a sync is under way, and a call that fails
    (the target calendar does not exist). *)
Lemma performSync_latch_witness :
  performSync (PF := Scenario.eastern) Scenario.busy = (Normal (), Scenario.busy)
  ∧ (let run := performSync (PF := Scenario.eastern) Scenario.noTarget in
     run.1 ≠ OutOfFuel
     ∧ (∃ k, awaited run.2 = awaited Scenario.noTarget ++ replicate (S k) true)
     ∧ _syncInProgress run.2 = false ∧ isSyncing run.2 = false).
Proof.
  split.
  - apply (proj1 (performSync_latch (PF := Scenario.eastern) Scenario.busy)).
    reflexivity.
  - apply (proj2 (performSync_latch (PF := Scenario.eastern) Scenario.noTarget)).
    + reflexivity.
    + apply surjective_pairing.
Defined.

(** Witness for C10: the failing run over [Scenario.noTarget] keeps the
    time 5 recorded by the earlier run. *)
Lemma performSync_lastSyncTime_witness :
  (performSync (PF := Scenario.eastern) Scenario.noTarget).1
  = Throw (Error "Failed to fetch calendar events: HTTP 404: Not Found")
  ∧ getLastSyncTime (performSync (PF := Scenario.eastern) Scenario.noTarget).2
    = getLastSyncTime Scenario.noTarget.
Proof.
  split; [by vm_compute|].
  apply (proj1 (performSync_lastSyncTime (PF := Scenario.eastern) Scenario.noTarget
                  (performSync (PF := Scenario.eastern) Scenario.noTarget).1
                  (performSync (PF := Scenario.eastern) Scenario.noTarget).2
                  (surjective_pairing _))
           (Error "Failed to fetch calendar events: HTTP 404: Not Found")).
  vm_compute. reflexivity.
Defined.

(** The run over [Scenario.staleAndNew] waits six times (for the settings,
    three listings, an insert and a delete), each time with the latch
    held, and the run that finds the latch held does not wait at all. *)
Example latch_held_at_every_wait :
  awaited (performSync (PF := Scenario.eastern) Scenario.staleAndNew).2
  = replicate 6 true
  ∧ awaited (performSync (PF := Scenario.eastern) Scenario.busy).2 = [].
Proof. by vm_compute. Qed.

(** Counterexample to C9 as stated: at noon UTC on 1 June 2024, with four
    weeks ahead, the range of a sync run starts at noon on 25 May and ends
    at noon on 29 June; the day-aligned range would start at 00:00:00.000
    and end at 23:59:59.999 of those days. *)
Lemma syncRange_not_day_aligned :
  syncRange (PF := Scenario.utc) Scenario.noon Scenario.noon (Some 4)
  = (Some 1716638400000, Some 1719662400000)
  ∧ dayAlignedRange (PF := Scenario.utc) Scenario.noon 4
    = (Some 1716595200000, Some 1719705599999)
  ∧ syncRange (PF := Scenario.utc) Scenario.noon Scenario.noon (Some 4)
    ≠ dayAlignedRange (PF := Scenario.utc) Scenario.noon 4.
Proof. vm_compute. split_and!; done. Qed.

(* ===================================================================== *)
(** * Cleanup                                                             *)
(* ===================================================================== *)

(** The specification's scenario, three tagged and two untagged events in
    the target, on a provider that lists in one page: the count is 3, the
    two untagged events remain. *)
Example cleanup_scenario :
  let st := Scenario.threeTagged in
  (cleanupSyncedEvents (PF := Scenario.eastern) 1 "work"
     (Some 1716609600000) (Some 1719719999999) st).1 = Normal 3%nat
  ∧ (cleanupAll (PF := Scenario.eastern) 1 st).1 = Normal ()
  ∧ Cloud.eventsOf (cleanupAll (PF := Scenario.eastern) 1 st).2 "work"
    = [Scenario.slot9 "m1" None; Scenario.slot14 "m2" None].
Proof. by vm_compute. Qed.

(* ===================================================================== *)
(** * Runs that diverge from the specification                            *)
(* ===================================================================== *)

(** C6: what the code does on the same target when the provider lists it
    two events to the page.  The answer to the one list request carries a
    continuation token; [cleanupSyncedEvents] looks for the token on the
    Array that [fetchEvents] returned, finds [undefined], and leaves its
    [do ... while (pageToken)] loop after the first page.  The cleanup
    returns normally having deleted the one tagged event of that page: the
    count is 1, and the two other tagged events, inside the range, are
    still in the target. *)
Theorem cleanup_misses_later_pages :
  let st := Scenario.threeTaggedPaged in
  let run := cleanupAll (PF := Scenario.eastern) 5 st in
  let a := 1716609600000 in
  let b := 1719719999999 in
  run.1 = Normal ()
  ∧ (trace run.2).*1
    = [GET_events "work" a b "2500" None; DELETE_events "work" "s1"]
  ∧ (∃ response items,
       head (trace run.2).*2 = Some (inr response)
       ∧ body response = JList (Some items) (Some "2")
       ∧ id <$> items = ["s1"; "m1"]
       ∧ Array_nextPageToken items = None)
  ∧ (cleanupSyncedEvents (PF := Scenario.eastern) 5 "work" (Some a) (Some b) st).1
    = Normal 1%nat
  ∧ id <$> filter isSynced (Cloud.eventsOf run.2 "work") = ["s2"; "s3"]
  ∧ Forall (Cloud.inWindow a b) (filter isSynced (Cloud.eventsOf run.2 "work")).
Proof.
  intros st run a b.
  split; [by vm_compute|]. split; [by vm_compute|].
  split.
  { eexists _, _. split; [by vm_compute|]. split; [by vm_compute|].
    split; by vm_compute. }
  split; [by vm_compute|]. split; [by vm_compute|].
  apply (bool_decide_unpack _). by vm_compute.
Qed.

(** C1: what the code does on two source calendars that each hold an event
    in the same slot.  The run makes two insert requests and the target
    ends with two tagged events for the one slot-key: the key of a created
    event is added to [eventsToKeep], not to [existingSyncedMap], which is
    what the creation test looks at. *)
Theorem same_slot_created_twice :
  let run := performSync (PF := Scenario.eastern) Scenario.sameSlot in
  run.1 = Normal ()
  ∧ length (creates (trace run.2)) = 2%nat
  ∧ (λ ev, (id ev, dateTimeOf (start ev), dateTimeOf (end_ ev)))
      <$> filter isSynced (Cloud.eventsOf run.2 "work")
    = [("evt0", Some "2024-06-03T09:00:00-04:00", Some "2024-06-03T09:30:00-04:00");
       ("evt1", Some "2024-06-03T09:00:00-04:00", Some "2024-06-03T09:30:00-04:00")].
Proof. by vm_compute. Qed.

(** C2: what the code does on a source event that starts on 1 June and ends
    on 1 July.  [getDate()] is the day of the month, 1 for both ends, so the
    test for a multi-day event lets it through and a synced event is
    created for it. *)
Theorem month_long_event_synced :
  let run := performSync (PF := Scenario.eastern) Scenario.withMonthLong in
  JsDate.getDate (LocalTZA (Platform := Scenario.eastern))
    (Date_parse (PF := Scenario.eastern) "2024-06-01T10:00:00-04:00")
  = Some 1
  ∧ JsDate.getDate (LocalTZA (Platform := Scenario.eastern))
      (Date_parse (PF := Scenario.eastern) "2024-07-01T10:00:00-04:00")
    = Some 1
  ∧ run.1 = Normal ()
  ∧ length (creates (trace run.2)) = 1%nat
  ∧ (λ ev, (id ev, dateTimeOf (start ev), dateTimeOf (end_ ev)))
      <$> filter isSynced (Cloud.eventsOf run.2 "work")
    = [("evt0", Some "2024-06-01T10:00:00-04:00", Some "2024-07-01T10:00:00-04:00")].
Proof. by vm_compute. Qed.

(** The event of the specification's scenario (23:00 to 01:00 at UTC-4) is
    skipped by a runtime on UTC-4; on a runtime three hours further west
    both ends fall on 1 June local time, and it is synced. *)
Example overnight_event :
  creates (trace (performSync (PF := Scenario.eastern) Scenario.withOvernight).2) = []
  ∧ length (creates (trace (performSync (PF := Cloud.platform (JsDate.fixedOffset (-420)))
                              Scenario.withOvernight).2)) = 1%nat.
Proof. by vm_compute. Qed.

(* ===================================================================== *)
(** * The loop body, case by case                                         *)
(* ===================================================================== *)

Section Eligibility.
Context {W : Type} {PF : Platform W}.

Lemma syncEvent_skip target map keep ev st :
  eligible ev = false → syncEvent target map keep ev st = (Normal keep, st).
Proof.
  unfold eligible, syncEvent. intros Hel.
  destruct (truthy (dateTimeOf (start ev))); [|done].
  destruct (truthy (dateTimeOf (end_ ev))); [|done].
  simpl in Hel |- *. by destruct (strictNe _ _).
Qed.

Lemma syncEvent_eligible target map keep ev st :
  eligible ev = true →
  syncEvent target map keep ev st
  = ((if negb (Map_has map (slotKey ev))
      then createBusyEvent target ev;; mret ()
      else mret ());;
     mret ({[ slotKey ev ]} ∪ keep)) st.
Proof.
  unfold eligible, syncEvent, slotKey. intros Hel.
  destruct (truthy (dateTimeOf (start ev))); [|done].
  destruct (truthy (dateTimeOf (end_ ev))); [|done].
  simpl in Hel |- *. by destruct (strictNe _ _).
Qed.

Lemma syncEvent_known target map keep ev st :
  eligible ev = true → Map_has map (slotKey ev) = true →
  syncEvent target map keep ev st = (Normal ({[ slotKey ev ]} ∪ keep), st).
Proof.
  intros Hel Hhas. rewrite syncEvent_eligible by done. by rewrite Hhas.
Qed.

Lemma keyedEntries_slotKey events entries :
  keyedEntries events = inr entries →
  entries = (λ ev, (slotKey ev, ev)) <$> events.
Proof.
  revert entries. induction events as [|ev events IH]; intros entries; simpl.
  - by intros [= <-].
  - unfold _createEventKey, slotKey.
    destruct (start ev) as [s|], (end_ ev) as [e|]; try done.
    destruct (keyedEntries events) as [|rest]; [done|].
    intros [= <-]. simpl. f_equal. by apply IH.
Qed.

(** Without a repeated key, [new Map(entries)] holds the entries as given. *)
Lemma Map_set_fresh {V} k (v : V) m : k ∉ m.*1 → Map_set k v m = m ++ [(k, v)].
Proof.
  induction m as [|[k' v'] m IH]; simpl; [done|].
  intros Hk. apply not_elem_of_cons in Hk as [Hne Hk].
  rewrite bool_decide_false by done. by rewrite IH.
Qed.

Lemma Map_new_NoDup {V} (entries : list (string * V)) :
  NoDup entries.*1 → Map_new entries = entries.
Proof.
  unfold Map_new.
  assert (Hgen : ∀ m, NoDup (m ++ entries).*1 →
                  foldl (λ m kv, Map_set kv.1 kv.2 m) m entries = m ++ entries).
  { induction entries as [|[k v] entries IH]; intros m Hnd; simpl.
    - by rewrite app_nil_r.
    - rewrite Map_set_fresh.
      + rewrite IH; rewrite <- app_assoc; done.
      + rewrite fmap_app in Hnd. apply NoDup_app in Hnd as (_ & Hdisj & _).
        intros Hk. apply (Hdisj _ Hk). by left. }
  intros Hnd. by apply (Hgen []).
Qed.

Lemma Map_has_elem {V} (m : JsMap V) k : Map_has m k = true ↔ k ∈ m.*1.
Proof. unfold Map_has. by rewrite bool_decide_eq_true. Qed.

(** The keys of [new Map(entries)] are the keys of the entries. *)
Lemma Map_set_keys {V} k (v : V) m k' :
  k' ∈ (Map_set k v m).*1 ↔ k' = k ∨ k' ∈ m.*1.
Proof.
  induction m as [|[k0 v0] m IH]; simpl.
  - rewrite list_elem_of_singleton. split; [auto|]. intros [?|Hnil]; [done|].
    by inversion Hnil.
  - case_bool_decide; simpl; rewrite !elem_of_cons; [subst; tauto|].
    rewrite IH. tauto.
Qed.

Lemma Map_new_keys {V} (entries : list (string * V)) k :
  k ∈ (Map_new entries).*1 ↔ k ∈ entries.*1.
Proof.
  unfold Map_new.
  assert (Hgen : ∀ m, k ∈ (foldl (λ m kv, Map_set kv.1 kv.2 m) m entries).*1
                      ↔ k ∈ m.*1 ∨ k ∈ entries.*1).
  { induction entries as [|[k0 v0] entries IH]; intros m; simpl.
    - split; [auto|]. intros [?|Hnil]; [done|]. by inversion Hnil.
    - rewrite IH, Map_set_keys, elem_of_cons. tauto. }
  rewrite (Hgen []). split; [|auto]. intros [Hnil|?]; [|done]. by inversion Hnil.
Qed.

(** When every eligible event of a listing has its key in the map, the
    loop over the listing makes no request: it only collects keys. *)
Lemma syncEvents_known target map evs keep st :
  (∀ e, e ∈ evs → eligible e = true → Map_has map (slotKey e) = true) →
  ∃ keep', forOf (syncEvent target map) keep evs st = (Normal keep', st)
           ∧ keep ⊆ keep'
           ∧ ∀ e, e ∈ evs → eligible e = true → slotKey e ∈ keep'.
Proof.
  revert keep. induction evs as [|e evs IH]; intros keep Hknown.
  - exists keep. split_and!; [done..|]. intros e He. by inversion He.
  - assert (Hrest : ∀ e', e' ∈ evs → eligible e' = true →
                      Map_has map (slotKey e') = true).
    { intros e' He'. apply Hknown. by right. }
    simpl. unfold mbind, M_bind.
    destruct (eligible e) eqn:Hel.
    + rewrite syncEvent_known by first [done | apply Hknown; [by left|done]].
      destruct (IH ({[slotKey e]} ∪ keep) Hrest) as (keep' & Hrun & Hsub & Hkeys).
      exists keep'. split; [done|]. split; [set_solver|].
      intros e' He' Hel'. apply elem_of_cons in He' as [->|He']; [set_solver|].
      by apply Hkeys.
    + rewrite syncEvent_skip by done.
      destruct (IH keep Hrest) as (keep' & Hrun & Hsub & Hkeys).
      exists keep'. split; [done|]. split; [done|].
      intros e' He' Hel'. apply elem_of_cons in He' as [->|He']; [congruence|].
      by apply Hkeys.
Qed.

(** When every key of the map is kept, the delete phase makes no request. *)
Lemma deleteObsolete_none target (keep : gset string) (entries : JsMap Event) st :
  (∀ kv, kv ∈ entries → kv.1 ∈ keep) →
  forOf (deleteObsolete target keep) () entries st = (Normal (), st).
Proof.
  induction entries as [|[k ev] entries IH]; intros Hkept; [done|].
  simpl. unfold mbind, M_bind, deleteObsolete at 1. simpl.
  rewrite bool_decide_true by (apply (Hkept (k, ev)); by left). simpl.
  apply IH. intros kv Hkv. apply Hkept. by right.
Qed.

Lemma obsolete_values (keep : gset string) (l : list Event) :
  (filter (λ kv : string * Event, kv.1 ∉ keep) ((λ ev, (slotKey ev, ev)) <$> l)).*2
  = filter (λ ev, slotKey ev ∉ keep) l.
Proof.
  induction l as [|ev l IH]; [done|].
  rewrite fmap_cons, !filter_cons. cbn [fst].
  destruct (decide (slotKey ev ∉ keep)).
  - rewrite fmap_cons. cbn [snd]. by rewrite IH.
  - by rewrite IH.
Qed.

Lemma slotKey_keys (l : list Event) :
  ((λ ev, (slotKey ev, ev)) <$> l).*1 = slotKey <$> l.
Proof. rewrite <- list_fmap_compose. done. Qed.

Lemma readOnly_trace (tr : list (Request * (Exn + Response))) :
  Forall readOnly tr → creates tr = [] ∧ deletes tr = [].
Proof.
  unfold creates, deletes. induction tr as [|x tr IH]; [done|].
  intros Hall. apply Forall_cons in Hall as [[Hc Hd] Hall].
  destruct (IH Hall) as [IHc IHd]. simpl. by rewrite Hc, Hd.
Qed.

Lemma fetchEvents_readOnly c tmin tmax tok :
  Issues readOnly (fetchEvents c tmin tmax tok).
Proof.
  eapply Issues_mono; [|apply fetchEvents_issues].
  intros [q o] (? & ? & Hq). simpl in Hq. by subst.
Qed.

End Eligibility.

Section Creating.
Context {W : Type} {PF : Platform W}.

Lemma createBusyEvent_skip target ev st :
  eligible ev = false → createBusyEvent target ev st = (Normal None, st).
Proof.
  unfold eligible, createBusyEvent. intros Hel.
  destruct (truthy (dateTimeOf (start ev))); [|done].
  destruct (truthy (dateTimeOf (end_ ev))); [|done].
  simpl in Hel |- *. by destruct (strictNe _ _).
Qed.

Lemma createBusyEvent_run target ev st :
  eligible ev = true →
  ∃ o st',
    makeAuthenticatedRequest
      (POST_events target (busyEventOf ev (nowAt st))) (world (afterDate st))
    = (o, world st')
    ∧ calls st [(POST_events target (busyEventOf ev (nowAt st)), o)] st'
    ∧ createBusyEvent target ev st = (createOutcome o, st').
Proof.
  unfold eligible, createBusyEvent. intros Hel.
  destruct (truthy (dateTimeOf (start ev))); [|done].
  destruct (truthy (dateTimeOf (end_ ev))); [|done].
  simpl in Hel |- *. destruct (strictNe _ _); [done|].
  unfold mbind at 1, M_bind at 1, newDate.
  fold (busyEventOf ev (nowAt st)).
  unfold try_catch, mbind, M_bind.
  destruct (request (POST_events target (busyEventOf ev (nowAt st))) (afterDate st))
    as [res st'] eqn:Hreq.
  destruct (request_inv _ _ _ _ Hreq) as (o & Hw & Hcalls & ->).
  exists o, st'. split; [done|]. split; [done|].
  destruct o as [e|response]; simpl; [done|].
  destruct (ok response); simpl; [|done].
  unfold json. by destruct (body response).
Qed.

(** The part of the eligibility test that does not depend on the zone: an
    event without a start or without an end [dateTime] is passed over by the
    loop body, which leaves the keep set and the state as they were, and by
    [createBusyEvent], which makes no request. *)
Lemma untimed_event_skipped target map keep ev st :
  dateTimeOf (start ev) = None ∨ dateTimeOf (end_ ev) = None →
  eligible ev = false
  ∧ syncEvent target map keep ev st = (Normal keep, st)
  ∧ createBusyEvent target ev st = (Normal None, st).
Proof.
  intros Hnone.
  assert (Hel : eligible ev = false).
  { unfold eligible. destruct Hnone as [-> | ->]; simpl; [done|].
    by rewrite andb_false_r. }
  split; [done|]. split; [by apply syncEvent_skip|by apply createBusyEvent_skip].
Qed.

End Creating.

(* ===================================================================== *)
(** * The services on the executable provider                             *)
(* ===================================================================== *)

Section OnCloud.
Context (tza : JsDate.TZA).
Import Cloud.

#[local] Hint Extern 0 (Platform _) =>
  exact (Cloud.platform tza) : typeclass_instances.

Local Abbreviation rangeOf := (rangeOf tza).
Local Abbreviation SrcInv := (SrcInv tza).

Lemma popFault_quiet w : faults w = [] → popFault w = w.
Proof. destruct w; simpl. by intros ->. Qed.

Lemma handle_quiet r w :
  faults w = [] → handle r w = (inr (serve r w).1, (serve r w).2).
Proof.
  intros Hf. unfold handle. rewrite Hf, popFault_quiet by done.
  by destruct (serve r w).
Qed.

Lemma setCal_id w c evs :
  calendars w !! c = Some evs → setCal w c evs (nextId w) = w.
Proof. intros Hc. destruct w; unfold setCal; simpl in *. by rewrite insert_id. Qed.

Lemma setCal_setCal w c e1 n1 e2 n2 :
  setCal (setCal w c e1 n1) c e2 n2 = setCal w c e2 n2.
Proof. unfold setCal; simpl. by rewrite insert_insert_eq. Qed.

Lemma calOf_setCal_eq w c evs n : calOf (setCal w c evs n) c = evs.
Proof. unfold calOf, setCal; simpl. by rewrite lookup_insert_eq. Qed.

Lemma calOf_setCal_ne w c c' evs n : c ≠ c' → calOf (setCal w c evs n) c' = calOf w c'.
Proof. intros Hne. unfold calOf, setCal; simpl. by rewrite lookup_insert_ne. Qed.

Lemma quiet_setCal w c evs n : quiet w → quiet (setCal w c evs n).
Proof. by intros [? ?]. Qed.

(** Listing on a quiet provider: the world is left alone, and what is
    returned is the part of the calendar inside the range. *)
Lemma cloud_fetch c tmin tmax (st : State World) r st' :
  quiet (world st) →
  fetchEvents c tmin tmax None st = (r, st') →
  world st' = world st
  ∧ ∀ items, r = Normal items →
      ∃ a b evs, tmin = Some a ∧ tmax = Some b
        ∧ calendars (world st) !! c = Some evs
        ∧ items = filter (inWindow a b) evs.
Proof.
  intros [Hf Hp] Hrun.
  destruct (decide (c = "")) as [->|Hc].
  { unfold fetchEvents in Hrun. inversion Hrun; subst. by split. }
  destruct tmin as [a|], tmax as [b|];
    try (unfold fetchEvents in Hrun; rewrite bool_decide_false in Hrun by done;
         inversion Hrun; subst; by split).
  destruct (fetchEvents_run c a b None st Hc) as (o & st1 & Hreq & _ & Hrun').
  rewrite Hrun in Hrun'. inversion Hrun'; subst st1 r; clear Hrun'.
  simpl in Hreq. rewrite handle_quiet in Hreq by done. simpl in Hreq.
  destruct (calendars (world st) !! c) as [evs|] eqn:Hcal;
    simpl in Hreq; inversion Hreq as [[Ho Hw]]; subst o.
  - split; [done|]. intros items Hitems. exists a, b, evs.
    split_and!; try done. unfold listPage in Hitems. simpl in Hitems.
    rewrite Hp in Hitems. simpl in Hitems. by inversion Hitems.
  - split; [done|]. intros items Hitems. by vm_compute in Hitems.
Qed.

(** Creating on a quiet provider: the posted event is stored at the end of
    the calendar under the next id. *)
Lemma cloud_create target ev (st : State World) r st' :
  quiet (world st) → eligible ev = true →
  createBusyEvent target ev st = (r, st') →
  match calendars (world st) !! target with
  | Some evs =>
      (∃ created, r = Normal created)
      ∧ world st' = setCal (world st) target
                      (evs ++ [stored_event (nextId (world st))
                                 (busyEventOf ev (clock (world st)))])
                      (S (nextId (world st)))
  | None => (∃ e, r = Throw e) ∧ world st' = world st
  end.
Proof.
  intros [Hf Hp] Hel Hrun.
  destruct (createBusyEvent_run target ev st Hel) as (o & st1 & Hreq & _ & Hrun').
  rewrite Hrun in Hrun'. inversion Hrun'; subst st1 r; clear Hrun'.
  simpl in Hreq. rewrite handle_quiet in Hreq by done. simpl in Hreq.
  destruct (calendars (world st) !! target) as [evs|] eqn:Hcal;
    simpl in Hreq; inversion Hreq as [[Ho Hw]]; subst o.
  - split; [by eexists|]. unfold setCal. by rewrite Hf, Hp.
  - split; [|done]. by eexists.
Qed.

(** Deleting on a quiet provider: the events with that id leave the
    calendar, or the request fails and nothing changes. *)
Lemma cloud_delete c i (st : State World) r st' :
  quiet (world st) →
  deleteEvent c i st = (r, st') →
  (r = Normal ()
   ∧ ∃ evs, calendars (world st) !! c = Some evs ∧ i ∈ id <$> evs
       ∧ world st' = setCal (world st) c (filter (λ ev, id ev ≠ i) evs)
                       (nextId (world st)))
  ∨ ((∃ e, r = Throw e) ∧ world st' = world st).
Proof.
  intros [Hf Hp] Hrun.
  destruct (deleteEvent_run c i st) as (o & st1 & Hreq & _ & Hrun').
  rewrite Hrun in Hrun'. inversion Hrun'; subst st1 r; clear Hrun'.
  simpl in Hreq. rewrite handle_quiet in Hreq by done. simpl in Hreq.
  destruct (calendars (world st) !! c) as [evs|] eqn:Hcal; simpl in Hreq.
  - case_bool_decide as Hin; simpl in Hreq; inversion Hreq as [[Ho Hw]]; subst o.
    + left. split; [done|]. exists evs. split_and!; try done.
    + right. split; [by eexists|done].
  - inversion Hreq as [[Ho Hw]]; subst o. right. split; [by eexists|done].
Qed.

(** Reading the settings leaves the world as it is. *)
Lemma cloud_getSettings (st : State World) :
  getSettings st
  = (Normal (default defaultSettings (stored (world st))),
     {| world := world st; _syncInProgress := _syncInProgress st;
        _lastSyncTime := _lastSyncTime st; trace := trace st;
        awaited := awaited st ++ [_syncInProgress st] |}).
Proof. done. Qed.

(** So does reading the clock. *)
Lemma cloud_afterDate (st : State World) : world (afterDate st) = world st.
Proof. done. Qed.

Lemma cloud_nowAt (st : State World) : nowAt st = clock (world st).
Proof. done. Qed.

(** The readings of the clock in a hypothesis, computed. *)
Ltac cloud_clock H :=
  repeat match type of H with
         | context [nowAt ?x] =>
             let t := eval cbv [nowAt afterDate world Date_now platform fst snd] in
                        (nowAt x) in
             change (nowAt x) with t in H
         end.

(* --------------------------------------------------------------------- *)
(** ** A first run on the provider: the source phase                       *)
(* --------------------------------------------------------------------- *)

Section SourcePhase.

Lemma stored_event_facts n (e : Event) now a b :
  let new := stored_event n (busyEventOf e now) in
  id new = freshId n ∧ isSynced new
  ∧ (inWindow a b new ↔ inWindow a b e)
  ∧ eligible new = eligible e
  ∧ slotKey new = slotKey e.
Proof. by split_and!. Qed.

(** The world at the start of the run, the target calendar with its events
    then, the range of the run, the map built from the target listing, and
    the configured sources. *)
Context (w0 : World) (target : string) (T0 : list Event) (a b : Z)
        (map1 : JsMap Event) (sources : list string).
Context (Hquiet : quiet w0) (Htarget : calendars w0 !! target = Some T0).

Local Abbreviation SrcInv := (SrcInv w0 target T0 a b map1 sources).

Lemma calOf_grows C C' n n' s e :
  e ∈ calOf (setCal w0 target (T0 ++ C) n) s →
  e ∈ calOf (setCal w0 target (T0 ++ C ++ C') n') s.
Proof.
  destruct (decide (target = s)) as [<-|Hne].
  - rewrite !calOf_setCal_eq, app_assoc, (elem_of_app (T0 ++ C)). auto.
  - by rewrite !calOf_setCal_ne.
Qed.

Lemma calOf_start C n s e :
  e ∈ calOf w0 s → e ∈ calOf (setCal w0 target (T0 ++ C) n) s.
Proof.
  destruct (decide (target = s)) as [<-|Hne].
  - rewrite calOf_setCal_eq. unfold calOf. rewrite Htarget. simpl.
    rewrite elem_of_app. auto.
  - by rewrite calOf_setCal_ne.
Qed.

Lemma SrcInv_quiet C keep st : SrcInv C keep st → quiet (world st).
Proof. intros (-> & _). by apply quiet_setCal. Qed.

(** One event of a source listing. *)
Lemma syncEvent_step C keep st s e keep' st' :
  SrcInv C keep st → s ∈ sources → e ∈ calOf (world st) s → inWindow a b e →
  syncEvent target map1 keep e st = (Normal keep', st') →
  ∃ C', SrcInv (C ++ C') keep' st' ∧ keep ⊆ keep'
        ∧ (eligible e = true → slotKey e ∈ keep').
Proof.
  intros Hinv Hs He Hwin Hrun.
  destruct (eligible e) eqn:Hel.
  2: { rewrite syncEvent_skip in Hrun by done. inversion Hrun; subst.
       exists []. rewrite app_nil_r. by split_and!. }
  rewrite syncEvent_eligible in Hrun by done.
  destruct Hinv as (Hw & HC & Hwit & Horigin).
  destruct (Map_has map1 (slotKey e)) eqn:Hhas; simpl in Hrun.
  - inversion Hrun; subst. exists []. rewrite app_nil_r.
    split; [|split; [apply union_subseteq_r|]].
    2: { intros _. apply elem_of_union. left. by apply elem_of_singleton. }
    split; [done|]. split_and!.
    + eapply Forall_impl; [exact HC|]. intros c (? & ? & ? & ? & ?).
      split_and!; try done. apply elem_of_union. by right.
    + intros k Hk. apply elem_of_union in Hk as [Hk|Hk]; [|by apply Hwit].
      apply elem_of_singleton in Hk as ->. by exists s, e.
    + intros k Hk. apply elem_of_union in Hk as [Hk|Hk]; [|by apply Horigin].
      apply elem_of_singleton in Hk as ->. by left.
  - apply bind_inv in Hrun as [([] & st1 & Hc & Hrun)|[(? & _ & ?)|[_ ?]]]; [|done..].
    inversion Hrun; subst keep' st1; clear Hrun.
    apply bind_inv in Hc as [(created & st1 & Hc & Hrun)|[(? & _ & ?)|[_ ?]]]; [|done..].
    inversion Hrun; subst st1; clear Hrun.
    pose proof (cloud_create target e st _ _
                  (SrcInv_quiet _ _ _ (conj Hw (conj HC (conj Hwit Horigin)))) Hel Hc)
      as Hcreate.
    rewrite Hw in Hcreate. cbn [calendars setCal] in Hcreate.
    rewrite lookup_insert_eq in Hcreate. destruct Hcreate as [_ Hw'].
    rewrite setCal_setCal in Hw'. cbn [nextId clock setCal] in Hw'.
    set (new := stored_event (nextId w0 + length C) (busyEventOf e (clock w0))) in *.
    destruct (stored_event_facts (nextId w0 + length C) e (clock w0) a b)
      as (Hid & Htag & Hwin' & Hel' & Hkey). fold new in Hid, Htag, Hwin', Hel', Hkey.
    exists [new]. split; [|split; [apply union_subseteq_r|]].
    2: { intros _. apply elem_of_union. left. by apply elem_of_singleton. }
    split; [|split_and!].
    + rewrite Hw'. rewrite <- app_assoc. f_equal. rewrite length_app. simpl. lia.
    + apply Forall_app. split.
      * eapply Forall_impl; [exact HC|]. intros c (? & ? & ? & ? & ?).
        split_and!; try done. apply elem_of_union. by right.
      * constructor; [|constructor]. split_and!.
        -- exists (nextId w0 + length C)%nat. split; [lia|done].
        -- done.
        -- by apply Hwin'.
        -- by rewrite Hel'.
        -- rewrite Hkey. apply elem_of_union. left. by apply elem_of_singleton.
    + intros k Hk. rewrite Hw'.
      assert (Hmono : ∀ s' e', e' ∈ calOf (world st) s' →
                e' ∈ calOf (setCal w0 target ((T0 ++ C) ++ [new])
                              (S (nextId w0 + length C))) s').
      { intros s' e'. rewrite Hw, <- app_assoc. apply calOf_grows. }
      apply elem_of_union in Hk as [Hk|Hk].
      * apply elem_of_singleton in Hk as ->. exists s, e. split_and!; try done.
        by apply Hmono.
      * destruct (Hwit k Hk) as (s' & e' & ? & ? & ? & ? & ?).
        exists s', e'. split_and!; try done. by apply Hmono.
    + intros k Hk. apply elem_of_union in Hk as [Hk|Hk].
      * apply elem_of_singleton in Hk as ->. right. exists new.
        split; [|done]. rewrite elem_of_app, list_elem_of_singleton. auto.
      * destruct (Horigin k Hk) as [?|(c & ? & ?)]; [by left|].
        right. exists c. split; [|done]. rewrite elem_of_app. auto.
Qed.

Lemma SrcInv_world C keep st st1 :
  world st1 = world st → SrcInv C keep st → SrcInv C keep st1.
Proof. unfold SrcInv. by intros ->. Qed.

Lemma SrcInv_grows C C' keep keep' st st' s e :
  SrcInv C keep st → SrcInv (C ++ C') keep' st' →
  e ∈ calOf (world st) s → e ∈ calOf (world st') s.
Proof. intros (-> & _) (-> & _). apply calOf_grows. Qed.

(** The events of one source listing. *)
Lemma syncEvents_loop evs C keep st s keep' st' :
  SrcInv C keep st → s ∈ sources →
  (∀ e, e ∈ evs → e ∈ calOf (world st) s ∧ inWindow a b e) →
  forOf (syncEvent target map1) keep evs st = (Normal keep', st') →
  ∃ C', SrcInv (C ++ C') keep' st' ∧ keep ⊆ keep'
        ∧ ∀ e, e ∈ evs → eligible e = true → slotKey e ∈ keep'.
Proof.
  revert C keep st. induction evs as [|e evs IH]; intros C keep st Hinv Hs Hevs Hrun.
  - inversion Hrun; subst. exists []. rewrite app_nil_r.
    split_and!; [done..|]. intros e He. by inversion He.
  - simpl in Hrun.
    apply bind_inv in Hrun as [(keep1 & st1 & Hstep & Hrun)|[(? & _ & ?)|[_ ?]]];
      [|done..].
    destruct (Hevs e) as [He Hwin]; [by left|].
    destruct (syncEvent_step _ _ _ _ _ _ _ Hinv Hs He Hwin Hstep)
      as (C1 & Hinv1 & Hsub1 & Hkey1).
    assert (Hrest : ∀ e', e' ∈ evs → e' ∈ calOf (world st1) s ∧ inWindow a b e').
    { intros e' He'. destruct (Hevs e') as [Hin ?]; [by right|].
      split; [|done]. by apply (SrcInv_grows _ _ _ _ _ _ _ _ Hinv Hinv1). }
    destruct (IH _ _ _ Hinv1 Hs Hrest Hrun) as (C2 & Hinv2 & Hsub2 & Hkey2).
    exists (C1 ++ C2). rewrite app_assoc. split; [done|].
    split; [by etrans|].
    intros e' He' Hel. apply elem_of_cons in He' as [->|He'].
    + apply Hsub2. by apply Hkey1.
    + by apply Hkey2.
Qed.

(** The source calendars, one after the other. *)
Lemma syncSources_loop srcs C keep st keep' st' :
  SrcInv C keep st → (∀ s, s ∈ srcs → s ∈ sources) →
  forOf (syncSource target (Some a) (Some b) map1) keep srcs st = (Normal keep', st') →
  ∃ C', SrcInv (C ++ C') keep' st' ∧ keep ⊆ keep'
        ∧ ∀ s e, s ∈ srcs → e ∈ calOf w0 s → inWindow a b e →
                 eligible e = true → slotKey e ∈ keep'.
Proof.
  revert C keep st. induction srcs as [|s srcs IH]; intros C keep st Hinv Hsrcs Hrun.
  - inversion Hrun; subst. exists []. rewrite app_nil_r.
    split_and!; [done..|]. intros s e Hs. by inversion Hs.
  - simpl in Hrun.
    apply bind_inv in Hrun as [(keep1 & st1 & Hsrc & Hrun)|[(? & _ & ?)|[_ ?]]];
      [|done..].
    unfold syncSource in Hsrc.
    apply bind_inv in Hsrc as [(items & st0 & Hfetch & Hloop)|[(? & _ & ?)|[_ ?]]];
      [|done..].
    destruct (cloud_fetch _ _ _ _ _ _ (SrcInv_quiet _ _ _ Hinv) Hfetch) as [Hw0 Hitems].
    destruct (Hitems _ eq_refl) as (a' & b' & evs & [= <-] & [= <-] & Hcal & ->).
    assert (Hcal' : calOf (world st) s = evs) by (unfold calOf; by rewrite Hcal).
    pose proof (SrcInv_world _ _ _ _ Hw0 Hinv) as Hinv0.
    assert (Hs : s ∈ sources) by (apply Hsrcs; by left).
    assert (Hlisted : ∀ e, e ∈ filter (inWindow a b) evs →
                        e ∈ calOf (world st0) s ∧ inWindow a b e).
    { intros e He. apply list_elem_of_filter in He as [Hwin He].
      split; [|done]. by rewrite Hw0, Hcal'. }
    destruct (syncEvents_loop _ _ _ _ _ _ _ Hinv0 Hs Hlisted Hloop)
      as (C1 & Hinv1 & Hsub1 & Hkey1).
    assert (Hrest : ∀ s', s' ∈ srcs → s' ∈ sources).
    { intros s' Hs'. apply Hsrcs. by right. }
    destruct (IH _ _ _ Hinv1 Hrest Hrun) as (C2 & Hinv2 & Hsub2 & Hkey2).
    exists (C1 ++ C2). rewrite app_assoc. split; [done|].
    split; [by etrans|].
    intros s' e Hs' He Hwin Hel. apply elem_of_cons in Hs' as [->|Hs'].
    + apply Hsub2, Hkey1; [|done]. apply list_elem_of_filter. split; [done|].
      rewrite <- Hcal'. destruct Hinv as (-> & _). by apply calOf_start.
    + by eapply Hkey2.
Qed.

End SourcePhase.

(* --------------------------------------------------------------------- *)
(** ** A first run on the provider: the delete phase, and the whole run   *)
(* --------------------------------------------------------------------- *)

Lemma filter_all {A} (P : A → Prop) `{!∀ x, Decision (P x)} (l : list A) :
  (∀ x, x ∈ l → P x) → filter P l = l.
Proof.
  induction l as [|x l IH]; intros HP; [done|].
  rewrite filter_cons_True by (apply HP; by left).
  f_equal. apply IH. intros y Hy. apply HP. by right.
Qed.

(** A delete loop that returns has removed from the calendar the events
    carrying the ids it was given. *)
Lemma cloud_deleteLoop w0 target D (st : State World) evs n st' :
  quiet w0 → world st = setCal w0 target evs n →
  forOf (λ _ ev, deleteEvent target (id ev)) () D st = (Normal (), st') →
  world st' = setCal w0 target (filter (λ ev, id ev ∉ id <$> D) evs) n.
Proof.
  intros Hq. revert st evs. induction D as [|d D IH]; intros st evs Hw Hrun.
  - inversion Hrun; subst. rewrite Hw. f_equal. symmetry. apply filter_all.
    intros x _ Hx. by inversion Hx.
  - simpl in Hrun.
    apply bind_inv in Hrun as [([] & st1 & Hdel & Hrun)|[(? & _ & ?)|[_ ?]]]; [|done..].
    assert (Hq1 : quiet (world st)) by (rewrite Hw; by apply quiet_setCal).
    destruct (cloud_delete _ _ _ _ _ Hq1 Hdel)
      as [(_ & evs' & Hcal & _ & Hw1)|[[e He] _]]; [|done].
    rewrite Hw in Hcal, Hw1. cbn [calendars setCal] in Hcal.
    rewrite lookup_insert_eq in Hcal. inversion Hcal; subst evs'; clear Hcal.
    rewrite setCal_setCal in Hw1. cbn [nextId setCal] in Hw1.
    rewrite (IH _ _ Hw1 Hrun). f_equal.
    rewrite list_filter_filter. apply list_filter_iff.
    intros x. rewrite fmap_cons, not_elem_of_cons. tauto.
Qed.

Section FirstRun.
Context (st0 st1 : State World).
Context (Hquiet : quiet (world st0)) (Hidle : _syncInProgress st0 = false).
Context (Hrun1 : performSync st0 = (Normal (), st1)).

(** The state the first run leaves. *)
Lemma first_run_summary :
  let w0 := world st0 in
  ∃ T0 a b C keep,
    calendars w0 !! targetOf w0 = Some T0
    ∧ rangeOf w0 = (Some a, Some b)
    ∧ (negb (truthy (targetCalendar (configured w0)))
       || bool_decide (default [] (sourceCalendars (configured w0)) = [])) = false
    ∧ let listed := filter isSynced (filter (inWindow a b) T0) in
      let map1 := Map_new ((λ ev, (slotKey ev, ev)) <$> listed) in
      let D := (filter (λ kv, kv.1 ∉ keep) map1).*2 in
      world st1 = setCal w0 (targetOf w0)
                    (filter (λ ev, id ev ∉ id <$> D) (T0 ++ C))
                    (nextId w0 + length C)
      ∧ _syncInProgress st1 = false
      ∧ SrcInv w0 (targetOf w0) T0 a b map1 (sourcesOf w0) C keep
          {| world := setCal w0 (targetOf w0) (T0 ++ C) (nextId w0 + length C);
             _syncInProgress := true; _lastSyncTime := None; trace := [];
             awaited := [] |}
      ∧ (∀ s e, s ∈ sourcesOf w0 → e ∈ calOf w0 s → inWindow a b e →
                eligible e = true → slotKey e ∈ keep).
Proof.
  intros w0.
  destruct (performSync_run _ _ _ Hidle Hrun1) as (stX & Htry & -> & _).
  destruct (performSync_try_steps _ _ _ Htry) as [(e & ? & _)|Hsteps]; [done|].
  destruct Hsteps as (settings & st1' & Hs & Hsteps).
  rewrite cloud_getSettings in Hs. inversion Hs; subst settings st1'; clear Hs.
  cbn zeta in Hsteps. cbn [world set_syncInProgress] in Hsteps.
  fold w0 in Hsteps. fold (configured w0) in Hsteps.
  destruct (_ || _) eqn:Hconf; [by destruct Hsteps|].
  destruct Hsteps as [(e & ? & _)|(events & st2 & Hfetch & Hsteps)]; [done|].
  cloud_clock Hsteps. cloud_clock Hfetch.
  pose proof (λ Hq, cloud_fetch _ _ _ _ _ _ Hq Hfetch) as Hlist.
  destruct (Hlist Hquiet) as [Hw2 Hitems]; clear Hlist.
  destruct (Hitems _ eq_refl) as (a & b & T0 & Ha & Hb & Hcal & ->).
  change (world (afterDate (afterDate _))) with w0 in Hcal, Hw2.
  fold (rangeOf w0) in Ha, Hb, Hsteps, Hfetch. fold (targetOf w0) in *.
  fold (sourcesOf w0) in Hsteps.
  assert (Hrange : rangeOf w0 = (Some a, Some b)).
  { destruct (rangeOf w0); simpl in *; by subst. }
  rewrite Hrange in Hsteps. cbn [fst snd] in Hsteps.
  destruct (keyedEntries _) as [|entries] eqn:Hentries; [by destruct Hsteps|].
  apply keyedEntries_slotKey in Hentries. subst entries.
  destruct Hsteps as [(e & ? & _)|(keep & st3 & Hsrc & Hsteps)]; [done|].
  destruct Hsteps as [(e & ? & _)|(st4 & Hdel & _ & ->)]; [done|].
  set (listed := filter isSynced (filter (inWindow a b) T0)) in *.
  set (map1 := Map_new ((λ ev, (slotKey ev, ev)) <$> listed)) in *.
  assert (Hinv0 : SrcInv w0 (targetOf w0) T0 a b map1 (sourcesOf w0) [] ∅ st2).
  { split_and!.
    - rewrite Hw2, app_nil_r, Nat.add_0_r. symmetry. by apply setCal_id.
    - constructor.
    - intros k Hk. by apply not_elem_of_empty in Hk.
    - intros k Hk. by apply not_elem_of_empty in Hk. }
  destruct (syncSources_loop w0 (targetOf w0) T0 a b map1 (sourcesOf w0) Hquiet Hcal
              _ _ _ _ _ _ Hinv0 (λ s Hs, Hs) Hsrc) as (C & Hinv3 & _ & Hall).
  simpl in Hinv3.
  rewrite deleteObsolete_loop in Hdel.
  pose proof (cloud_deleteLoop w0 (targetOf w0) _ _ _ _ _ Hquiet (proj1 Hinv3) Hdel)
    as Hw4.
  exists T0, a, b, C, keep. do 3 (split; [done|]). cbn zeta.
  fold listed map1. split_and!; try done.
  eapply SrcInv_world; [|exact Hinv3]. simpl. symmetry. apply Hinv3.
Qed.

End FirstRun.

(* --------------------------------------------------------------------- *)
(** ** What the first run leaves for the second                            *)
(* --------------------------------------------------------------------- *)

Lemma NoDup_fmap_eq {A B} (f : A → B) (l : list A) x y :
  NoDup (f <$> l) → x ∈ l → y ∈ l → f x = f y → x = y.
Proof.
  induction l as [|z l IH]; intros Hnd Hx Hy Hf; [by inversion Hx|].
  rewrite fmap_cons in Hnd. apply NoDup_cons in Hnd as [Hz Hnd].
  apply elem_of_cons in Hx as [->|Hx]; apply elem_of_cons in Hy as [->|Hy].
  - done.
  - destruct Hz. rewrite Hf. by apply list_elem_of_fmap_2.
  - destruct Hz. rewrite <- Hf. by apply list_elem_of_fmap_2.
  - by apply IH.
Qed.

Section Handover.
Context (w0 : World) (target : string) (sources : list string)
        (T0 C : list Event) (a b : Z) (keep : gset string).

Local Abbreviation listed1 := (listed1 T0 a b).
Local Abbreviation obsolete1 := (obsolete1 T0 a b keep).
Local Abbreviation after1 := (after1 T0 C a b keep).
Local Abbreviation listed2 := (listed2 T0 C a b keep).
Local Abbreviation world2 := (world2 w0 target T0 C a b keep).

Context (Hcal : calendars w0 !! target = Some T0).
Context (Hids : NoDup (id <$> T0)).
Context (Hfresh : ∀ n, (nextId w0 ≤ n)%nat → freshId n ∉ id <$> T0).
Context (HC : Forall (λ c, (∃ n, (nextId w0 ≤ n)%nat ∧ id c = freshId n)
                           ∧ isSynced c ∧ inWindow a b c
                           ∧ eligible c = true ∧ slotKey c ∈ keep) C).
Context (Hwit : ∀ k, k ∈ keep →
           ∃ s e, s ∈ sources
                  ∧ e ∈ calOf (setCal w0 target (T0 ++ C) (nextId w0 + length C)) s
                  ∧ inWindow a b e ∧ eligible e = true ∧ slotKey e = k).
Context (Horigin : ∀ k, k ∈ keep →
           k ∈ slotKey <$> listed1 ∨ ∃ c, c ∈ C ∧ slotKey c = k).
Context (Hall : ∀ s e, s ∈ sources → e ∈ calOf w0 s → inWindow a b e →
                       eligible e = true → slotKey e ∈ keep).

Lemma created_elem c :
  c ∈ C →
  (∃ n, (nextId w0 ≤ n)%nat ∧ id c = freshId n)
  ∧ isSynced c ∧ inWindow a b c ∧ eligible c = true ∧ slotKey c ∈ keep.
Proof. apply (proj1 (Forall_forall _ _) HC). Qed.

Lemma obsolete1_elem ev :
  ev ∈ obsolete1 ↔ (slotKey ev ∉ keep) ∧ isSynced ev ∧ inWindow a b ev ∧ ev ∈ T0.
Proof. unfold obsolete1, listed1. rewrite !list_elem_of_filter. tauto. Qed.

(** An event of the target that the first run does not delete is still
    there afterwards. *)
Lemma survives ev : ev ∈ T0 ++ C → ev ∉ obsolete1 → ev ∈ after1.
Proof.
  intros Hev Hnot. unfold after1. apply list_elem_of_filter. split; [|done].
  intros Hid. apply list_elem_of_fmap in Hid as (d & Hidd & Hd).
  pose proof Hd as Hd'. apply obsolete1_elem in Hd' as (_ & _ & _ & HdT0).
  apply elem_of_app in Hev as [Hev|Hev].
  - assert (ev = d) by (by eapply NoDup_fmap_eq). by subst.
  - destruct (created_elem _ Hev) as ((n & Hn & Hfr) & _).
    apply (Hfresh n Hn). rewrite <- Hfr, Hidd. by apply list_elem_of_fmap_2.
Qed.

Lemma after1_elem ev : ev ∈ after1 → ev ∈ T0 ++ C.
Proof. unfold after1. rewrite list_elem_of_filter. tauto. Qed.

Lemma listed2_elem ev :
  ev ∈ listed2 ↔ isSynced ev ∧ inWindow a b ev ∧ ev ∈ after1.
Proof. unfold listed2. rewrite !list_elem_of_filter. tauto. Qed.

(** Every kept key is the key of a tagged event of the second listing. *)
Lemma kept_listed2 k : k ∈ keep → k ∈ slotKey <$> listed2.
Proof.
  intros Hk. destruct (Horigin k Hk) as [Hm|(c & Hc & <-)].
  - apply list_elem_of_fmap in Hm as (x & -> & Hx).
    unfold listed1 in Hx. rewrite !list_elem_of_filter in Hx.
    destruct Hx as (Htag & Hwin & HxT0).
    apply list_elem_of_fmap_2, listed2_elem. split_and!; try done.
    apply survives; [apply elem_of_app; by left|].
    rewrite obsolete1_elem. tauto.
  - destruct (created_elem _ Hc) as (_ & Htag & Hwin & _ & Hkc).
    apply list_elem_of_fmap_2, listed2_elem. split_and!; try done.
    apply survives; [apply elem_of_app; by right|].
    rewrite obsolete1_elem. tauto.
Qed.

(** In the second run, every eligible source event has its key in the map. *)
Lemma second_known s e :
  s ∈ sources → e ∈ calOf world2 s → inWindow a b e → eligible e = true →
  slotKey e ∈ slotKey <$> listed2.
Proof.
  intros Hs He Hwin Hel. unfold world2 in He.
  destruct (decide (target = s)) as [<-|Hne].
  - rewrite calOf_setCal_eq in He.
    destruct (decide (isSynced e)) as [Htag|Htag].
    { apply list_elem_of_fmap_2, listed2_elem. by split_and!. }
    apply kept_listed2. apply (Hall target e Hs); [|done..].
    apply after1_elem, elem_of_app in He as [He|He].
    + unfold calOf. by rewrite Hcal.
    + by destruct (created_elem _ He) as (_ & ? & _).
  - rewrite calOf_setCal_ne in He by done.
    apply kept_listed2. by apply (Hall s e).
Qed.

(** In the second run, every key of the map is the key of an eligible
    event that a source calendar holds in the range. *)
Lemma second_kept x :
  x ∈ listed2 →
  ∃ s e, s ∈ sources ∧ e ∈ calOf world2 s ∧ inWindow a b e
         ∧ eligible e = true ∧ slotKey e = slotKey x.
Proof.
  intros Hx. apply listed2_elem in Hx as (Htag & Hwin & Hx).
  assert (Hk : slotKey x ∈ keep).
  { pose proof Hx as Hx'. apply after1_elem, elem_of_app in Hx' as [HxT0|HxC].
    - destruct (decide (slotKey x ∈ keep)) as [|Hnk]; [done|].
      unfold after1 in Hx. apply list_elem_of_filter in Hx as [Hid _].
      destruct Hid. apply list_elem_of_fmap_2, obsolete1_elem. by split_and!.
    - by destruct (created_elem _ HxC) as (_ & _ & _ & _ & ?). }
  destruct (Hwit _ Hk) as (s & e & Hs & He & Hwe & Hel & Hke).
  exists s, e. split_and!; try done. unfold world2.
  destruct (decide (target = s)) as [<-|Hne].
  - rewrite calOf_setCal_eq in He |- *. apply survives; [done|].
    rewrite obsolete1_elem, Hke. tauto.
  - by rewrite calOf_setCal_ne in He |- * by done.
Qed.

End Handover.

(* --------------------------------------------------------------------- *)
(** ** The second run                                                      *)
(* --------------------------------------------------------------------- *)

(** The source phase of a run in which every eligible source event has its
    key in the map: only listings are requested, and the world stays as it
    is. *)
Lemma cloud_sources_known w1 target a b map2 srcs keep (st : State World) r st' :
  quiet w1 → world st = w1 →
  (∀ s e, s ∈ srcs → e ∈ calOf w1 s → inWindow a b e → eligible e = true →
          Map_has map2 (slotKey e) = true) →
  forOf (syncSource target (Some a) (Some b) map2) keep srcs st = (r, st') →
  world st' = w1
  ∧ (∃ new, trace st' = trace st ++ new ∧ Forall readOnly new)
  ∧ ∀ keep', r = Normal keep' →
      keep ⊆ keep'
      ∧ ∀ s e, s ∈ srcs → e ∈ calOf w1 s → inWindow a b e → eligible e = true →
               slotKey e ∈ keep'.
Proof.
  intros Hq. revert keep st.
  induction srcs as [|s srcs IH]; intros keep st Hw Hknown Hrun.
  - inversion Hrun; subst. split; [done|]. split.
    + exists []. by rewrite app_nil_r.
    + intros keep' [= <-]. split; [done|]. intros s e Hs. by inversion Hs.
  - simpl in Hrun.
    assert (Hsource : ∀ r1 st1, syncSource target (Some a) (Some b) map2 keep s st
                                = (r1, st1) →
              world st1 = w1
              ∧ (∃ new, trace st1 = trace st ++ new ∧ Forall readOnly new)
              ∧ r1 ≠ OutOfFuel
              ∧ ∀ keep1, r1 = Normal keep1 →
                  keep ⊆ keep1
                  ∧ ∀ e, e ∈ calOf w1 s → inWindow a b e → eligible e = true →
                         slotKey e ∈ keep1).
    { intros r1 st1 Hsrc. unfold syncSource in Hsrc.
      assert (Hq' : quiet (world st)) by (by rewrite Hw).
      apply bind_inv in Hsrc as [(items & st0 & Hfetch & Hloop)
                                |[(e' & Hfetch & ->)|[Hfetch ->]]];
        destruct (cloud_fetch _ _ _ _ _ _ Hq' Hfetch) as [Hw0 Hitems];
        destruct (fetchEvents_readOnly _ _ _ _ _ _ _ Hfetch)
          as (Hfuel & new & (_ & _ & Ht) & HP); [| |done].
      2: { split; [congruence|]. split; [eauto|]. split; [done|]. by intros. }
      destruct (Hitems _ eq_refl) as (a' & b' & evs & [= <-] & [= <-] & Hcal & ->).
      assert (Hevs : calOf w1 s = evs) by (unfold calOf; by rewrite <- Hw, Hcal).
      destruct (syncEvents_known target map2 (filter (inWindow a b) evs) keep st0)
        as (keep1' & Hloop' & Hsub & Hkeys).
      { intros e He. apply list_elem_of_filter in He as [Hwin He].
        apply (Hknown s e); [by left|by rewrite Hevs|done..]. }
      rewrite Hloop in Hloop'. inversion Hloop'; subst r1 st1; clear Hloop'.
      split; [congruence|]. split; [eauto|]. split; [done|].
      intros keep1 [= <-]. split; [done|]. intros e He Hwin Hel.
      apply Hkeys; [|done]. apply list_elem_of_filter. by rewrite <- Hevs. }
    apply bind_inv in Hrun as [(keep1 & st1 & Hsrc & Hrun)|[(e & Hsrc & ->)|[Hsrc ->]]];
      destruct (Hsource _ _ Hsrc) as (Hw1 & (n0 & Ht0 & HP0) & Hfuel & Hkeep1);
      [| |done].
    + destruct (Hkeep1 _ eq_refl) as [Hsub1 Hkeys1].
      destruct (IH keep1 st1 Hw1) with (2 := Hrun) as (Hw' & (n1 & Ht1 & HP1) & Hkeep).
      { intros s' e Hs'. apply Hknown. by right. }
      split; [done|]. split.
      * exists (n0 ++ n1). split; [by rewrite Ht1, Ht0, app_assoc|by apply Forall_app].
      * intros keep' ->. destruct (Hkeep _ eq_refl) as [Hsub2 Hkeys2].
        split; [by etrans|]. intros s' e Hs' He Hwin Hel.
        apply elem_of_cons in Hs' as [->|Hs']; [|by eapply Hkeys2].
        by apply Hsub2, Hkeys1.
    + split; [done|]. split; [eauto|]. by intros.
Qed.

Lemma listed1_NoDup T0 a b :
  NoDup (slotKey <$> filter isSynced T0) → NoDup (slotKey <$> listed1 T0 a b).
Proof.
  intros Hnd. unfold listed1.
  rewrite list_filter_filter.
  rewrite (list_filter_iff _ (λ ev, inWindow a b ev ∧ isSynced ev)) by (intros; tauto).
  rewrite <- list_filter_filter.
  eapply sublist_NoDup; [exact Hnd|]. apply fmap_sublist, sublist_filter.
Qed.

Lemma filter_inWindow_same (evs : list Event) a b a2 b2 :
  (∀ ev, ev ∈ evs → inWindow a b ev ↔ inWindow a2 b2 ev) →
  filter (inWindow a2 b2) evs = filter (inWindow a b) evs.
Proof.
  induction evs as [|ev evs IH]; intros Hsame; [done|].
  assert (Hev : inWindow a b ev ↔ inWindow a2 b2 ev) by (apply Hsame; by left).
  assert (Hrest : filter (inWindow a2 b2) evs = filter (inWindow a b) evs).
  { apply IH. intros x Hx. apply Hsame. by right. }
  destruct (decide (inWindow a b ev)) as [Hin|Hout].
  - rewrite !filter_cons_True by tauto. by f_equal.
  - rewrite !filter_cons_False by tauto. done.
Qed.

(** C5, as amended. On a provider that stores what is posted, answers
    every request itself and lists in one page, whose target calendar holds
    no two tagged events with the same slot-key: when a sync run has
    returned normally and a second run is made any time later (or earlier,
    by the clock) on the calendars and settings the first one left, and no
    event of the target or of a source calendar is inside the range of one
    of the two runs and outside the range of the other, the second run makes
    no create request and no delete request. *)
Theorem second_run_quiescent (st0 st1 : State World) (elapsed : Z) r2
    (st2 : State World) :
  quiet (world st0) → providerIds (world st0) → distinctSlots (world st0) →
  performSync st0 = (Normal (), st1) →
  sameEventsInRange (world st1)
    (rangeOf (world st0)) (rangeOf (later elapsed (world st1))) →
  performSync (wait elapsed st1) = (r2, st2) →
  creates (issued st1 st2) = [] ∧ deletes (issued st1 st2) = [].
Proof.
  intros Hq Hids Hslots Hrun1 Hsame Hrun2.
  change (issued st1 st2) with (issued (wait elapsed st1) st2).
  destruct (_syncInProgress st0) eqn:Hlatch.
  { unfold performSync in Hrun1. rewrite Hlatch in Hrun1. inversion Hrun1; subst st1.
    unfold performSync in Hrun2. cbn [wait _syncInProgress] in Hrun2.
    rewrite Hlatch in Hrun2. inversion Hrun2; subst.
    rewrite (issued_app _ _ []) by (by rewrite app_nil_r). done. }
  destruct (first_run_summary st0 st1 Hq Hlatch Hrun1)
    as (T0 & a & b & C & keep & Hcal & Hrange & Hconf & Hrest).
  cbn zeta in Hrest. destruct Hrest as (Hw1 & Hidle1 & Hinv & Hall).
  destruct (Hids _ Hcal) as [Hnd Hfresh]. specialize (Hslots _ Hcal).
  set (w0 := world st0) in *. set (target := targetOf w0) in *.
  fold (listed1 T0 a b) in Hw1, Hinv.
  assert (Hmap1 : Map_new ((λ ev, (slotKey ev, ev)) <$> listed1 T0 a b)
                  = (λ ev, (slotKey ev, ev)) <$> listed1 T0 a b).
  { apply Map_new_NoDup. rewrite slotKey_keys. by apply listed1_NoDup. }
  rewrite Hmap1 in Hw1, Hinv. rewrite obsolete_values in Hw1.
  fold (obsolete1 T0 a b keep) in Hw1. fold (after1 T0 C a b keep) in Hw1.
  fold (world2 w0 target T0 C a b keep) in Hw1.
  destruct Hinv as (_ & HC & Hwit & Horigin). cbn [world] in Hwit.
  assert (Horigin' : ∀ k, k ∈ keep →
            k ∈ slotKey <$> listed1 T0 a b ∨ ∃ c, c ∈ C ∧ slotKey c = k).
  { intros k Hk. destruct (Horigin k Hk) as [Hm|?]; [left|by right].
    apply Map_has_elem in Hm. by rewrite slotKey_keys in Hm. }
  pose proof (second_known w0 target (sourcesOf w0) T0 C a b keep
                Hcal Hnd Hfresh HC Horigin' Hall) as Hknown.
  pose proof (second_kept w0 target (sourcesOf w0) T0 C a b keep
                Hnd Hfresh HC Hwit) as Hkept.
  (* the second run *)
  set (w2 := later elapsed (world2 w0 target T0 C a b keep)).
  assert (Hidle2 : _syncInProgress (wait elapsed st1) = false) by done.
  destruct (performSync_run _ _ _ Hidle2 Hrun2) as (stX & Htry & -> & _).
  change (issued (wait elapsed st1) (set_syncInProgress false stX))
    with (issued st1 stX).
  enough (∃ new, trace stX = trace st1 ++ new ∧ Forall readOnly new)
    as (new & Ht & HP).
  { rewrite (issued_app _ _ _ Ht). by apply readOnly_trace. }
  destruct (performSync_try_steps _ _ _ Htry) as [(e & _ & Hs)|Hsteps].
  { by rewrite cloud_getSettings in Hs. }
  destruct Hsteps as (settings & st1' & Hs & Hsteps).
  rewrite cloud_getSettings in Hs. inversion Hs; subst settings st1'; clear Hs.
  cbn zeta in Hsteps. cbn [world set_syncInProgress wait] in Hsteps.
  rewrite Hw1 in Hsteps, Hsame. fold w2 in Hsteps, Hsame.
  cloud_clock Hsteps.
  change (default defaultSettings (stored (world2 w0 target T0 C a b keep)))
    with (configured w0) in Hsteps.
  change (syncRange (clock w2) (clock w2) (weeksAhead (configured w0)))
    with (rangeOf w2) in Hsteps.
  fold (targetOf w0) in Hsteps. fold target in Hsteps.
  fold (sourcesOf w0) in Hsteps.
  rewrite Hconf in Hsteps.
  assert (Hq2 : quiet w2) by (by apply quiet_setCal).
  destruct Hsteps as [(e & _ & Hfetch)|(events & st2' & Hfetch & Hsteps)].
  { destruct (fetchEvents_readOnly _ _ _ _ _ _ _ Hfetch) as (_ & new & (_ & _ & Ht) & HP).
    eauto. }
  destruct (fetchEvents_readOnly _ _ _ _ _ _ _ Hfetch) as (_ & n0 & (_ & _ & Ht0) & HP0).
  cbn [trace set_syncInProgress afterDate wait] in Ht0.
  pose proof (λ Hq', cloud_fetch _ _ _ _ _ _ Hq' Hfetch) as Hlist.
  destruct (Hlist Hq2) as [Hw2 Hitems]; clear Hlist.
  destruct (Hitems _ eq_refl) as (a2 & b2 & T1 & Ha2 & Hb2 & Hcal1 & ->).
  change (world (afterDate (afterDate _))) with w2 in Hw2, Hcal1.
  assert (Hrange2 : rangeOf w2 = (Some a2, Some b2)).
  { destruct (rangeOf w2); simpl in *; by subst. }
  rewrite Hrange2 in Hsteps. cbn [fst snd] in Hsteps.
  unfold w2, world2 in Hcal1. cbn [calendars setCal later] in Hcal1.
  rewrite lookup_insert_eq in Hcal1. inversion Hcal1; subst T1; clear Hcal1.
  (* no event has moved in or out of the range *)
  assert (Hwin : ∀ c ev, c ∈ target :: sourcesOf w0 →
            ev ∈ calOf (world2 w0 target T0 C a b keep) c →
            inWindow a b ev ↔ inWindow a2 b2 ev).
  { intros c ev Hc Hev. by apply (Hsame a b a2 b2 Hrange Hrange2 c ev). }
  assert (Hsame2 : filter (inWindow a2 b2) (after1 T0 C a b keep)
                   = filter (inWindow a b) (after1 T0 C a b keep)).
  { apply filter_inWindow_same. intros ev Hev.
    apply (Hwin target); [by left|]. unfold world2. by rewrite calOf_setCal_eq. }
  rewrite Hsame2 in Hsteps.
  fold (listed2 T0 C a b keep) in Hsteps.
  destruct (keyedEntries _) as [|entries] eqn:Hentries.
  { destruct Hsteps as [_ ->]. eauto. }
  apply keyedEntries_slotKey in Hentries. subst entries.
  set (map2 := Map_new ((λ ev, (slotKey ev, ev)) <$> listed2 T0 C a b keep)) in *.
  assert (Hhas : ∀ s e, s ∈ sourcesOf w0 →
            e ∈ calOf w2 s → inWindow a2 b2 e →
            eligible e = true → Map_has map2 (slotKey e) = true).
  { intros s e Hs He Hwe Hel. apply Map_has_elem. unfold map2.
    rewrite Map_new_keys, slotKey_keys. eapply Hknown; [exact Hs|exact He| |done].
    apply (Hwin s); [by right|done|done]. }
  assert (Hsources : ∀ r3 st3,
            forOf (syncSource target (Some a2) (Some b2) map2) ∅ (sourcesOf w0) st2'
            = (r3, st3) →
            world st3 = w2
            ∧ (∃ new, trace st3 = trace st1 ++ new ∧ Forall readOnly new)
            ∧ ∀ keep2, r3 = Normal keep2 →
                ∀ kv, kv ∈ map2 → kv.1 ∈ keep2).
  { intros r3 st3 Hsrc.
    destruct (cloud_sources_known _ _ _ _ _ _ _ _ _ _ Hq2 Hw2 Hhas Hsrc)
      as (Hw3 & (n1 & Ht1 & HP1) & Hkeep2).
    split; [done|]. split.
    { exists (n0 ++ n1). split; [by rewrite Ht1, Ht0, app_assoc|by apply Forall_app]. }
    intros keep2 ->. destruct (Hkeep2 _ eq_refl) as [_ Hkeys].
    intros [k x] Hkv. simpl.
    assert (Hk : k ∈ map2.*1) by (apply list_elem_of_fmap; by exists (k, x)).
    unfold map2 in Hk. rewrite Map_new_keys, slotKey_keys in Hk.
    apply list_elem_of_fmap in Hk as (x' & -> & Hx').
    destruct (Hkept _ Hx') as (s & e & Hs & He & Hwe & Hel & <-).
    eapply Hkeys; [exact Hs|exact He| |done].
    apply (Hwin s); [by right|done|done]. }
  destruct Hsteps as [(e & _ & Hsrc)|(keep2 & st3 & Hsrc & Hsteps)].
  { by destruct (Hsources _ _ Hsrc) as (_ & ? & _). }
  destruct (Hsources _ _ Hsrc) as (Hw3 & (n1 & Ht1 & HP1) & Hall2).
  specialize (Hall2 _ eq_refl).
  rewrite deleteObsolete_none in Hsteps by done.
  destruct Hsteps as [(e & _ & ?)|(st4 & Hdel & _ & ->)]; [done|].
  inversion Hdel; subst st4. eauto.
Qed.

End OnCloud.

(* ===================================================================== *)
(** * Two runs in a row                                                   *)
(* ===================================================================== *)

(** Witness for C5 (amended): the specification's scenario (a stale tagged
    event, a new source event), run twice, the second time an hour later. *)
Lemma second_run_quiescent_witness :
  let st1 := (performSync (PF := Scenario.eastern) Scenario.staleAndNew).2 in
  let run2 := performSync (PF := Scenario.eastern) (Cloud.wait 3600000 st1) in
  creates (issued st1 run2.2) = [] ∧ deletes (issued st1 run2.2) = [].
Proof.
  intros st1 run2.
  apply (second_run_quiescent (JsDate.fixedOffset (-240)) Scenario.staleAndNew st1
           3600000 run2.1 run2.2).
  - split; reflexivity.
  - intros T0 H. vm_compute in H. inversion H; subst T0; clear H. split.
    + apply (bool_decide_unpack _). vm_compute. reflexivity.
    + intros n _ Hin.
      repeat (apply elem_of_cons in Hin as [Heq|Hin]; [by inversion Heq|]).
      by inversion Hin.
  - intros T0 H. vm_compute in H. inversion H; subst T0; clear H.
    apply (bool_decide_unpack _). vm_compute. reflexivity.
  - vm_compute. reflexivity.
  - intros a1 b1 a2 b2 H1 H2 c ev Hc Hev.
    vm_compute in H1. inversion H1; subst a1 b1; clear H1.
    vm_compute in H2. inversion H2; subst a2 b2; clear H2.
    assert (Hall : Forall (λ c, Forall (λ ev,
                       Cloud.inWindow 1716638400000 1719662400000 ev
                       ↔ Cloud.inWindow 1716642000000 1719666000000 ev)
                     (calOf (world st1) c)) (involved (world st1))).
    { apply (bool_decide_unpack _). vm_compute. reflexivity. }
    rewrite Forall_forall in Hall. specialize (Hall c Hc).
    rewrite Forall_forall in Hall. by apply Hall.
  - apply surjective_pairing.
Defined.

(** The first of these two runs deletes the stale event and creates one for
    the new slot, leaving the untagged meeting alone. *)
Example stale_and_new_first_run :
  let run := performSync (PF := Scenario.eastern) Scenario.staleAndNew in
  run.1 = Normal ()
  ∧ deletes (trace run.2) = [DELETE_events "work" "old1"]
  ∧ length (creates (trace run.2)) = 1%nat
  ∧ (λ ev, (id ev, syncedEvent ev, slotKey ev)) <$> Cloud.eventsOf run.2 "work"
    = [("mtg", None, "2024-06-03T14:00:00-04:00_2024-06-03T14:30:00-04:00");
       ("evt0", Some "true", "2024-06-03T14:00:00-04:00_2024-06-03T14:30:00-04:00")].
Proof. by vm_compute. Qed.

(** Counterexample to C5 as stated: a source event starts one hour after
    the end of the range of a run made at noon.  That run requests nothing
    but listings.  Two hours later, with every calendar as it was, the range
    has moved with the clock, the event is inside it, and the second run
    makes a create request. *)
Lemma second_run_creates_after_clock_moves :
  let run1 := performSync (PF := Scenario.utc) Scenario.atEdge in
  let st1 := Cloud.wait 7200000 run1.2 in
  let run2 := performSync (PF := Scenario.utc) st1 in
  run1.1 = Normal ()
  ∧ creates (trace run1.2) = [] ∧ deletes (trace run1.2) = []
  ∧ Cloud.calendars (world st1) = Cloud.calendars (world Scenario.atEdge)
  ∧ run2.1 = Normal ()
  ∧ length (creates (issued st1 run2.2)) = 1%nat
  ∧ creates (issued st1 run2.2) ≠ [].
Proof. vm_compute. split_and!; done. Qed.

(** Next to it, what the code does on a target that holds two tagged events
    for one slot which no source has any more: the map keeps one entry per
    key, so the first run deletes one of the two and the second run the
    other. *)
Example duplicate_slot_deleted_over_two_runs :
  let run1 := performSync (PF := Scenario.eastern) Scenario.twoStale in
  let run2 := performSync (PF := Scenario.eastern) run1.2 in
  run1.1 = Normal ()
  ∧ deletes (trace run1.2) = [DELETE_events "work" "evt1"]
  ∧ run2.1 = Normal ()
  ∧ deletes (issued run1.2 run2.2) = [DELETE_events "work" "evt0"].
Proof. by vm_compute. Qed.

(* ===================================================================== *)
(** * The authentication layer                                            *)
(* ===================================================================== *)

Section AuthFacts.
Context {W : Type} {BR : Browser W}.
Context {Rq Rs : Type} (send : Rq → string → IO W Rs) (statusOf : Rs → Z).

(** [makeAuthenticatedRequest], case by case. *)
Lemma auth_cases (url : Rq) (w : W) :
  Auth.makeAuthenticatedRequest send statusOf url w
  = match chrome_identity_getAuthToken false w with
    | (inl lastError, w1) =>
        (inl (Error (if bool_decide (lastError = "OAuth2 not granted or revoked.")
                     then Auth.USER_REJECTED else Auth.TOKEN_FAILED)), w1)
    | (inr token, w1) =>
        match send url token w1 with
        | (inl e, w2) => (inl e, w2)
        | (inr response, w2) =>
            if bool_decide (statusOf response = 401) then
              match chrome_identity_getAuthToken true
                      (chrome_identity_removeCachedAuthToken token w2) with
              | (inr newToken, w4) => send url newToken w4
              | (inl _, w4) => (inl (Error Auth.REFRESH_FAILED), w4)
              end
            else (inr response, w2)
        end
    end.
Proof.
  unfold Auth.makeAuthenticatedRequest, Auth.try_catch, Auth.bind, Auth.getToken.
  destruct (chrome_identity_getAuthToken false w) as [[lastError|token] w1]; [done|].
  destruct (send url token w1) as [[e|response] w2]; [done|].
  case_bool_decide; [|done].
  unfold Auth.refreshToken, Auth.try_catch, Auth.bind, Auth.removeToken, Auth.getToken.
  destruct (chrome_identity_getAuthToken true _) as [[msg|newToken] w4]; [done|].
  by destruct (send url newToken w4) as [[e|r] w5].
Qed.

(** X1. When no token can be had without asking the user,
    [makeAuthenticatedRequest] fails with [USER_REJECTED] (the browser's
    message is "OAuth2 not granted or revoked.") or [TOKEN_FAILED] (any
    other message), in the world the token request left: whatever the
    network is, nothing is sent, and no token is asked for interactively. *)
Theorem auth_no_token_no_request (url : Rq) (w w' : W) (lastError : string) :
  chrome_identity_getAuthToken false w = (inl lastError, w') →
  Auth.makeAuthenticatedRequest send statusOf url w
  = (inl (Error (if bool_decide (lastError = "OAuth2 not granted or revoked.")
                 then Auth.USER_REJECTED else Auth.TOKEN_FAILED)), w').
Proof. intros Htok. by rewrite auth_cases, Htok. Qed.

(** X2. With a token, the outcome of the first [fetch] is the outcome of
    the call unless it is an answer with status 401: a rejection of
    [fetch] and every other status (403, 404, 500, ...) are handed to the
    caller as they are, and the token is left in the cache. *)
Theorem auth_passes_answer_through (url : Rq) (w w1 w2 : W) (token : string)
    (o : Exn + Rs) :
  chrome_identity_getAuthToken false w = (inr token, w1) →
  send url token w1 = (o, w2) →
  (∀ response, o = inr response → statusOf response ≠ 401) →
  Auth.makeAuthenticatedRequest send statusOf url w = (o, w2).
Proof.
  intros Htok Hsend Hstatus. rewrite auth_cases, Htok, Hsend.
  destruct o as [e|response]; [done|].
  by rewrite bool_decide_false by (by apply Hstatus).
Qed.

(** X3. On an answer with status 401 the token used is removed from the
    cache and a token is asked for interactively.  If that fails, the call
    fails with [REFRESH_FAILED]; otherwise the request is sent once more
    with the new token, and the outcome of this second [fetch] is the
    outcome of the call, whatever it is (a second 401 included): there is
    no third attempt. *)
Theorem auth_retries_once_on_401 (url : Rq) (w w1 w2 : W) (token : string)
    (response : Rs) :
  chrome_identity_getAuthToken false w = (inr token, w1) →
  send url token w1 = (inr response, w2) →
  statusOf response = 401 →
  Auth.makeAuthenticatedRequest send statusOf url w
  = match chrome_identity_getAuthToken true
            (chrome_identity_removeCachedAuthToken token w2) with
    | (inr newToken, w4) => send url newToken w4
    | (inl _, w4) => (inl (Error Auth.REFRESH_FAILED), w4)
    end.
Proof.
  intros Htok Hsend Hstatus. rewrite auth_cases, Htok, Hsend.
  by rewrite bool_decide_true by done.
Qed.

End AuthFacts.

(** Witness for X1: a signed-out browser. *)
Lemma auth_no_token_no_request_witness :
  let w := Session.signedOut (Scenario.cloud []) in
  makeAuthenticatedRequest (Platform := Session.platform)
    (DELETE_events "work" "x") w
  = (inl (Error Auth.TOKEN_FAILED), w).
Proof.
  intros w.
  apply (auth_no_token_no_request (BR := Session.eastern)
           (fetch (Browser := Session.eastern)) status
           (DELETE_events "work" "x") w w "The user is not signed in.").
  reflexivity.
Defined.

(** Witness for X2: the provider answers 404 to a signed-in browser, and
    the caller gets the 404. *)
Lemma auth_passes_answer_through_witness :
  let w := Session.signedIn (Scenario.cloud []) in
  (makeAuthenticatedRequest (Platform := Session.platform)
     (DELETE_events "work" "x") w).1
  = inr Cloud.notFound.
Proof.
  intros w.
  change (makeAuthenticatedRequest _ w)
    with (Auth.makeAuthenticatedRequest (BR := Session.eastern)
            (fetch (Browser := Session.eastern)) status
            (DELETE_events "work" "x") w).
  rewrite (auth_passes_answer_through (BR := Session.eastern)
             (fetch (Browser := Session.eastern)) status
             (DELETE_events "work" "x") w w
             (Chromium.send (DELETE_events "work" "x") "token0" w).2
             "token0" (inr Cloud.notFound)).
  - reflexivity.
  - reflexivity.
  - reflexivity.
  - intros response [= <-]. vm_compute. discriminate.
Defined.

(** Witness for X3: the cached token has expired.  With the user's consent
    the request is sent a second time; without it the call fails. *)
Lemma auth_retries_once_on_401_witness :
  (let w := Session.expired (Scenario.cloud []) in
   let r := makeAuthenticatedRequest (Platform := Session.platform)
              (DELETE_events "work" "x") w in
   r.1 = inr Cloud.notFound
   ∧ Chromium.sent r.2 = [(Some (DELETE_events "work" "x"), "token0");
                          (Some (DELETE_events "work" "x"), "token1")])
  ∧ (let w := Session.revoked (Scenario.cloud []) in
     let r := makeAuthenticatedRequest (Platform := Session.platform)
                (DELETE_events "work" "x") w in
     r.1 = inl (Error Auth.REFRESH_FAILED)
     ∧ Chromium.sent r.2 = [(Some (DELETE_events "work" "x"), "token0")]).
Proof.
  split.
  - intros w r. unfold r.
    change (makeAuthenticatedRequest _ w)
      with (Auth.makeAuthenticatedRequest (BR := Session.eastern)
              (fetch (Browser := Session.eastern)) status
              (DELETE_events "work" "x") w).
    rewrite (auth_retries_once_on_401 (BR := Session.eastern)
               (fetch (Browser := Session.eastern)) status
               (DELETE_events "work" "x") w w
               (Chromium.send (DELETE_events "work" "x") "token0" w).2
               "token0" Chromium.unauthorized); [|reflexivity..].
    vm_compute. by split.
  - intros w r. unfold r.
    change (makeAuthenticatedRequest _ w)
      with (Auth.makeAuthenticatedRequest (BR := Session.eastern)
              (fetch (Browser := Session.eastern)) status
              (DELETE_events "work" "x") w).
    rewrite (auth_retries_once_on_401 (BR := Session.eastern)
               (fetch (Browser := Session.eastern)) status
               (DELETE_events "work" "x") w w
               (Chromium.send (DELETE_events "work" "x") "token0" w).2
               "token0" Chromium.unauthorized); [|reflexivity..].
    vm_compute. by split.
Defined.

(* ===================================================================== *)
(** * The browser-level operations inside the methods                     *)
(* ===================================================================== *)

Section Lifting.
Context {W : Type} {BR : Browser W}.

#[local] Existing Instance platformOf.

Lemma liftIO_inv {A} (io : IO W A) st r st' :
  liftIO io st = (r, st') →
  ∃ o, io (world st) = (o, world st')
       ∧ calls st [] st'
       ∧ r = match o with inl e => Throw e | inr a => Normal a end.
Proof.
  unfold liftIO. destruct (io (world st)) as [o w'] eqn:Hio. intros Heq.
  exists o. unfold calls.
  destruct o; inversion Heq; subst; simpl; rewrite app_nil_r; by split_and!.
Qed.

Lemma Issues_liftIO {A} P (io : IO W A) : Issues P (liftIO io).
Proof.
  intros st r st' Hrun. destruct (liftIO_inv _ _ _ _ Hrun) as (o & _ & Hc & ->).
  split; [by destruct o|]. exists []. split; [done|constructor].
Qed.

Lemma Issues_callIO {A} P (io : IO W A) : Issues P (callIO io).
Proof.
  intros st r st' Hrun. unfold callIO in Hrun.
  destruct (io (world st)) as [[e|a] w']; inversion Hrun; subst;
    (split; [done|]); exists []; (split; [|constructor]);
    unfold calls; simpl; rewrite app_nil_r; by split_and!.
Qed.

Lemma Issues_gets {A} P (f : State W → A) : Issues P (gets f).
Proof.
  intros st r st' Heq. inversion Heq; subst.
  split; [done|]. exists []. split; [apply calls_refl | constructor].
Qed.

End Lifting.

(* ===================================================================== *)
(** * Runs that stop before the first listing                             *)
(* ===================================================================== *)

Section EarlyExits.
Context {W : Type} {PF : Platform W}.

(** Reading the settings, whatever is stored. *)
Lemma getSettings_stored (st : State W) stored w1 :
  chrome_storage_get (world st) = (inr stored, w1) →
  getSettings st
  = (Normal (default defaultSettings stored),
     {| world := w1; _syncInProgress := _syncInProgress st;
        _lastSyncTime := _lastSyncTime st; trace := trace st;
        awaited := awaited st ++ [_syncInProgress st] |}).
Proof.
  intros Hget. unfold getSettings, try_catch, mbind, M_bind, storage_get.
  by rewrite Hget.
Qed.

(** A run up to its first listing: it stops on settings that are not
    configured; otherwise it reads the clock twice, and ends as the listing
    of the target ends when that throws. *)
Lemma performSync_upto_listing (st : State W) stored w1 :
  _syncInProgress st = false →
  chrome_storage_get (world st) = (inr stored, w1) →
  let settings := default defaultSettings stored in
  let st1 := {| world := w1; _syncInProgress := true;
                _lastSyncTime := _lastSyncTime st; trace := trace st;
                awaited := awaited st ++ [true] |} in
  let target := trim (default "" (targetCalendar settings)) in
  let range := syncRange (nowAt st1) (nowAt (afterDate st1)) (weeksAhead settings) in
  if negb (truthy (targetCalendar settings))
     || bool_decide (default [] (sourceCalendars settings) = [])
  then performSync st
       = (Throw (Error "Sync settings not configured"), set_syncInProgress false st1)
  else ∀ e st2,
         fetchEvents target range.1 range.2 None (afterDate (afterDate st1))
         = (Throw e, st2) →
         performSync st = (Throw e, set_syncInProgress false st2).
Proof.
  intros Hidle Hget settings st1 target range.
  assert (Hs : getSettings (set_syncInProgress true st) = (Normal settings, st1)).
  { by rewrite (getSettings_stored _ stored w1). }
  assert (Hstart : ∀ k : Settings → M W unit,
            (modify (set_syncInProgress true);; settings ← getSettings; k settings) st
            = k settings st1).
  { intros k. unfold mbind, M_bind, modify. by rewrite Hs. }
  unfold performSync. rewrite Hidle.
  unfold try_finally, try_catch, performSync_try. rewrite Hstart.
  destruct (_ || _); [done|].
  intros e st2 Hfetch. unfold mbind at 1, M_bind at 1, newDate.
  unfold mbind at 1, M_bind at 1.
  fold range. destruct range as [startTime endTime].
  fold target. unfold mbind at 1, M_bind at 1. cbn [fst snd] in Hfetch.
  by rewrite Hfetch.
Qed.

(** X4. A run started with the latch free on settings without a target
    calendar or without a source calendar (nothing stored among them: the
    defaults have neither) throws "Sync settings not configured" without
    any request, with the latch released and the last-sync time kept. *)
Theorem performSync_not_configured (st : State W) stored w1 :
  _syncInProgress st = false →
  chrome_storage_get (world st) = (inr stored, w1) →
  truthy (targetCalendar (default defaultSettings stored)) = false
  ∨ default [] (sourceCalendars (default defaultSettings stored)) = [] →
  performSync st
  = (Throw (Error "Sync settings not configured"),
     {| world := w1; _syncInProgress := false;
        _lastSyncTime := _lastSyncTime st; trace := trace st;
        awaited := awaited st ++ [true] |}).
Proof.
  intros Hidle Hget Hconf.
  pose proof (performSync_upto_listing st stored w1 Hidle Hget) as Hrun.
  cbn zeta in Hrun.
  destruct Hconf as [Ht|Hs].
  - by rewrite Ht in Hrun.
  - rewrite Hs, bool_decide_true, orb_true_r in Hrun by done. done.
Qed.

(** X5. A run on settings whose [weeksAhead] is [undefined] or [NaN] (with
    a target and sources configured) computes an Invalid Date as the end of
    its range; the listing of the target throws the [RangeError] of
    [toISOString()] before any request is made, and the run ends with it,
    having read the settings and, twice, the clock. *)
Theorem performSync_weeksAhead_not_a_number (st : State W) settings w1
    now1 w2 now2 w3 :
  _syncInProgress st = false →
  chrome_storage_get (world st) = (inr (Some settings), w1) →
  truthy (targetCalendar settings) = true →
  default [] (sourceCalendars settings) ≠ [] →
  trim (default "" (targetCalendar settings)) ≠ "" →
  weeksAhead settings = None →
  Date_now w1 = (now1, w2) → Date_now w2 = (now2, w3) →
  performSync st
  = (Throw (RangeError "Invalid time value"),
     {| world := w3; _syncInProgress := false;
        _lastSyncTime := _lastSyncTime st; trace := trace st;
        awaited := awaited st ++ [true] |}).
Proof.
  intros Hidle Hget Ht Hs Htrim Hweeks Hnow1 Hnow2.
  pose proof (performSync_upto_listing st (Some settings) w1 Hidle Hget) as Hrun.
  cbn zeta in Hrun.
  change (default defaultSettings (Some settings)) with settings in Hrun.
  rewrite Ht, bool_decide_false in Hrun by done. cbn [negb orb] in Hrun.
  erewrite Hrun.
  2: { rewrite Hweeks. unfold fetchEvents. rewrite bool_decide_false by done.
       rewrite syncRange_NaN. by destruct (syncRange _ _ _).1. }
  unfold afterDate, set_syncInProgress. cbn [world]. rewrite Hnow1. cbn [snd].
  by rewrite Hnow2.
Qed.

(** X6. A target calendar id made of white space passes the test for
    configured settings, is trimmed to the empty string, and makes the
    first listing throw "Calendar ID is required": the run ends with that
    error, unprefixed, and no request is made. *)
Theorem performSync_blank_target (st : State W) settings w1 now1 w2 now2 w3 :
  _syncInProgress st = false →
  chrome_storage_get (world st) = (inr (Some settings), w1) →
  truthy (targetCalendar settings) = true →
  default [] (sourceCalendars settings) ≠ [] →
  trim (default "" (targetCalendar settings)) = "" →
  Date_now w1 = (now1, w2) → Date_now w2 = (now2, w3) →
  performSync st
  = (Throw (Error "Calendar ID is required"),
     {| world := w3; _syncInProgress := false;
        _lastSyncTime := _lastSyncTime st; trace := trace st;
        awaited := awaited st ++ [true] |}).
Proof.
  intros Hidle Hget Ht Hs Htrim Hnow1 Hnow2.
  pose proof (performSync_upto_listing st (Some settings) w1 Hidle Hget) as Hrun.
  cbn zeta in Hrun.
  change (default defaultSettings (Some settings)) with settings in Hrun.
  rewrite Ht, bool_decide_false in Hrun by done. cbn [negb orb] in Hrun.
  erewrite Hrun.
  2: { rewrite Htrim. unfold fetchEvents. by rewrite bool_decide_true. }
  unfold afterDate, set_syncInProgress. cbn [world]. rewrite Hnow1. cbn [snd].
  by rewrite Hnow2.
Qed.

End EarlyExits.

(** Witness for X4: nothing is stored. *)
Lemma performSync_not_configured_witness :
  performSync (PF := Scenario.eastern) (Cloud.init (Session.withSettings None))
  = (Throw (Error "Sync settings not configured"),
     {| world := Session.withSettings None; _syncInProgress := false;
        _lastSyncTime := None; trace := []; awaited := [true] |}).
Proof.
  apply (performSync_not_configured (PF := Scenario.eastern)
           (Cloud.init (Session.withSettings None)) None (Session.withSettings None)).
  - reflexivity.
  - reflexivity.
  - by left.
Defined.

(** Witness for X5: settings stored without [weeksAhead]. *)
Lemma performSync_weeksAhead_not_a_number_witness :
  performSync (PF := Scenario.eastern)
    (Cloud.init (Session.withSettings (Some Session.noWeeks)))
  = (Throw (RangeError "Invalid time value"),
     {| world := Session.withSettings (Some Session.noWeeks);
        _syncInProgress := false; _lastSyncTime := None; trace := [];
        awaited := [true] |}).
Proof.
  apply (performSync_weeksAhead_not_a_number (PF := Scenario.eastern)
           (Cloud.init (Session.withSettings (Some Session.noWeeks)))
           Session.noWeeks (Session.withSettings (Some Session.noWeeks))
           Scenario.noon (Session.withSettings (Some Session.noWeeks))
           Scenario.noon (Session.withSettings (Some Session.noWeeks))).
  - reflexivity.
  - reflexivity.
  - reflexivity.
  - discriminate.
  - discriminate.
  - reflexivity.
  - reflexivity.
  - reflexivity.
Defined.

(** Witness for X6: the stored target id is one space. *)
Lemma performSync_blank_target_witness :
  performSync (PF := Scenario.eastern)
    (Cloud.init (Session.withSettings (Some Session.blankTarget)))
  = (Throw (Error "Calendar ID is required"),
     {| world := Session.withSettings (Some Session.blankTarget);
        _syncInProgress := false; _lastSyncTime := None; trace := [];
        awaited := [true] |}).
Proof.
  apply (performSync_blank_target (PF := Scenario.eastern)
           (Cloud.init (Session.withSettings (Some Session.blankTarget)))
           Session.blankTarget (Session.withSettings (Some Session.blankTarget))
           Scenario.noon (Session.withSettings (Some Session.blankTarget))
           Scenario.noon (Session.withSettings (Some Session.blankTarget))).
  - reflexivity.
  - reflexivity.
  - reflexivity.
  - discriminate.
  - reflexivity.
  - reflexivity.
  - reflexivity.
Defined.

(* ===================================================================== *)
(** * The services behind the authentication layer                        *)
(* ===================================================================== *)

Section Stack.
Context {W : Type} {BR : Browser W}.

#[local] Existing Instance platformOf.

(** X7. How a missing token reaches the user.  A run on configured
    settings, in a browser that has no token to give without asking, sends
    nothing: its listing of the target is the one request it attempts, the
    authentication layer fails it, and the run ends with "Failed to fetch
    calendar events: " followed by the authentication error, the latch
    released and the last-sync time kept. *)
Theorem sync_without_token (st : State W) settings w1 now1 w2 now2 w3 weeks
    tmin tmax lastError w4 :
  _syncInProgress st = false →
  chrome_storage_sync_get (world st) = (inr (Some settings), w1) →
  truthy (targetCalendar settings) = true →
  default [] (sourceCalendars settings) ≠ [] →
  trim (default "" (targetCalendar settings)) ≠ "" →
  weeksAhead settings = Some weeks →
  browser_now w1 = (now1, w2) → browser_now w2 = (now2, w3) →
  syncRange now1 now2 (Some weeks) = (Some tmin, Some tmax) →
  chrome_identity_getAuthToken false w3 = (inl lastError, w4) →
  let cause := if bool_decide (lastError = "OAuth2 not granted or revoked.")
               then Auth.USER_REJECTED else Auth.TOKEN_FAILED in
  let target := trim (default "" (targetCalendar settings)) in
  performSync st
  = (Throw (Error (FETCH_FAILED +:+ ": " +:+ cause)),
     {| world := w4; _syncInProgress := false; _lastSyncTime := _lastSyncTime st;
        trace := trace st
                 ++ [(GET_events target tmin tmax "2500" None, inl (Error cause))];
        awaited := awaited st ++ [true; true] |}).
Proof.
  intros Hidle Hget Ht Hs Htrim Hweeks Hnow1 Hnow2 Hrange Htok cause target.
  pose proof (performSync_upto_listing st (Some settings) w1 Hidle Hget) as Hrun.
  cbn zeta in Hrun.
  change (default defaultSettings (Some settings)) with settings in Hrun.
  rewrite Ht, bool_decide_false in Hrun by done. cbn [negb orb] in Hrun.
  set (st1 := {| world := w1; _syncInProgress := true;
                 _lastSyncTime := _lastSyncTime st; trace := trace st;
                 awaited := awaited st ++ [true] |}) in *.
  assert (Hn1 : nowAt st1 = now1).
  { unfold nowAt. cbn [world st1 Date_now platformOf]. by rewrite Hnow1. }
  assert (Hw2 : world (afterDate st1) = w2).
  { unfold afterDate. cbn [world st1 Date_now platformOf]. by rewrite Hnow1. }
  assert (Hn2 : nowAt (afterDate st1) = now2).
  { unfold nowAt. rewrite Hw2. cbn [Date_now platformOf]. by rewrite Hnow2. }
  assert (Hw3 : world (afterDate (afterDate st1)) = w3).
  { unfold afterDate at 1. cbn [world]. rewrite Hw2. cbn [Date_now platformOf].
    by rewrite Hnow2. }
  rewrite Hweeks, Hn1, Hn2, Hrange in Hrun. cbn [fst snd] in Hrun.
  fold target in Hrun.
  destruct (fetchEvents_run target tmin tmax None (afterDate (afterDate st1)) Htrim)
    as (o & st2 & Hreq & (Hl & Hy & Htr) & Hfetch).
  rewrite Hw3 in Hreq. cbn [makeAuthenticatedRequest platformOf] in Hreq.
  rewrite auth_cases, Htok in Hreq.
  inversion Hreq as [[Ho Hw]]. subst o. fold cause in Hfetch, Htr.
  rewrite (Hrun _ _ Hfetch). f_equal.
  assert (Ha : awaited st2 = awaited st ++ [true; true]).
  { unfold fetchEvents in Hfetch. rewrite bool_decide_false in Hfetch by done.
    unfold try_catch, mbind, M_bind in Hfetch.
    destruct (request _ _) as [res sx] eqn:Hr.
    destruct (request_waits _ _ _ _ Hr) as [_ Hax]. cbn in Hax.
    destruct (request_inv _ _ _ _ Hr) as (o & Ho & _ & ->).
    rewrite Hw3 in Ho. cbn [makeAuthenticatedRequest platformOf] in Ho.
    rewrite auth_cases, Htok in Ho. inversion Ho; subst o.
    unfold throw in Hfetch. inversion Hfetch; subst sx.
    rewrite Hax. by rewrite <- app_assoc. }
  destruct st2 as [w2' l2 y2 t2 a2]. cbn in *. by subst.
Qed.

End Stack.

(** Witness for X7: a signed-out browser in front of the calendars of
    [Session.withSettings]. *)
Lemma sync_without_token_witness :
  let st := Chromium.init (Session.signedOut
                             (Session.withSettings (Some Session.oneSource))) in
  let run := performSync (PF := Session.platform) st in
  run.1 = Throw (Error "Failed to fetch calendar events: Failed to obtain authentication token")
  ∧ Chromium.sent (world run.2) = []
  ∧ _syncInProgress run.2 = false.
Proof.
  intros st run. unfold run, Session.platform.
  rewrite (sync_without_token (BR := Session.eastern) st Session.oneSource
             (world st) Scenario.noon (world st) Scenario.noon (world st) 4
             1716638400000 1719662400000 "The user is not signed in." (world st));
    [by vm_compute|try reflexivity; discriminate..].
Defined.

(* ===================================================================== *)
(** * The calendar list, the alarm and the listeners                      *)
(* ===================================================================== *)

Section Handlers.
Context {W : Type} {BR : Browser W}.

#[local] Existing Instance platformOf.

Lemma performSync_ends (st : State W) : (performSync st).1 ≠ OutOfFuel.
Proof.
  destruct (performSync st) as [r st'] eqn:Hrun. simpl.
  destruct (_syncInProgress st) eqn:Hlatch.
  - unfold performSync in Hrun. rewrite Hlatch in Hrun. by inversion Hrun.
  - by destruct (performSync_run _ _ _ Hlatch Hrun) as (? & _ & _ & ?).
Qed.

(** X8. [fetchCalendarList] makes one authenticated request and reports
    every failure (of the authentication layer or the network, an answer
    that is not a success, a body that cannot be read) as the one error
    "Failed to fetch calendars"; on a success it returns the [items] of the
    answer, or the empty list when the answer has none.  The fields of the
    sync service are left alone. *)
Theorem fetchCalendarList_outcome (st : State W) r st' :
  fetchCalendarList st = (r, st') →
  calls st [] st'
  ∧ ∃ o, Auth.makeAuthenticatedRequest (λ _ : unit, fetch_calendarList)
           list_status () (world st) = (o, world st')
      ∧ r = match o with
            | inr response =>
                if list_ok response then
                  match list_json response with
                  | Some items => Normal (default [] items)
                  | None => Throw (Error "Failed to fetch calendars")
                  end
                else Throw (Error "Failed to fetch calendars")
            | inl _ => Throw (Error "Failed to fetch calendars")
            end.
Proof.
  unfold fetchCalendarList, try_catch, mbind, M_bind. intros Hrun.
  destruct (liftIO _ st) as [res st1] eqn:Hio.
  destruct (liftIO_inv _ _ _ _ Hio) as (o & Hw & Hc & ->).
  destruct o as [e|response].
  - inversion Hrun; subst. split; [done|]. by exists (inl e).
  - destruct (list_ok response) eqn:Hok; simpl in Hrun.
    + destruct (list_json response) as [items|] eqn:Hjson;
        inversion Hrun; subst; (split; [done|]); exists (inr response);
        by rewrite Hok, Hjson.
    + inversion Hrun; subst. split; [done|]. exists (inr response).
      by rewrite Hok.
Qed.

Lemma fetchCalendarList_issues P : Issues P fetchCalendarList.
Proof.
  unfold fetchCalendarList. apply Issues_try_catch; [|intros; apply Issues_throw].
  apply Issues_bind; [apply Issues_liftIO|]. intros response.
  destruct (negb _); [apply Issues_throw|].
  destruct (list_json response); [apply Issues_ret | apply Issues_throw].
Qed.

(** The [switch] of [handleMessage] ends, whatever the action. *)
Lemma dispatch_ends fuel msg (st : State W) :
  (dispatch (S fuel) msg st).1 ≠ OutOfFuel.
Proof.
  destruct (dispatch (S fuel) msg st) as [[reply|e|] st'] eqn:Hb; [done..|exfalso].
  unfold dispatch in Hb. repeat case_bool_decide.
  - apply bind_inv in Hb as [(? & ? & _ & Hb)|[(? & _ & ?)|[Hb _]]]; [done..|].
    by destruct (fetchCalendarList_issues (λ _, True) _ _ _ Hb).
  - apply bind_inv in Hb as [(? & ? & _ & Hb)|[(? & _ & ?)|[Hb _]]]; [done..|].
    by destruct (Issues_callIO (λ _, True) _ _ _ _ Hb).
  - apply bind_inv in Hb as [(? & ? & _ & Hb)|[(? & _ & ?)|[Hb _]]]; [|done|].
    + apply bind_inv in Hb as [(? & ? & _ & Hb)|[(? & _ & ?)|[Hb _]]]; done.
    + pose proof (performSync_ends st) as Hends. by rewrite Hb in Hends.
  - apply bind_inv in Hb as [(? & ? & _ & Hb)|[(? & _ & ?)|[Hb _]]]; [done..|].
    pose proof (cleanupAll_ends fuel st) as Hends. by rewrite Hb in Hends.
  - apply bind_inv in Hb as [(? & ? & _ & Hb)|[(? & _ & ?)|[Hb _]]]; [|done..].
    apply bind_inv in Hb as [(? & ? & _ & Hb)|[(? & _ & ?)|[Hb _]]]; done.
  - done.
Qed.

(** A reply the [switch] returns says [success: true]. *)
Lemma dispatch_success fuel msg (st : State W) reply st' :
  dispatch fuel msg st = (Normal reply, st') → success reply = true.
Proof.
  unfold dispatch. intros Hb. repeat case_bool_decide.
  - apply bind_inv in Hb as [(? & ? & _ & Hb)|[(? & _ & ?)|[_ ?]]]; [|done..].
    by inversion Hb.
  - apply bind_inv in Hb as [(? & ? & _ & Hb)|[(? & _ & ?)|[_ ?]]]; [|done..].
    by inversion Hb.
  - apply bind_inv in Hb as [(? & ? & _ & Hb)|[(? & _ & ?)|[_ ?]]]; [|done..].
    apply bind_inv in Hb as [(? & ? & _ & Hb)|[(? & _ & ?)|[_ ?]]]; [|done..].
    by inversion Hb.
  - apply bind_inv in Hb as [(? & ? & _ & Hb)|[(? & _ & ?)|[_ ?]]]; [|done..].
    by inversion Hb.
  - apply bind_inv in Hb as [(? & ? & _ & Hb)|[(? & _ & ?)|[_ ?]]]; [|done..].
    apply bind_inv in Hb as [(? & ? & _ & Hb)|[(? & _ & ?)|[_ ?]]]; [|done..].
    by inversion Hb.
  - done.
Qed.

(** X9. [handleMessage] never throws: whatever the message and the state,
    it resolves to a reply, in the state its action left.  When the action
    returned, the reply is the one it returned, which says
    [success: true]; when the action threw, the reply says
    [success: false] and carries the message of what was thrown. *)
Theorem handleMessage_never_throws (fuel : nat) (msg : Message) (st : State W) :
  ∃ reply,
    handleMessage (S fuel) msg st = (Normal reply, (dispatch (S fuel) msg st).2)
    ∧ match (dispatch (S fuel) msg st).1 with
      | Normal returned => reply = returned ∧ success reply = true
      | Throw e => reply = ReplyError (message e) ∧ success reply = false
      | OutOfFuel => False
      end.
Proof.
  unfold handleMessage, try_catch.
  pose proof (dispatch_ends fuel msg st) as Hends.
  destruct (dispatch (S fuel) msg st) as [[reply|e|] st'] eqn:Hb; [| |done].
  - exists reply. split; [done|]. split; [done|]. by eapply dispatch_success.
  - by exists (ReplyError (message e)).
Qed.

(** X10. The reply to [syncNow] is the outcome of [performSync]: the
    recorded sync time after a run that returned, the message of the error
    after a run that threw.  In particular a [syncNow] that arrives while a
    sync is in progress is answered at once with [success: true] and the
    time of the previous sync ([null] when there is none), although no
    sync was made for it. *)
Theorem syncNow_reply (fuel : nat) (msg : Message) (st : State W) :
  action msg = Some "syncNow" →
  (∀ r st', performSync st = (r, st') →
     handleMessage fuel msg st
     = (Normal (match r with
                | Throw e => ReplyError (message e)
                | _ => ReplySynced (_lastSyncTime st')
                end), st'))
  ∧ (_syncInProgress st = true →
     handleMessage fuel msg st = (Normal (ReplySynced (_lastSyncTime st)), st)).
Proof.
  intros Hact.
  assert (Hrun : ∀ r st', performSync st = (r, st') →
            handleMessage fuel msg st
            = (Normal (match r with
                       | Throw e => ReplyError (message e)
                       | _ => ReplySynced (_lastSyncTime st')
                       end), st')).
  { intros r st' Hrun. unfold handleMessage, dispatch, try_catch. rewrite Hact.
    rewrite !bool_decide_false by done. rewrite bool_decide_true by done.
    unfold mbind at 1, M_bind at 1. rewrite Hrun.
    pose proof (performSync_ends st) as Hends. rewrite Hrun in Hends.
    by destruct r. }
  split; [done|]. intros Hheld. apply (Hrun (Normal ())).
  unfold performSync. by rewrite Hheld.
Qed.

(** X11. A message whose action is none of the five the listener knows (a
    missing [action] among them) changes nothing and is answered with
    [success: false] and "Unknown action: " followed by the action;
    [getStatus] changes nothing either and reports the latch and the
    recorded sync time. *)
Theorem handleMessage_reads_only (fuel : nat) (msg : Message) (st : State W) :
  (action msg ∉ [Some "getCalendars"; Some "updateAlarm"; Some "syncNow";
                 Some "cleanupAll"; Some "getStatus"] →
   handleMessage fuel msg st
   = (Normal (ReplyError ("Unknown action: " +:+ templ (action msg))), st))
  ∧ (action msg = Some "getStatus" →
     handleMessage fuel msg st
     = (Normal (ReplyStatus (_syncInProgress st) (_lastSyncTime st)), st)).
Proof.
  split.
  - intros Hnot. unfold handleMessage, dispatch, try_catch.
    rewrite !not_elem_of_cons in Hnot. destruct Hnot as (? & ? & ? & ? & ? & _).
    by rewrite !bool_decide_false by done.
  - intros Hact. unfold handleMessage, dispatch, try_catch. rewrite Hact.
    rewrite !bool_decide_false by done. by rewrite bool_decide_true by done.
Qed.

(** X12. The alarm listener never throws.  An alarm of another name does
    nothing; the alarm [calendarSync] makes a sync run and drops its error,
    if any, so that the state after it is the state after the run. *)
Theorem onAlarm_never_throws (name : string) (st : State W) :
  onAlarm name st
  = (Normal (), if bool_decide (name = "calendarSync") then (performSync st).2 else st).
Proof.
  unfold onAlarm. case_bool_decide; [|done].
  unfold try_catch. pose proof (performSync_ends st) as Hends.
  by destruct (performSync st) as [[[]|e|] st'].
Qed.

(** X13. On installation with nothing stored, [getSettings] gives the
    defaults, whose [syncInterval] is 60: the listener creates the alarm
    [calendarSync] with a period of 60 minutes although no calendar is
    configured, and returns normally whether the creation succeeds or
    not. *)
Theorem onInstalled_fresh_profile (st : State W) w1 :
  chrome_storage_sync_get (world st) = (inr None, w1) →
  onInstalled st
  = (Normal (),
     {| world := (chrome_alarms_create "calendarSync" (Some 60) w1).2;
        _syncInProgress := _syncInProgress st; _lastSyncTime := _lastSyncTime st;
        trace := trace st; awaited := awaited st ++ [_syncInProgress st] |}).
Proof.
  intros Hget. unfold onInstalled, try_catch. unfold mbind, M_bind.
  rewrite (getSettings_stored (PF := platformOf BR) st None w1 Hget).
  cbn [default defaultSettings syncInterval truthyNum].
  unfold initializeSyncAlarm, callIO. cbn [world].
  change (parseInt (Some 60)) with (Some 60).
  by destruct (chrome_alarms_create "calendarSync" (Some 60) w1) as [[e|[]] w2].
Qed.

End Handlers.

(** Witness for X8: a signed-in browser. *)
Lemma fetchCalendarList_outcome_witness :
  let st := Chromium.init (Session.signedIn (Scenario.cloud [])) in
  let run := fetchCalendarList (BR := Session.eastern) st in
  calls st [] run.2
  ∧ ∃ o, Auth.makeAuthenticatedRequest (BR := Session.eastern)
           (λ _ : unit, fetch_calendarList (Browser := Session.eastern))
           list_status () (world st)
         = (o, world run.2)
      ∧ run.1 = match o with
                | inr response =>
                    if list_ok response then
                      match list_json response with
                      | Some items => Normal (default [] items)
                      | None => Throw (Error "Failed to fetch calendars")
                      end
                    else Throw (Error "Failed to fetch calendars")
                | inl _ => Throw (Error "Failed to fetch calendars")
                end.
Proof.
  intros st run.
  apply (fetchCalendarList_outcome (BR := Session.eastern) st run.1 run.2).
  apply surjective_pairing.
Defined.

(** The calendar list of a signed-in browser, and of browsers that are not:
    the cause of the failure is not in the error. *)
Example fetchCalendarList_runs :
  (fetchCalendarList (BR := Session.eastern)
     (Chromium.init (Session.signedIn (Scenario.cloud [])))).1
  = Normal Session.directory
  ∧ (fetchCalendarList (BR := Session.eastern)
       (Chromium.init (Session.signedOut (Scenario.cloud [])))).1
    = Throw (Error "Failed to fetch calendars")
  ∧ (fetchCalendarList (BR := Session.eastern)
       (Chromium.init (Session.revoked (Scenario.cloud [])))).1
    = Throw (Error "Failed to fetch calendars").
Proof. by vm_compute. Qed.

(** Witness for X10: a [syncNow] while a sync is in progress, and one that
    fails because the user is signed out. *)
Lemma syncNow_reply_witness :
  let msg := {| action := Some "syncNow"; interval := None |} in
  let st := Chromium.init (Session.signedOut
                             (Session.withSettings (Some Session.oneSource))) in
  handleMessage (BR := Session.eastern) 1 msg st
  = (Normal (ReplyError
       "Failed to fetch calendar events: Failed to obtain authentication token"),
     (performSync (PF := Session.platform) st).2)
  ∧ handleMessage (BR := Session.eastern) 1 msg
      (set_syncInProgress true (set_lastSyncTime (Some 5) st))
    = (Normal (ReplySynced (Some 5)),
       set_syncInProgress true (set_lastSyncTime (Some 5) st)).
Proof.
  intros msg st. split.
  - apply (proj1 (syncNow_reply (BR := Session.eastern) 1 msg st eq_refl)
             (Throw (Error "Failed to fetch calendar events: Failed to obtain authentication token"))).
    by vm_compute.
  - apply (proj2 (syncNow_reply (BR := Session.eastern) 1 msg
                    (set_syncInProgress true (set_lastSyncTime (Some 5) st)) eq_refl)).
    reflexivity.
Defined.

(** Witness for X11: a message without an action, and [getStatus]. *)
Lemma handleMessage_reads_only_witness :
  let st := Chromium.init (Session.signedIn (Scenario.cloud [])) in
  handleMessage (BR := Session.eastern) 1 {| action := None; interval := None |} st
  = (Normal (ReplyError "Unknown action: undefined"), st)
  ∧ handleMessage (BR := Session.eastern) 1
      {| action := Some "getStatus"; interval := None |} st
    = (Normal (ReplyStatus false None), st).
Proof.
  intros st. split.
  - apply (proj1 (handleMessage_reads_only (BR := Session.eastern) 1
                    {| action := None; interval := None |} st)).
    apply (bool_decide_unpack _). vm_compute. reflexivity.
  - apply (proj2 (handleMessage_reads_only (BR := Session.eastern) 1
                    {| action := Some "getStatus"; interval := None |} st)).
    reflexivity.
Defined.

(** Witness for X13: installation on a profile with nothing stored. *)
Lemma onInstalled_fresh_profile_witness :
  let st := Chromium.init (Session.signedOut (Session.withSettings None)) in
  (onInstalled (BR := Session.eastern) st).1 = Normal ()
  ∧ Chromium.alarms (world (onInstalled (BR := Session.eastern) st).2)
    = {[ "calendarSync" := Some 60 ]}.
Proof.
  intros st.
  rewrite (onInstalled_fresh_profile (BR := Session.eastern) st (world st) eq_refl).
  split; reflexivity.
Defined.

(** The alarm then fires on the unconfigured profile: the run fails and the
    listener drops the error. *)
Example alarm_on_fresh_profile :
  let st := (onInstalled (BR := Session.eastern)
               (Chromium.init (Session.signedOut (Session.withSettings None)))).2 in
  (performSync (PF := Session.platform) st).1
  = Throw (Error "Sync settings not configured")
  ∧ (onAlarm (BR := Session.eastern) "calendarSync" st).1 = Normal ()
  ∧ Chromium.sent (world (onAlarm (BR := Session.eastern) "calendarSync" st).2) = [].
Proof. by vm_compute. Qed.

(* ===================================================================== *)
(** * What a run creates, and in what order it works                      *)
(* ===================================================================== *)

Section Creates.
Context {W : Type} {PF : Platform W}.

Lemma createdFromListing_app_l srcs A B x b :
  createdFromListing srcs A x b → createdFromListing srcs (A ++ B) x b.
Proof.
  intros (before & after & s & tmin & tmax & response & ev & now & -> & ?).
  exists before, (after ++ B), s, tmin, tmax, response, ev, now.
  split; [by rewrite <- app_assoc|done].
Qed.

Lemma createdFromListing_app_r srcs A B x b :
  createdFromListing srcs B x b → createdFromListing srcs (A ++ B) x b.
Proof.
  intros (before & after & s & tmin & tmax & response & ev & now & -> & ? & Hget & ?).
  exists (A ++ before), after, s, tmin, tmax, response, ev, now.
  split; [by rewrite <- app_assoc|]. split; [done|].
  split; [|done]. apply elem_of_app. by right.
Qed.

Lemma createdFromListing_mono srcs srcs' tr x b :
  (∀ s, s ∈ srcs → s ∈ srcs') →
  createdFromListing srcs tr x b → createdFromListing srcs' tr x b.
Proof.
  intros Hsub (before & after & s & tmin & tmax & response & ev & now & ? & Hs & ?).
  exists before, after, s, tmin, tmax, response, ev, now. auto.
Qed.

Lemma sourced_nil target fresh srcs : sourced target fresh srcs [].
Proof. intros x Hx. by inversion Hx. Qed.

Lemma sourced_app target fresh srcs A B :
  sourced target fresh srcs A → sourced target fresh srcs B →
  sourced target fresh srcs (A ++ B).
Proof.
  intros HA HB x Hx. apply elem_of_app in Hx as [Hx|Hx].
  - specialize (HA x Hx). destruct x.1; [done| |done].
    destruct HA as (? & ? & ?). split; [done|]. split; [done|].
    by apply createdFromListing_app_l.
  - specialize (HB x Hx). destruct x.1; [done| |done].
    destruct HB as (? & ? & ?). split; [done|]. split; [done|].
    by apply createdFromListing_app_r.
Qed.

Lemma sourced_mono target (fresh fresh' : BusyEvent → Prop) srcs srcs' new :
  (∀ s, s ∈ srcs → s ∈ srcs') → (∀ b, fresh b → fresh' b) →
  sourced target fresh srcs new → sourced target fresh' srcs' new.
Proof.
  intros Hsub Hfresh Hnew x Hx. specialize (Hnew x Hx). destruct x.1; [done| |done].
  destruct Hnew as (? & ? & ?). split; [done|]. split; [by apply Hfresh|].
  by eapply createdFromListing_mono.
Qed.

Lemma sourced_listings target fresh srcs new :
  Forall (λ x, isListRequest x.1 = true) new → sourced target fresh srcs new.
Proof.
  intros Hall x Hx. rewrite Forall_forall in Hall. specialize (Hall x Hx).
  by destruct x.1.
Qed.

Lemma slotNotListed_app A B target b :
  slotNotListed A target b → slotNotListed (A ++ B) target b.
Proof.
  intros (tmin & tmax & response & rest & -> & ?).
  by exists tmin, tmax, response, (rest ++ B).
Qed.

(** [createBusyEvent], request by request. *)
Lemma createBusyEvent_creates c ev :
  Issues (λ x, ∃ now, eligible ev = true ∧ x.1 = POST_events c (busyEventOf ev now))
         (createBusyEvent c ev).
Proof.
  intros st r st' Hrun. destruct (eligible ev) eqn:Hel.
  - destruct (createBusyEvent_run c ev st Hel) as (o & st1 & _ & Hc & Hrun').
    rewrite Hrun in Hrun'. inversion Hrun'; subst r st1; clear Hrun'.
    split.
    + destruct o as [|resp]; [done|]. simpl.
      destruct (ok resp); [by destruct (body resp)|done].
    + eexists. split; [exact Hc|]. repeat constructor. simpl. eauto.
  - rewrite createBusyEvent_skip in Hrun by done. inversion Hrun; subst.
    split; [done|]. exists []. split; [apply calls_refl|constructor].
Qed.

(** The loop body makes an insert only for an eligible event whose key the
    map does not hold. *)
Lemma syncEvent_creates target map keep ev :
  Issues (λ x, ∃ now, eligible ev = true ∧ Map_has map (slotKey ev) = false
                      ∧ x.1 = POST_events target (busyEventOf ev now))
         (syncEvent target map keep ev).
Proof.
  intros st r st' Hrun. destruct (eligible ev) eqn:Hel.
  - rewrite syncEvent_eligible in Hrun by done.
    destruct (Map_has map (slotKey ev)) eqn:Hhas; cbn [negb] in Hrun.
    + inversion Hrun; subst. split; [done|]. exists [].
      split; [apply calls_refl|constructor].
    + revert Hrun. generalize st r st'. fold (Issues (W := W)
        (λ x, ∃ now, true = true ∧ false = false
                     ∧ x.1 = POST_events target (busyEventOf ev now))
        ((createBusyEvent target ev;; mret ());; mret ({[slotKey ev]} ∪ keep))).
      apply Issues_bind; [|intros; apply Issues_ret].
      apply Issues_bind; [|intros; apply Issues_ret].
      eapply Issues_mono; [|apply createBusyEvent_creates].
      intros x (now & _ & Hx). eauto.
  - rewrite syncEvent_skip in Hrun by done. inversion Hrun; subst.
    split; [done|]. exists []. split; [apply calls_refl|constructor].
Qed.

(** One source calendar: its listing, then inserts made of its events.  A
    source that is worked through has been listed exactly once. *)
Lemma syncSource_sourced target a b map keep s st r st' :
  syncSource target a b map keep s st = (r, st') →
  r ≠ OutOfFuel
  ∧ ∃ new, calls st new st'
      ∧ sourced target (λ bd, Map_has map (busyKey bd) = false) [s] new
      ∧ (∀ keep', r = Normal keep' →
           ∃ tmin tmax, a = Some tmin ∧ b = Some tmax
             ∧ listings new = [GET_events s tmin tmax "2500" None]).
Proof.
  intros Hrun. unfold syncSource in Hrun.
  apply bind_inv in Hrun as [(items & st1 & Hfetch & Hloop)|[(e & Hfetch & ->)|[Hfetch ->]]].
  - destruct (fetchEvents_normal _ _ _ _ _ _ _ Hfetch)
      as (tmin & tmax & response & -> & -> & Hc1 & Hok & ->).
    assert (Hiss : Issues (λ x, ∃ ev now, ev ∈ itemsOrEmpty (body response)
                                 ∧ eligible ev = true
                                 ∧ Map_has map (slotKey ev) = false
                                 ∧ x.1 = POST_events target (busyEventOf ev now))
                     (forOf (syncEvent target map) keep (itemsOrEmpty (body response)))).
    { apply Issues_forOf. intros acc ev Hev.
      eapply Issues_mono; [|apply syncEvent_creates].
      intros x (now & ? & ? & ?). eauto 6. }
    destruct (Hiss _ _ _ Hloop) as (Hfuel & posts & Hc2 & Hposts).
    split; [done|].
    exists ((GET_events s tmin tmax "2500" None, inr response) :: posts).
    split; [by apply (calls_trans _ [_] _ _ _ Hc1)|].
    rewrite Forall_forall in Hposts. split.
    + intros x Hx. apply elem_of_cons in Hx as [->|Hx]; [done|].
      destruct (Hposts x Hx) as (ev & now & Hev & Hel & Hhas & Hreq). rewrite Hreq.
      split; [done|]. split; [done|].
      apply list_elem_of_split in Hx as (l1 & l2 & ->).
      exists ((GET_events s tmin tmax "2500" None, inr response) :: l1), l2,
             s, tmin, tmax, response, ev, now.
      split_and!; try done; [apply list_elem_of_singleton; done|by left].
    + intros keep' _. exists tmin, tmax. split; [done|]. split; [done|].
      unfold listings. simpl. f_equal.
      assert (Hnone : ∀ l : list (Request * (Exn + Response)),
                (∀ x, x ∈ l → ∃ c bd, x.1 = POST_events c bd) →
                List.filter isListRequest l.*1 = []).
      { induction l as [|y l IH]; intros Hl; [done|]. simpl.
        destruct (Hl y) as (c & bd & ->); [by left|]. simpl.
        apply IH. intros x Hx. apply Hl. by right. }
      apply Hnone. intros x Hx.
      destruct (Hposts x Hx) as (ev & now & _ & _ & _ & ?). eauto.
  - destruct (fetchEvents_issues _ _ _ _ _ _ _ Hfetch) as (_ & new & Hc & Hall).
    split; [done|]. exists new. split; [done|]. split; [|done].
    apply sourced_listings. eapply Forall_impl; [exact Hall|].
    intros [q o] (? & ? & Hq). simpl in *. by subst.
  - by destruct (fetchEvents_issues _ _ _ _ _ _ _ Hfetch).
Qed.

(** The source calendars, one after the other. *)
Lemma syncSources_sourced target a b map srcs keep st r st' :
  forOf (syncSource target a b map) keep srcs st = (r, st') →
  r ≠ OutOfFuel
  ∧ ∃ new, calls st new st'
      ∧ sourced target (λ bd, Map_has map (busyKey bd) = false) srcs new
      ∧ (∀ keep' tmin tmax, r = Normal keep' → a = Some tmin → b = Some tmax →
           listings new = (λ s, GET_events s tmin tmax "2500" None) <$> srcs).
Proof.
  revert keep st. induction srcs as [|s srcs IH]; intros keep st Hrun.
  - inversion Hrun; subst. split; [done|]. exists [].
    split; [apply calls_refl|]. split; [apply sourced_nil|]. done.
  - simpl in Hrun.
    apply bind_inv in Hrun as [(keep1 & st1 & Hsrc & Hrun)|[(e & Hsrc & ->)|[Hsrc ->]]];
      destruct (syncSource_sourced _ _ _ _ _ _ _ _ _ Hsrc)
        as (Hfuel1 & n1 & Hc1 & Hs1 & Hl1); [| |done].
    + destruct (IH _ _ Hrun) as (Hfuel & n2 & Hc2 & Hs2 & Hl2).
      split; [done|]. exists (n1 ++ n2). split; [by eapply calls_trans|].
      split.
      * apply sourced_app.
        -- eapply sourced_mono; [| |exact Hs1]; [|done].
           intros ? ->%list_elem_of_singleton. by left.
        -- eapply sourced_mono; [| |exact Hs2]; [|done]. intros ? ?. by right.
      * intros keep' tmin tmax -> -> ->.
        destruct (Hl1 _ eq_refl) as (tmin' & tmax' & [= <-] & [= <-] & Hg1).
        unfold listings in *. rewrite fmap_app, List.filter_app, Hg1.
        by rewrite (Hl2 _ tmin tmax eq_refl eq_refl eq_refl).
    + split; [done|]. exists n1. split; [done|]. split; [|done].
      eapply sourced_mono; [| |exact Hs1]; [|done].
      intros ? ->%list_elem_of_singleton. by left.
Qed.

(** The requests of a run that got past the latch, phase by phase: the
    listing of the target, the source phase, the delete phase. *)
Lemma performSync_phases (st : State W) stored w1 r st' :
  _syncInProgress st = false →
  chrome_storage_get (world st) = (inr stored, w1) →
  performSync st = (r, st') →
  let settings := default defaultSettings stored in
  let target := trim (default "" (targetCalendar settings)) in
  let sources := trim <$> default [] (sourceCalendars settings) in
  ∃ first new dels,
    issued st st' = first ++ new ++ dels
    ∧ Forall (isList target None) first
    ∧ sourced target (slotNotListed first target) sources new
    ∧ Forall (λ x, ∃ i, x.1 = DELETE_events target i) dels
    ∧ (r = Normal () →
       ∃ tmin tmax,
         syncRange (Date_now w1).1 (Date_now (Date_now w1).2).1
           (weeksAhead settings) = (Some tmin, Some tmax)
         ∧ first.*1 = [GET_events target tmin tmax "2500" None]
         ∧ listings new = (λ s, GET_events s tmin tmax "2500" None) <$> sources).
Proof.
  intros Hidle Hget Hrun settings target sources.
  destruct (performSync_run _ _ _ Hidle Hrun) as (stX & Htry & -> & _).
  change (issued st (set_syncInProgress false stX)) with (issued st stX).
  destruct (performSync_try_steps _ _ _ Htry) as [(e & _ & Hs)|Hsteps].
  { by rewrite (getSettings_stored _ stored w1) in Hs. }
  destruct Hsteps as (settings' & st1 & Hs & Hsteps).
  rewrite (getSettings_stored _ stored w1) in Hs by done.
  inversion Hs; subst settings' st1; clear Hs.
  cbn zeta in Hsteps. cbn [world] in Hsteps.
  fold settings in Hsteps. fold target sources in Hsteps.
  cbn [_syncInProgress _lastSyncTime trace set_syncInProgress] in Hsteps.
  set (st1 := {| world := w1; _syncInProgress := true;
                 _lastSyncTime := _lastSyncTime st; trace := trace st;
                 awaited := awaited st ++ [true] |}) in *.
  assert (Ht1 : trace (afterDate (afterDate st1)) = trace st) by done.
  change (nowAt st1) with (Date_now w1).1 in Hsteps.
  change (nowAt (afterDate st1)) with (Date_now (Date_now w1).2).1 in Hsteps.
  destruct (_ || _).
  { destruct Hsteps as [-> ->]. exists [], [], [].
    split; [apply issued_app; by rewrite app_nil_r|]. split; [constructor|].
    split; [apply sourced_nil|]. split; [constructor|]. done. }
  destruct (syncRange _ _ _) as [a b] eqn:Hrange. cbn [fst snd] in Hsteps.
  destruct Hsteps as [(e & -> & Hfetch)|(events & st2 & Hfetch & Hsteps)].
  { destruct (fetchEvents_issues _ _ _ _ _ _ _ Hfetch) as (_ & n0 & (_ & _ & Ht) & HP).
    exists n0, [], []. rewrite app_nil_r.
    split; [apply issued_app; by rewrite Ht, Ht1|]. split; [done|].
    split; [apply sourced_nil|]. split; [constructor|]. done. }
  destruct (fetchEvents_normal _ _ _ _ _ _ _ Hfetch)
    as (tmin & tmax & response & -> & -> & (_ & _ & Ht2) & Hok & ->).
  rewrite Ht1 in Ht2.
  set (first := [(GET_events target tmin tmax "2500" None, inr response)]) in *.
  assert (Hfirst : Forall (isList target None) first).
  { repeat constructor. by exists tmin, tmax. }
  destruct (keyedEntries _) as [e|entries] eqn:Hentries.
  { destruct Hsteps as [-> ->]. exists first, [], [].
    split; [apply issued_app; by rewrite Ht2|]. split; [done|].
    split; [apply sourced_nil|]. split; [constructor|]. done. }
  assert (Hfresh : ∀ bd, Map_has (Map_new entries) (busyKey bd) = false →
                         slotNotListed first target bd).
  { intros bd Hhas. exists tmin, tmax, response, []. split; [done|]. split; [done|].
    intros Hin. apply keyedEntries_slotKey in Hentries. subst entries.
    rewrite <- slotKey_keys, <- Map_new_keys in Hin.
    apply Map_has_elem in Hin. congruence. }
  destruct Hsteps as [(e & -> & Hsrc)|(keep & st3 & Hsrc & Hsteps)].
  { destruct (syncSources_sourced _ _ _ _ _ _ _ _ _ Hsrc)
      as (_ & new & (_ & _ & Ht3) & Hnew & _).
    apply (sourced_mono _ _ _ _ sources _ (λ s Hs, Hs) Hfresh) in Hnew.
    exists first, new, []. rewrite app_nil_r.
    split; [apply issued_app; by rewrite Ht3, Ht2, <- app_assoc|].
    split; [done|]. split; [done|]. split; [constructor|]. done. }
  destruct (syncSources_sourced _ _ _ _ _ _ _ _ _ Hsrc)
    as (_ & new & (_ & _ & Ht3) & Hnew & Hlist).
  apply (sourced_mono _ _ _ _ sources _ (λ s Hs, Hs) Hfresh) in Hnew.
  assert (Hdels : ∀ rl st4,
            forOf (deleteObsolete target keep) () (Map_new entries) st3 = (rl, st4) →
            ∃ dels, trace st4 = trace st3 ++ dels
                    ∧ Forall (λ x, ∃ i, x.1 = DELETE_events target i) dels).
  { intros rl st4 Hdel.
    assert (Hiss : Issues (λ x, ∃ i, x.1 = DELETE_events target i)
                     (forOf (deleteObsolete target keep) () (Map_new entries))).
    { apply Issues_forOf. intros u entry _.
      eapply Issues_mono; [|apply deleteObsolete_issues]. intros x Hx.
      by exists (id entry.2). }
    destruct (Hiss _ _ _ Hdel) as (_ & dels & (_ & _ & Ht4) & HP). eauto. }
  destruct Hsteps as [(e & -> & Hdel)|(st4 & Hdel & -> & ->)];
    destruct (Hdels _ _ Hdel) as (dels & Ht4 & HP);
    exists first, new, dels;
    (split; [apply issued_app; cbn [trace set_lastSyncTime afterDate];
             by rewrite Ht4, Ht3, Ht2, <- !app_assoc|]);
    (split; [done|]); (split; [done|]); (split; [done|]); [done|].
  intros _. exists tmin, tmax. split; [done|]. split; [done|].
  by apply (Hlist keep).
Qed.

(** X14. In a run of sync, every insert goes to the configured target
    calendar and carries the busy event made of an eligible event that a
    listing of a configured source calendar returned earlier in the same
    run, for a slot of which the run's listing of the target showed no
    tagged event.  The run creates nothing of its own, nothing for a slot
    it has seen synced, and what it creates holds the times of the source
    event, "Busy" and the tag, and nothing else of the event.  Every delete
    goes to the target calendar too: a source calendar is only ever
    listed. *)
Theorem creates_only_listed_eligible (st : State W) stored w1 r st' :
  _syncInProgress st = false →
  chrome_storage_get (world st) = (inr stored, w1) →
  performSync st = (r, st') →
  let settings := default defaultSettings stored in
  let target := trim (default "" (targetCalendar settings)) in
  let sources := trim <$> default [] (sourceCalendars settings) in
  (∀ c b o, (POST_events c b, o) ∈ issued st st' →
     c = target
     ∧ createdFromListing sources (issued st st') (POST_events c b, o) b
     ∧ slotNotListed (issued st st') target b)
  ∧ (∀ c i o, (DELETE_events c i, o) ∈ issued st st' → c = target).
Proof.
  intros Hidle Hget Hrun settings target sources.
  destruct (performSync_phases st stored w1 r st' Hidle Hget Hrun)
    as (first & new & dels & Hiss & Hfirst & Hnew & Hdels & _).
  fold settings target sources in Hfirst, Hnew, Hdels.
  rewrite Hiss. rewrite Forall_forall in Hfirst, Hdels. split.
  - intros c b o Hin. apply elem_of_app in Hin as [Hin|Hin].
    { by destruct (Hfirst _ Hin) as (? & ? & ?). }
    apply elem_of_app in Hin as [Hin|Hin].
    + destruct (Hnew _ Hin) as (-> & Hfresh & Hcreated). split; [done|]. split.
      * by apply createdFromListing_app_r, createdFromListing_app_l.
      * by apply slotNotListed_app.
    + by destruct (Hdels _ Hin) as (? & ?).
  - intros c i o Hin. apply elem_of_app in Hin as [Hin|Hin].
    { by destruct (Hfirst _ Hin) as (? & ? & ?). }
    apply elem_of_app in Hin as [Hin|Hin].
    + by specialize (Hnew _ Hin).
    + destruct (Hdels _ Hin) as (i' & Heq). by inversion Heq.
Qed.

(** X15. A run of sync that returns has listed the target calendar once
    and then each configured source calendar once, in the order of the
    settings (a calendar named twice is listed twice), all over the one
    range computed at the start from two readings of the clock, each with
    [maxResults=2500] and no page token; and all its deletes come after
    its last listing and its last insert. *)
Theorem sync_lists_each_calendar_once (st : State W) stored w1 st' :
  _syncInProgress st = false →
  chrome_storage_get (world st) = (inr stored, w1) →
  performSync st = (Normal (), st') →
  let settings := default defaultSettings stored in
  let target := trim (default "" (targetCalendar settings)) in
  let sources := trim <$> default [] (sourceCalendars settings) in
  ∃ tmin tmax,
    syncRange (Date_now w1).1 (Date_now (Date_now w1).2).1 (weeksAhead settings)
    = (Some tmin, Some tmax)
    ∧ listings (issued st st')
      = (λ c, GET_events c tmin tmax "2500" None) <$> (target :: sources)
    ∧ ∃ work dels, issued st st' = work ++ dels
        ∧ Forall (λ x, isDelete x.1 = false) work
        ∧ Forall (λ x, isDelete x.1 = true) dels.
Proof.
  intros Hidle Hget Hrun settings target sources.
  destruct (performSync_phases st stored w1 _ st' Hidle Hget Hrun)
    as (first & new & dels & Hiss & Hfirst & Hnew & Hdels & Hnormal).
  fold settings target sources in Hfirst, Hnew, Hdels, Hnormal.
  destruct (Hnormal eq_refl) as (tmin & tmax & Hrange & Hf & Hl).
  exists tmin, tmax. split; [done|].
  assert (Hnodel : List.filter isListRequest dels.*1 = []).
  { clear -Hdels. induction dels as [|x dels IH]; [done|].
    apply Forall_cons in Hdels as [(i & Hx) Hdels]. simpl. rewrite Hx. simpl. auto. }
  split.
  - rewrite Hiss. unfold listings in *.
    rewrite !fmap_app, !List.filter_app, Hf, Hl, Hnodel, app_nil_r. done.
  - exists (first ++ new), dels. split; [by rewrite Hiss, app_assoc|]. split.
    + apply Forall_app. split.
      * eapply Forall_impl; [exact Hfirst|]. intros [q o] (? & ? & Hq).
        simpl in *. by subst.
      * apply Forall_forall. intros x Hx. specialize (Hnew x Hx). by destruct x.1.
    + eapply Forall_impl; [exact Hdels|]. intros x (i & ->). done.
Qed.

End Creates.

(** Witness for X14: the run over [Scenario.staleAndNew] creates one event,
    from the event the listing of "home" returned. *)
Lemma creates_only_listed_eligible_witness :
  let st := Scenario.staleAndNew in
  let st' := (performSync (PF := Scenario.eastern) st).2 in
  (∀ c b o, (POST_events c b, o) ∈ issued st st' →
     c = "work"
     ∧ createdFromListing (PF := Scenario.eastern) ["home"; "club"]
         (issued st st') (POST_events c b, o) b
     ∧ slotNotListed (issued st st') "work" b)
  ∧ (∀ c i o, (DELETE_events c i, o) ∈ issued st st' → c = "work").
Proof.
  intros st st'.
  apply (creates_only_listed_eligible (PF := Scenario.eastern) st
           (Some Scenario.settings) (world st)
           (performSync (PF := Scenario.eastern) st).1 st').
  - reflexivity.
  - reflexivity.
  - apply surjective_pairing.
Defined.

(** Witness for X15: the same run lists "work", "home" and "club". *)
Lemma sync_lists_each_calendar_once_witness :
  let st := Scenario.staleAndNew in
  let st' := (performSync (PF := Scenario.eastern) st).2 in
  ∃ tmin tmax,
    syncRange (PF := Scenario.eastern) Scenario.noon Scenario.noon (Some 4)
    = (Some tmin, Some tmax)
    ∧ listings (issued st st')
      = (λ c, GET_events c tmin tmax "2500" None) <$> ["work"; "home"; "club"]
    ∧ ∃ work dels, issued st st' = work ++ dels
        ∧ Forall (λ x, isDelete x.1 = false) work
        ∧ Forall (λ x, isDelete x.1 = true) dels.
Proof.
  intros st st'.
  apply (sync_lists_each_calendar_once (PF := Scenario.eastern) st
           (Some Scenario.settings) (world st) st').
  - reflexivity.
  - reflexivity.
  - vm_compute. reflexivity.
Defined.

(* ===================================================================== *)
(** * The range of a sync run                                             *)
(* ===================================================================== *)

Section Window.
Context {W : Type} {PF : Platform W}.

Import JsDate JsDateFacts.

(** A run past the test of the settings, whose target is not blank: a
    range with an Invalid Date stops it before any request; otherwise its
    first request is the listing of the target over the range. *)
Lemma performSync_first_request (st : State W) settings w1 r st' :
  _syncInProgress st = false →
  chrome_storage_get (world st) = (inr (Some settings), w1) →
  truthy (targetCalendar settings) = true →
  default [] (sourceCalendars settings) ≠ [] →
  trim (default "" (targetCalendar settings)) ≠ "" →
  performSync st = (r, st') →
  let target := trim (default "" (targetCalendar settings)) in
  match syncRange (Date_now w1).1 (Date_now (Date_now w1).2).1 (weeksAhead settings) with
  | (Some tmin, Some tmax) =>
      ∃ o rest, issued st st' = (GET_events target tmin tmax "2500" None, o) :: rest
  | _ => r = Throw (RangeError "Invalid time value") ∧ issued st st' = []
  end.
Proof.
  intros Hidle Hget Ht Hs Htrim Hrun target.
  destruct (performSync_run _ _ _ Hidle Hrun) as (stX & Htry & -> & _).
  change (issued st (set_syncInProgress false stX)) with (issued st stX).
  destruct (performSync_try_steps _ _ _ Htry) as [(e & _ & Hg)|Hsteps].
  { by rewrite (getSettings_stored _ (Some settings) w1) in Hg. }
  destruct Hsteps as (settings' & st1 & Hg & Hsteps).
  rewrite (getSettings_stored _ (Some settings) w1) in Hg by done.
  inversion Hg; subst settings' st1; clear Hg.
  cbn zeta in Hsteps. cbn [world] in Hsteps.
  change (default defaultSettings (Some settings)) with settings in Hsteps.
  fold target in Hsteps.
  cbn [_syncInProgress _lastSyncTime trace set_syncInProgress] in Hsteps.
  set (st1 := {| world := w1; _syncInProgress := true;
                 _lastSyncTime := _lastSyncTime st; trace := trace st;
                 awaited := awaited st ++ [true] |}) in *.
  assert (Ht1 : trace (afterDate (afterDate st1)) = trace st) by done.
  change (nowAt st1) with (Date_now w1).1 in Hsteps.
  change (nowAt (afterDate st1)) with (Date_now (Date_now w1).2).1 in Hsteps.
  rewrite Ht, bool_decide_false in Hsteps by done. cbn [negb orb] in Hsteps.
  assert (Hinvalid : ∀ a b, ¬ (is_Some a ∧ is_Some b) →
            fetchEvents target a b None (afterDate (afterDate st1))
            = (Throw (RangeError "Invalid time value"), afterDate (afterDate st1))).
  { intros a b Hab. unfold fetchEvents. rewrite bool_decide_false by done.
    destruct a, b; try done. destruct Hab. by split. }
  assert (Hstop : ∀ a b, ¬ (is_Some a ∧ is_Some b) →
            (∃ e, r = Throw e
                  ∧ fetchEvents target a b None (afterDate (afterDate st1)) = (Throw e, stX))
            ∨ (∃ events st2,
                  fetchEvents target a b None (afterDate (afterDate st1))
                  = (Normal events, st2) ∧ True) →
            r = Throw (RangeError "Invalid time value") ∧ issued st stX = []).
  { intros a b Hab [(e & -> & Hf)|(events & st2 & Hf & _)];
      rewrite (Hinvalid a b Hab) in Hf; [|done].
    inversion Hf; subst. split; [done|]. apply issued_app. by rewrite app_nil_r. }
  destruct (syncRange _ _ _) as [a b]. cbn [fst snd] in Hsteps.
  destruct a as [tmin|]; [destruct b as [tmax|]|].
  2: apply (Hstop (Some tmin) None); [by intros [_ [? ?]]|].
  3: apply (Hstop None b); [by intros [[? ?] _]|].
  2,3: destruct Hsteps as [?|(events & st2 & ? & _)]; [by left|right; eauto].
  destruct (fetchEvents_run target tmin tmax None (afterDate (afterDate st1)) Htrim)
    as (o & st2x & _ & (_ & _ & Ht2) & Hf).
  rewrite Ht1 in Ht2. exists o.
  destruct Hsteps as [(e & -> & Hfetch)|(events & st2 & Hfetch & Hsteps)].
  { rewrite Hf in Hfetch. inversion Hfetch; subst.
    exists []. by apply issued_app. }
  rewrite Hf in Hfetch. inversion Hfetch as [[Hev Hst2]]. subst st2x. clear Hfetch.
  destruct (keyedEntries _) as [e|entries].
  { destruct Hsteps as [-> ->]. exists []. by apply issued_app. }
  assert (Hsrc : ∀ keep rs st3,
            forOf (syncSource target (Some tmin) (Some tmax) (Map_new entries))
              keep (trim <$> default [] (sourceCalendars settings)) st2 = (rs, st3) →
            ∃ new, trace st3 = trace st2 ++ new).
  { intros keep rs st3 Hrun3.
    assert (Hiss : Issues notDelete
                     (forOf (syncSource target (Some tmin) (Some tmax) (Map_new entries))
                        keep (trim <$> default [] (sourceCalendars settings))))
      by (apply Issues_forOf; intros; apply syncSource_issues).
    destruct (Hiss _ _ _ Hrun3) as (_ & new & (_ & _ & Ht3) & _). eauto. }
  assert (Hdel : ∀ keep rl st3 st4,
            forOf (deleteObsolete target keep) () (Map_new entries) st3 = (rl, st4) →
            ∃ dels, trace st4 = trace st3 ++ dels).
  { intros keep rl st3 st4 Hrun4.
    assert (Hiss : Issues (λ _, True)
                     (forOf (deleteObsolete target keep) () (Map_new entries))).
    { apply Issues_forOf. intros u entry _.
      eapply Issues_mono; [|apply deleteObsolete_issues]. done. }
    destruct (Hiss _ _ _ Hrun4) as (_ & dels & (_ & _ & Ht4) & _). eauto. }
  destruct Hsteps as [(e & -> & Hrun3)|(keep & st3 & Hrun3 & Hsteps)];
    destruct (Hsrc _ _ _ Hrun3) as (new & Ht3).
  { exists new. apply issued_app. by rewrite Ht3, Ht2, <- app_assoc. }
  destruct Hsteps as [(e & -> & Hrun4)|(st4 & Hrun4 & -> & ->)];
    destruct (Hdel _ _ _ _ Hrun4) as (dels & Ht4);
    exists (new ++ dels); apply issued_app; cbn [trace set_lastSyncTime afterDate];
    by rewrite Ht4, Ht3, Ht2, <- !app_assoc.
Qed.

(** C9 (corrected).  The range of a sync run is taken on the local clock,
    from two readings of the time, and is not aligned on days.  A run that
    gets past the test of its settings, with a target that is not blank
    and a number of weeks ahead [weeks], reads the time twice, [now1] and
    then [now2].  Its [startTime] is the instant at which the local clock
    shows, seven days of the calendar earlier, what it shows at [now1];
    its [endTime] the instant at which the local clock shows, [7 * weeks]
    days of the calendar later, what it shows at [now2]; each is an Invalid
    Date when that instant is outside the range of a Date.  With an Invalid
    Date the run throws a RangeError before any request; otherwise its
    first request lists the target from [startTime] to [endTime].  Where
    the offset of the local clock never changes, and within the range of a
    Date, these are [now1] minus 7 days of 24 hours and [now2] plus
    [7 * weeks] days of 24 hours; [setHours] is applied to neither. *)
Theorem sync_range_on_local_clock (st : State W) settings w1 weeks r st' :
  _syncInProgress st = false →
  chrome_storage_get (world st) = (inr (Some settings), w1) →
  truthy (targetCalendar settings) = true →
  default [] (sourceCalendars settings) ≠ [] →
  trim (default "" (targetCalendar settings)) ≠ "" →
  weeksAhead settings = Some weeks →
  performSync st = (r, st') →
  let now1 := (Date_now w1).1 in
  let now2 := (Date_now (Date_now w1).2).1 in
  let target := trim (default "" (targetCalendar settings)) in
  let startTime := TimeClip (UTC LocalTZA (LocalTime LocalTZA now1 - 7 * msPerDay)) in
  let endTime :=
    TimeClip (UTC LocalTZA (LocalTime LocalTZA now2 + weeks * 7 * msPerDay)) in
  syncRange now1 now2 (weeksAhead settings) = (startTime, endTime)
  ∧ match startTime, endTime with
    | Some tmin, Some tmax =>
        ∃ o rest, issued st st' = (GET_events target tmin tmax "2500" None, o) :: rest
    | _, _ => r = Throw (RangeError "Invalid time value") ∧ issued st st' = []
    end
  ∧ (∀ c, constantOffset LocalTZA c →
       valid (now1 - 7 * msPerDay) → valid (now2 + weeks * 7 * msPerDay) →
       startTime = Some (now1 - 7 * msPerDay)
       ∧ endTime = Some (now2 + weeks * 7 * msPerDay)).
Proof.
  intros Hidle Hget Ht Hs Htrim Hweeks Hrun now1 now2 target startTime endTime.
  assert (Hrange : syncRange now1 now2 (weeksAhead settings) = (startTime, endTime))
    by (rewrite Hweeks; apply syncRange_eq).
  split; [done|]. split.
  - pose proof (performSync_first_request st settings w1 r st'
                  Hidle Hget Ht Hs Htrim Hrun) as Hfirst.
    cbn zeta in Hfirst. fold now1 now2 target in Hfirst. rewrite Hrange in Hfirst.
    destruct startTime, endTime; done.
  - intros c Hc H1 H2. unfold startTime, endTime.
    replace (LocalTime LocalTZA now1 - 7 * msPerDay)
      with (LocalTime LocalTZA now1 + - (7 * msPerDay)) by lia.
    rewrite !(UTC_LocalTime _ c) by done.
    replace (now1 + - (7 * msPerDay)) with (now1 - 7 * msPerDay) by lia.
    by rewrite !TimeClip_Some.
Qed.

End Window.

(** Witness for C9: the run over [Scenario.staleAndNew] at noon UTC on
    1 June 2024, four weeks ahead, on a runtime at UTC-4: the listing of
    "work" goes from noon UTC on 25 May to noon UTC on 29 June. *)
Lemma sync_range_on_local_clock_witness :
  let st := Scenario.staleAndNew in
  let run := performSync (PF := Scenario.eastern) st in
  syncRange (PF := Scenario.eastern) Scenario.noon Scenario.noon (Some 4)
  = (Some 1716638400000, Some 1719662400000)
  ∧ (∃ o rest,
       issued st run.2
       = (GET_events "work" 1716638400000 1719662400000 "2500" None, o) :: rest)
  ∧ (∀ c, JsDate.constantOffset (JsDate.fixedOffset (-240)) c →
       JsDate.valid (Scenario.noon - 7 * JsDate.msPerDay) →
       JsDate.valid (Scenario.noon + 4 * 7 * JsDate.msPerDay) →
       Some 1716638400000 = Some (Scenario.noon - 7 * JsDate.msPerDay)
       ∧ Some 1719662400000 = Some (Scenario.noon + 4 * 7 * JsDate.msPerDay)).
Proof.
  intros st run.
  apply (sync_range_on_local_clock (PF := Scenario.eastern) st Scenario.settings
           (world st) 4 run.1 run.2).
  - reflexivity.
  - reflexivity.
  - reflexivity.
  - discriminate.
  - by vm_compute.
  - reflexivity.
  - apply surjective_pairing.
Defined.

(** Across a change of the clocks the range is not a whole number of days
    of 24 hours.  A run at noon in New York on Friday 8 March 2024, one
    week ahead: the listing ends at noon there on Friday 15 March, which is
    seven days less one hour after the run. *)
Example sync_range_across_clock_change :
  let st := Scenario.beforeDst in
  let run := performSync (PF := Scenario.newYork) st in
  run.1 = Normal ()
  ∧ (trace run.2).*1
    = [GET_events "work" 1709312400000 1710518400000 "2500" None;
       GET_events "home" 1709312400000 1710518400000 "2500" None]
  ∧ 1709312400000 = nowAt (PF := Scenario.newYork) st - 7 * JsDate.msPerDay
  ∧ 1710518400000
    = nowAt (PF := Scenario.newYork) st + 7 * JsDate.msPerDay - JsDate.msPerHour.
Proof. by vm_compute. Qed.

(** A number of weeks that takes the end of the range out of the range of
    a Date gives an Invalid Date. *)
Example sync_range_out_of_range :
  syncRange (PF := Scenario.utc) Scenario.noon Scenario.noon (Some 100000000)
  = (Some 1716638400000, None).
Proof. reflexivity. Qed.

(* ===================================================================== *)
(** * Creating, cleaning up, and the cleanup range                        *)
(* ===================================================================== *)

Section MoreAccess.
Context {W : Type} {PF : Platform W}.

Import JsDate JsDateFacts.

(** X16. [createBusyEvent] makes no request for an event that is not
    eligible and returns [null]; for an eligible event it reads the clock
    and makes exactly one insert request, of the busy event that holds the
    event's times and zones, "Busy", the tag and the time read.  A failed
    request is reported as [CREATE_FAILED] without its cause; an answer of
    success whose body cannot be read makes the method throw a
    [SyntaxError]. *)
Theorem createBusyEvent_request (target : string) (ev : Event) (st : State W) :
  (eligible ev = false → createBusyEvent target ev st = (Normal None, st))
  ∧ (eligible ev = true →
     ∃ o st',
       makeAuthenticatedRequest
         (POST_events target (busyEventOf ev (nowAt st))) (world (afterDate st))
       = (o, world st')
       ∧ issued st st' = [(POST_events target (busyEventOf ev (nowAt st)), o)]
       ∧ createBusyEvent target ev st = (createOutcome o, st')).
Proof.
  split.
  - apply createBusyEvent_skip.
  - intros Hel. destruct (createBusyEvent_run target ev st Hel) as (o & st' & ? & Hc & ?).
    exists o, st'. split; [done|]. split; [by apply calls_issued|done].
Qed.

(** X17. A cleanup that throws has either failed to list (no delete was
    requested) or has stopped at the first delete that failed: the deletes
    requested are those of the first tagged events of the listing, in
    order, all successful but the last, and the tagged events after that
    one are left in place.  The error is [DELETE_FAILED] then. *)
Theorem cleanup_stops_at_first_failure (fuel : nat) (c : string) (a b : Z)
    (st : State W) e st' :
  c ≠ "" →
  cleanupSyncedEvents (S fuel) c (Some a) (Some b) st = (Throw e, st') →
  ∃ o dels,
    issued st st' = (GET_events c a b "2500" None, o) :: dels
    ∧ ((fetchOutcome o = Throw e ∧ dels = [])
       ∨ ∃ items good bad,
           fetchOutcome o = Normal items
           ∧ e = Error DELETE_FAILED
           ∧ dels = good ++ [bad]
           ∧ dels.*1 = (λ ev, DELETE_events c (id ev))
                         <$> take (length dels) (filter isSynced items)
           ∧ (length dels ≤ length (filter isSynced items))%nat
           ∧ Forall (λ x, deleteOutcome x.2 = Normal ()) good
           ∧ deleteOutcome bad.2 = Throw (Error DELETE_FAILED)).
Proof.
  intros Hc Hrun.
  destruct (cleanupSyncedEvents_run _ _ _ _ _ _ _ Hc Hrun)
    as (o & st1 & (_ & _ & Ht1) & Hcase).
  exists o. destruct (fetchOutcome o) as [items|e'|] eqn:Hout; [| |done].
  - destruct Hcase as (rl & Hloop & Hr).
    destruct (deleteLoop_run _ _ _ _ _ Hloop) as (dels & (_ & _ & Ht2) & Hres).
    exists dels. split; [apply issued_app; rewrite Ht2, Ht1; by rewrite <- app_assoc|].
    right. destruct rl as [[]|e''|]; [done| |done].
    inversion Hr; subst e''; clear Hr.
    destruct Hres as (-> & good & bad & -> & Hreqs & Hlen & Hgood & Hbad).
    exists items, good, bad. by split_and!.
  - destruct Hcase as [[= ->] ->]. exists []. split; [by apply issued_app|].
    by left.
Qed.

Lemma startOfDay_bounds tza c t :
  constantOffset tza c →
  TimeWithinDay (LocalTime tza (startOfDay tza t)) = 0
  ∧ startOfDay tza t ≤ t < startOfDay tza t + msPerDay.
Proof.
  intros Hc.
  unfold startOfDay, UTC, LocalTime, TimeWithinDay, MakeDate, Day, msPerDay.
  rewrite !Hc. split.
  - replace ((t + c) `div` 86400000 * 86400000 + 0 - c + c)
      with (0 + (t + c) `div` 86400000 * 86400000) by lia.
    by rewrite Z.mod_add.
  - pose proof (Z.div_mod (t + c) 86400000).
    pose proof (Z.mod_pos_bound (t + c) 86400000). lia.
Qed.

(** X18. In a zone that never changes its offset, the range of
    [_getDateRange] is aligned on days of that zone, whatever the month and
    year: [startDate] is the local midnight that begins the day of the
    clock reading, [cleanupStart] is exactly seven days before it, and
    [endDate] is the last millisecond of the day [7 * weeksAhead] days
    after it, as long as these dates are ones a [Date] can hold.  Nothing
    but the clock is touched. *)
Theorem _getDateRange_aligned (c weeks : Z) (st : State W) :
  constantOffset LocalTZA c →
  Forall valid [startOfDay LocalTZA (nowAt st) - 7 * msPerDay;
                startOfDay LocalTZA (nowAt st);
                startOfDay LocalTZA (nowAt st) + weeks * 7 * msPerDay;
                startOfDay LocalTZA (nowAt st) + weeks * 7 * msPerDay
                + (msPerDay - 1)] →
  ∃ cleanupStart startDate endDate,
    _getDateRange (Some weeks) st
    = (Normal (Some cleanupStart, Some startDate, Some endDate), afterDate st)
    ∧ TimeWithinDay (LocalTime LocalTZA startDate) = 0
    ∧ startDate ≤ nowAt st < startDate + msPerDay
    ∧ cleanupStart = startDate - 7 * msPerDay
    ∧ endDate = startDate + (7 * weeks + 1) * msPerDay - 1.
Proof.
  intros Hc Hvalid.
  apply Forall_cons in Hvalid as [H1 Hvalid]. apply Forall_cons in Hvalid as [H2 Hvalid].
  apply Forall_cons in Hvalid as [H3 Hvalid]. apply Forall_cons in Hvalid as [H4 _].
  rewrite (_getDateRange_eq c) by done.
  destruct (startOfDay_bounds LocalTZA c (nowAt st) Hc) as [Hmid Hb].
  eexists _, _, _. split; [done|]. split; [done|]. split; [done|].
  split; [done|]. unfold msPerDay. lia.
Qed.

Lemma underscore_split (s1 s2 e1 e2 : string) :
  "_"%char ∉ JsDate.chars s1 → "_"%char ∉ JsDate.chars s2 →
  s1 +:+ "_" +:+ e1 = s2 +:+ "_" +:+ e2 → s1 = s2 ∧ e1 = e2.
Proof.
  revert s2. induction s1 as [|c s1 IH]; intros [|c' s2] H1 H2 Heq; simpl in *.
  - by inversion Heq.
  - inversion Heq; subst. destruct H2. by left.
  - inversion Heq; subst. destruct H1. by left.
  - inversion Heq; subst. apply not_elem_of_cons in H1 as [_ H1].
    apply not_elem_of_cons in H2 as [_ H2].
    destruct (IH s2 H1 H2) as [-> ->]; done.
Qed.

(** X19. The key of a time slot is the text of its two [dateTime]
    strings, and the keys of two slots are equal only when both strings
    are: for start strings without an underscore (a date-time string has
    none) no two different slots share a key, whatever their time zones
    are.  The key compares text, not instants. *)
Theorem eventKey_injective (a1 b1 a2 b2 : string) (z1 z2 z3 z4 : option string) :
  "_"%char ∉ JsDate.chars a1 → "_"%char ∉ JsDate.chars a2 →
  _createEventKey (Some {| dateTime := Some a1; timeZone := z1 |})
                  (Some {| dateTime := Some b1; timeZone := z2 |})
  = _createEventKey (Some {| dateTime := Some a2; timeZone := z3 |})
                    (Some {| dateTime := Some b2; timeZone := z4 |}) →
  a1 = a2 ∧ b1 = b2.
Proof.
  intros H1 H2 Heq. unfold _createEventKey in Heq. cbn in Heq.
  inversion Heq as [Hk]. by apply underscore_split.
Qed.

Lemma cleanupAll_issues fuel : Issues (λ _, True) (cleanupAll (S fuel)).
Proof.
  unfold cleanupAll. apply Issues_try_catch; [|intros; apply Issues_throw].
  apply Issues_bind; [apply Issues_getSettings|]. intros settings.
  destruct (negb _); [apply Issues_throw|].
  apply Issues_bind; [apply _getDateRange_issues|].
  intros [[cleanupStart startDate] endDate].
  apply Issues_bind; [|intros; apply Issues_ret].
  eapply Issues_mono; [|apply cleanupSyncedEvents_issues]. done.
Qed.

(** X20. [cleanupAll] ends, and ends in one of two ways: it returns, or it
    throws [CLEANUP_FAILED], whatever went wrong (no target configured, the
    settings unreadable, the listing or a delete failed).  It does not
    look at the latch of the sync, and leaves the latch and the last-sync
    time as they are. *)
Theorem cleanupAll_outcome (fuel : nat) (st : State W) r st' :
  cleanupAll (S fuel) st = (r, st') →
  (r = Normal () ∨ r = Throw (Error CLEANUP_FAILED))
  ∧ _syncInProgress st' = _syncInProgress st
  ∧ _lastSyncTime st' = _lastSyncTime st.
Proof.
  intros Hrun.
  destruct (cleanupAll_issues fuel _ _ _ Hrun) as (Hfuel & new & (Hl & Hy & _) & _).
  split; [|done]. unfold cleanupAll in Hrun.
  apply try_catch_inv in Hrun as [(e & st1 & _ & Hh)|[_ Hnot]].
  - inversion Hh; subst. by right.
  - destruct r as [[]|e|]; [by left|by destruct (Hnot e)|done].
Qed.

End MoreAccess.

(** Witness for X17: three tagged events in the target; the provider
    answers the second delete with 404. *)
Lemma cleanup_stops_at_first_failure_witness :
  let st := Session.secondDeleteFails in
  let st' := (cleanupSyncedEvents (PF := Scenario.eastern) 1 "work"
                (Some 0) (Some (2 * Scenario.noon)) st).2 in
  ∃ o dels,
    issued st st' = (GET_events "work" 0 (2 * Scenario.noon) "2500" None, o) :: dels
    ∧ ((fetchOutcome o = Throw (Error DELETE_FAILED) ∧ dels = [])
       ∨ ∃ items good bad,
           fetchOutcome o = Normal items
           ∧ Error DELETE_FAILED = Error DELETE_FAILED
           ∧ dels = good ++ [bad]
           ∧ dels.*1 = (λ ev, DELETE_events "work" (id ev))
                         <$> take (length dels) (filter isSynced items)
           ∧ (length dels ≤ length (filter isSynced items))%nat
           ∧ Forall (λ x, deleteOutcome x.2 = Normal ()) good
           ∧ deleteOutcome bad.2 = Throw (Error DELETE_FAILED)).
Proof.
  intros st st'.
  apply (cleanup_stops_at_first_failure (PF := Scenario.eastern) 0 "work" 0
           (2 * Scenario.noon) st (Error DELETE_FAILED) st').
  - discriminate.
  - vm_compute. reflexivity.
Defined.

(** That run: the first tagged event is deleted, the second delete fails,
    the third tagged event is never asked for. *)
Example cleanup_stopped :
  let run := cleanupSyncedEvents (PF := Scenario.eastern) 1 "work"
               (Some 0) (Some (2 * Scenario.noon)) Session.secondDeleteFails in
  run.1 = Throw (Error DELETE_FAILED)
  ∧ deletes (trace run.2) = [DELETE_events "work" "s1"; DELETE_events "work" "s2"]
  ∧ id <$> filter isSynced (Cloud.eventsOf run.2 "work") = ["s2"; "s3"].
Proof. by vm_compute. Qed.

(** Witness for X18: at noon UTC on 1 June 2024, on a runtime at UTC-4,
    with four weeks ahead. *)
Lemma _getDateRange_aligned_witness :
  ∃ cleanupStart startDate endDate,
    _getDateRange (PF := Scenario.eastern) (Some 4) Scenario.sameSlot
    = (Normal (Some cleanupStart, Some startDate, Some endDate),
       afterDate (PF := Scenario.eastern) Scenario.sameSlot)
    ∧ JsDate.TimeWithinDay
        (JsDate.LocalTime (LocalTZA (Platform := Scenario.eastern)) startDate) = 0
    ∧ startDate ≤ nowAt (PF := Scenario.eastern) Scenario.sameSlot
      < startDate + JsDate.msPerDay
    ∧ cleanupStart = startDate - 7 * JsDate.msPerDay
    ∧ endDate = startDate + (7 * 4 + 1) * JsDate.msPerDay - 1.
Proof.
  apply (_getDateRange_aligned (PF := Scenario.eastern)
           (-240 * JsDate.msPerMinute) 4 Scenario.sameSlot).
  - intros t b. reflexivity.
  - repeat constructor; by vm_compute.
Defined.

(** The dates of that range. *)
Example cleanup_range_in_june :
  (_getDateRange (PF := Scenario.eastern) (Some 4) Scenario.sameSlot).1
  = Normal (Cloud.instant "2024-05-25T04:00:00Z", Cloud.instant "2024-06-01T04:00:00Z",
            Cloud.instant "2024-06-30T03:59:59.999Z").
Proof. reflexivity. Qed.

(** Witness for X20: cleanup without a configured target. *)
Lemma cleanupAll_outcome_witness :
  let run := cleanupAll (PF := Scenario.eastern) 1
               (Cloud.init (Session.withSettings None)) in
  (run.1 = Normal () ∨ run.1 = Throw (Error CLEANUP_FAILED))
  ∧ _syncInProgress run.2 = false
  ∧ _lastSyncTime run.2 = None.
Proof.
  intros run.
  apply (cleanupAll_outcome (PF := Scenario.eastern) 0
           (Cloud.init (Session.withSettings None)) run.1 run.2).
  apply surjective_pairing.
Defined.

(** Witness for X16: an eligible event. *)
Lemma createBusyEvent_request_witness :
  ∃ o st',
    makeAuthenticatedRequest (Platform := Scenario.eastern)
      (POST_events "work" (busyEventOf (Scenario.slot9 "h1" None) Scenario.noon))
      (world Scenario.sameSlot)
    = (o, world st')
    ∧ issued Scenario.sameSlot st'
      = [(POST_events "work" (busyEventOf (Scenario.slot9 "h1" None) Scenario.noon), o)]
    ∧ createBusyEvent (PF := Scenario.eastern) "work" (Scenario.slot9 "h1" None)
        Scenario.sameSlot
      = (createOutcome o, st').
Proof.
  apply (proj2 (createBusyEvent_request (PF := Scenario.eastern) "work"
                  (Scenario.slot9 "h1" None) Scenario.sameSlot)).
  reflexivity.
Defined.

(* ===================================================================== *)
(** * What a run leaves on the provider                                   *)
(* ===================================================================== *)

Section Outcome.
Context (tza : JsDate.TZA).
Import Cloud.

#[local] Hint Extern 0 (Platform _) =>
  exact (Cloud.platform tza) : typeclass_instances.

(** The state of the provider after a run that returned, in terms of the
    target calendar before it. *)
Lemma after_run (st0 st1 : State World) :
  quiet (world st0) → providerIds (world st0) → _syncInProgress st0 = false →
  performSync st0 = (Normal (), st1) →
  let w0 := world st0 in
  ∃ T0 a b C keep,
    calendars w0 !! targetOf w0 = Some T0
    ∧ rangeOf tza w0 = (Some a, Some b)
    ∧ NoDup (id <$> T0)
    ∧ (∀ n, (nextId w0 ≤ n)%nat → freshId n ∉ id <$> T0)
    ∧ Forall (λ c, (∃ n, (nextId w0 ≤ n)%nat ∧ id c = freshId n)
                   ∧ isSynced c ∧ inWindow a b c
                   ∧ eligible c = true ∧ slotKey c ∈ keep) C
    ∧ (∀ k, k ∈ keep →
         ∃ s e, s ∈ sourcesOf w0
                ∧ e ∈ calOf (setCal w0 (targetOf w0) (T0 ++ C) (nextId w0 + length C)) s
                ∧ inWindow a b e ∧ eligible e = true ∧ slotKey e = k)
    ∧ (∀ k, k ∈ keep →
         Map_has (Map_new ((λ ev, (slotKey ev, ev)) <$> listed1 T0 a b)) k = true
         ∨ ∃ c, c ∈ C ∧ slotKey c = k)
    ∧ (∀ s e, s ∈ sourcesOf w0 → e ∈ calOf w0 s → inWindow a b e →
              eligible e = true → slotKey e ∈ keep)
    ∧ ∃ D, (∀ d, d ∈ D → d ∈ listed1 T0 a b)
           ∧ (NoDup (slotKey <$> filter isSynced T0) → D = obsolete1 T0 a b keep)
           ∧ world st1 = setCal w0 (targetOf w0)
                           (filter (λ ev, id ev ∉ id <$> D) (T0 ++ C))
                           (nextId w0 + length C).
Proof.
  intros Hq Hids Hidle Hrun w0.
  destruct (first_run_summary tza st0 st1 Hq Hidle Hrun)
    as (T0 & a & b & C & keep & Hcal & Hrange & _ & Hrest).
  cbn zeta in Hrest. destruct Hrest as (Hw1 & _ & Hinv & Hall).
  destruct (Hids _ Hcal) as [Hnd Hfresh].
  fold w0 in Hcal, Hrange, Hw1, Hinv, Hall, Hnd, Hfresh.
  fold (listed1 T0 a b) in Hw1, Hinv.
  destruct Hinv as (_ & HC & Hwit & Horigin). cbn [world] in Hwit.
  exists T0, a, b, C, keep. split_and!; try done.
  eexists. split; [|split; [|exact Hw1]].
  - intros d Hd. apply list_elem_of_fmap in Hd as ([k d'] & -> & Hin).
    apply list_elem_of_filter in Hin as [_ Hin].
    assert (Hv : d' ∈ (Map_new ((λ ev, (slotKey ev, ev)) <$> listed1 T0 a b)).*2).
    { apply list_elem_of_fmap. by exists (k, d'). }
    apply Map_new_values in Hv. rewrite <- list_fmap_compose in Hv.
    by rewrite list_fmap_id in Hv.
  - intros Hslots. rewrite Map_new_NoDup.
    + apply obsolete_values.
    + rewrite slotKey_keys. by apply listed1_NoDup.
Qed.

(** X21. Convergence.  On a provider that answers every request itself
    and lists in one page, whose target calendar holds no two tagged events
    with the same slot-key: after a run of sync that returned, the slot-keys
    of the tagged events the target holds in the range are exactly the
    slot-keys of the eligible events the configured source calendars hold
    in the range.  No busy slot is missing from the target and no stale
    one is left.  (How many tagged events a slot has is another matter:
    see C1.) *)
Theorem sync_converges (st0 st1 : State World) :
  quiet (world st0) → providerIds (world st0) → distinctSlots (world st0) →
  _syncInProgress st0 = false →
  performSync st0 = (Normal (), st1) →
  let w0 := world st0 in
  ∃ a b,
    rangeOf tza w0 = (Some a, Some b)
    ∧ ∀ k,
        (∃ t, t ∈ calOf (world st1) (targetOf w0)
              ∧ isSynced t ∧ inWindow a b t ∧ slotKey t = k)
        ↔ (∃ s e, s ∈ sourcesOf w0 ∧ e ∈ calOf (world st1) s
                  ∧ inWindow a b e ∧ eligible e = true ∧ slotKey e = k).
Proof.
  intros Hq Hids Hslots Hidle Hrun w0.
  destruct (after_run st0 st1 Hq Hids Hidle Hrun)
    as (T0 & a & b & C & keep & Hcal & Hrange & Hnd & Hfresh & HC & Hwit
        & Horigin & Hall & D & _ & HD & Hw1).
  fold w0 in Hcal, Hrange, Hnd, Hfresh, HC, Hwit, Horigin, Hall, Hw1.
  rewrite (HD (Hslots _ Hcal)) in Hw1.
  fold (after1 T0 C a b keep) in Hw1. fold (world2 w0 (targetOf w0) T0 C a b keep) in Hw1.
  assert (Horigin' : ∀ k, k ∈ keep →
            k ∈ slotKey <$> listed1 T0 a b ∨ ∃ c, c ∈ C ∧ slotKey c = k).
  { intros k Hk. destruct (Horigin k Hk) as [Hm|?]; [left|by right].
    apply Map_has_elem in Hm. rewrite Map_new_keys in Hm. by rewrite slotKey_keys in Hm. }
  exists a, b. split; [done|]. intros k. rewrite Hw1. split.
  - intros (t & Ht & Htag & Hwin & <-).
    unfold world2 in Ht. rewrite calOf_setCal_eq in Ht.
    apply (second_kept tza w0 (targetOf w0) (sourcesOf w0) T0 C a b keep
             Hnd Hfresh HC Hwit).
    by apply listed2_elem.
  - intros (s & e & Hs & He & Hwin & Hel & <-).
    pose proof (second_known tza w0 (targetOf w0) (sourcesOf w0) T0 C a b keep
                  Hcal Hnd Hfresh HC Horigin' Hall s e Hs He Hwin Hel) as Hk.
    apply list_elem_of_fmap in Hk as (t & Hkey & Ht).
    apply listed2_elem in Ht as (Htag & Hwt & Ht).
    exists t. unfold world2. rewrite calOf_setCal_eq. by split_and!.
Qed.

(** X22. What a run of sync leaves alone.  On a provider that answers
    every request itself and lists in one page, after a run that returned:
    every calendar other than the target holds what it held; every event
    of the target that is not tagged, or lies outside the range, is still
    there; and nothing untagged has been added to the target. *)
Theorem sync_keeps_foreign_events (st0 st1 : State World) :
  quiet (world st0) → providerIds (world st0) → _syncInProgress st0 = false →
  performSync st0 = (Normal (), st1) →
  let w0 := world st0 in
  ∃ a b,
    rangeOf tza w0 = (Some a, Some b)
    ∧ (∀ c, c ≠ targetOf w0 → calendars (world st1) !! c = calendars w0 !! c)
    ∧ (∀ ev, ev ∈ calOf w0 (targetOf w0) →
             ¬ isSynced ev ∨ ¬ inWindow a b ev →
             ev ∈ calOf (world st1) (targetOf w0))
    ∧ (∀ ev, ev ∈ calOf (world st1) (targetOf w0) →
             ¬ isSynced ev → ev ∈ calOf w0 (targetOf w0)).
Proof.
  intros Hq Hids Hidle Hrun w0.
  destruct (after_run st0 st1 Hq Hids Hidle Hrun)
    as (T0 & a & b & C & keep & Hcal & Hrange & Hnd & Hfresh & HC & _
        & _ & _ & D & HD & _ & Hw1).
  fold w0 in Hcal, Hrange, Hnd, Hfresh, HC, Hw1.
  assert (HT0 : calOf w0 (targetOf w0) = T0) by (unfold calOf; by rewrite Hcal).
  exists a, b. split; [done|]. rewrite Hw1, HT0, calOf_setCal_eq. split_and!.
  - intros c Hc. unfold setCal. cbn [calendars]. by rewrite lookup_insert_ne.
  - intros ev Hev Hout. apply list_elem_of_filter.
    split; [|apply elem_of_app; by left].
    intros Hid. apply list_elem_of_fmap in Hid as (d & Hidd & Hd).
    specialize (HD d Hd). unfold listed1 in HD.
    rewrite !list_elem_of_filter in HD. destruct HD as (Htag & Hwin & HdT0).
    assert (ev = d) by (by eapply NoDup_fmap_eq). subst d. tauto.
  - intros ev Hev Huntagged. apply list_elem_of_filter in Hev as [_ Hev].
    apply elem_of_app in Hev as [Hev|Hev]; [done|].
    rewrite Forall_forall in HC. by destruct (HC _ Hev) as (_ & ? & _).
Qed.

End Outcome.

(** Witness for X21: the run over [Scenario.staleAndNew]. *)
Lemma sync_converges_witness :
  let st1 := (performSync (PF := Scenario.eastern) Scenario.staleAndNew).2 in
  let w0 := world Scenario.staleAndNew in
  ∃ a b,
    rangeOf (JsDate.fixedOffset (-240)) w0 = (Some a, Some b)
    ∧ ∀ k,
        (∃ t, t ∈ calOf (world st1) (targetOf w0)
              ∧ isSynced t ∧ Cloud.inWindow a b t ∧ slotKey t = k)
        ↔ (∃ s e, s ∈ sourcesOf w0 ∧ e ∈ calOf (world st1) s
                  ∧ Cloud.inWindow a b e
                  ∧ eligible (PF := Scenario.eastern) e = true ∧ slotKey e = k).
Proof.
  intros st1 w0.
  apply (sync_converges (JsDate.fixedOffset (-240)) Scenario.staleAndNew st1).
  - split; reflexivity.
  - intros T0 H. vm_compute in H. inversion H; subst T0; clear H. split.
    + apply (bool_decide_unpack _). vm_compute. reflexivity.
    + intros n _ Hin.
      repeat (apply elem_of_cons in Hin as [Heq|Hin]; [by inversion Heq|]).
      by inversion Hin.
  - intros T0 H. vm_compute in H. inversion H; subst T0; clear H.
    apply (bool_decide_unpack _). vm_compute. reflexivity.
  - reflexivity.
  - vm_compute. reflexivity.
Defined.

(** Witness for X22: the same run. *)
Lemma sync_keeps_foreign_events_witness :
  let st1 := (performSync (PF := Scenario.eastern) Scenario.staleAndNew).2 in
  let w0 := world Scenario.staleAndNew in
  ∃ a b,
    rangeOf (JsDate.fixedOffset (-240)) w0 = (Some a, Some b)
    ∧ (∀ c, c ≠ targetOf w0 → Cloud.calendars (world st1) !! c = Cloud.calendars w0 !! c)
    ∧ (∀ ev, ev ∈ calOf w0 (targetOf w0) →
             ¬ isSynced ev ∨ ¬ Cloud.inWindow a b ev →
             ev ∈ calOf (world st1) (targetOf w0))
    ∧ (∀ ev, ev ∈ calOf (world st1) (targetOf w0) →
             ¬ isSynced ev → ev ∈ calOf w0 (targetOf w0)).
Proof.
  intros st1 w0.
  apply (sync_keeps_foreign_events (JsDate.fixedOffset (-240)) Scenario.staleAndNew st1).
  - split; reflexivity.
  - intros T0 H. vm_compute in H. inversion H; subst T0; clear H. split.
    + apply (bool_decide_unpack _). vm_compute. reflexivity.
    + intros n _ Hin.
      repeat (apply elem_of_cons in Hin as [Heq|Hin]; [by inversion Heq|]).
      by inversion Hin.
  - reflexivity.
  - vm_compute. reflexivity.
Defined.

(* ===================================================================== *)
(** * The whole extension in the executable browser                       *)
(* ===================================================================== *)

Section InChromium.
Context (tza : JsDate.TZA).
Import Chromium.

#[local] Hint Extern 0 (Browser _) =>
  exact (Chromium.browser tza) : typeclass_instances.

Lemma serve_status r p : status (Cloud.serve r p).1 ≠ 401.
Proof.
  unfold Cloud.serve. destruct r as [c a b mr tok|c bd|c i];
    destruct (Cloud.calendars p !! c) as [evs|]; simpl; try done.
  - unfold Cloud.listPage. destruct (Cloud.offsetOf _ _); [|done].
    by destruct (Cloud.pageSize p).
  - by case_bool_decide.
Qed.

(** A request of an online browser: the provider's answer, after one send
    when the cached token is accepted, and after a 401, a new token and a
    second send when it is not. *)
Lemma online_request (r : Request) (w : World) t :
  cachedToken w = Some t → consent w = true → Cloud.faults (provider w) = [] →
  ∃ w', Auth.makeAuthenticatedRequest fetch status r w
        = (inr (Cloud.serve r (provider w)).1, w')
      ∧ provider w' = (Cloud.serve r (provider w)).2
      ∧ sent w' = sent w ++ (if bool_decide (t ∈ accepted w) then [(Some r, t)]
                             else [(Some r, t); (Some r, freshToken w)])
      ∧ cachedToken w' = Some (if bool_decide (t ∈ accepted w) then t
                                else freshToken w)
      ∧ (if bool_decide (t ∈ accepted w) then t else freshToken w) ∈ accepted w'
      ∧ consent w' = true
      ∧ Cloud.faults (provider w') = [].
Proof.
  intros Hc Hconsent Hf.
  assert (Hfaults : ∀ p, Cloud.faults p = [] → Cloud.faults (Cloud.serve r p).2 = []).
  { intros p Hp. unfold Cloud.serve. destruct r as [c a b mr tok|c bd|c i];
      destruct (Cloud.calendars p !! c) as [evs|]; simpl; try done.
    by case_bool_decide. }
  assert (Htok : chrome_identity_getAuthToken false w = (inr t, w)).
  { cbn. unfold getAuthToken. by rewrite Hc. }
  destruct (decide (t ∈ accepted w)) as [Hin|Hout].
  - rewrite !bool_decide_true by done.
    eexists. split.
    + rewrite auth_cases, Htok. cbn [fetch browser]. unfold send.
      cbn [accepted with_sent provider]. rewrite bool_decide_true by done.
      rewrite (handle_quiet _ _ Hf).
      rewrite bool_decide_false by apply serve_status. reflexivity.
    + cbn. split_and!; try done. by apply Hfaults.
  - rewrite !bool_decide_false by done.
    set (w2 := with_sent (sent w ++ [(Some r, t)]) w).
    assert (Hsend : fetch r t w = (inr unauthorized, w2)).
    { cbn. unfold send. cbn [accepted with_sent]. by rewrite bool_decide_false by done. }
    rewrite auth_cases, Htok, Hsend. rewrite bool_decide_true by done.
    cbn [chrome_identity_removeCachedAuthToken chrome_identity_getAuthToken browser].
    unfold removeCachedAuthToken. cbn [cachedToken w2 with_sent].
    rewrite Hc, bool_decide_true by done.
    unfold getAuthToken. cbn [cachedToken with_cachedToken consent w2 with_sent].
    rewrite Hconsent. cbn [andb fetch browser]. unfold send.
    cbn [accepted with_sent freshToken minted with_cachedToken w2].
    rewrite bool_decide_true by (by left).
    cbn [provider with_sent]. rewrite (handle_quiet _ _ Hf).
    eexists. split; [reflexivity|]. cbn.
    split_and!; try done.
    + by rewrite <- app_assoc.
    + by left.
    + by apply Hfaults.
Qed.


(* --------------------------------------------------------------------- *)
(** ** The services in the browser and on the provider alone              *)
(* --------------------------------------------------------------------- *)

Local Abbreviation PFc := (platformOf (Chromium.browser tza)).
Local Abbreviation PFp := (Cloud.platform tza).

Lemma Sim_ret {A} (a : A) : Sim (mret a) (mret a).
Proof. intros st Hon. exists st. by split_and!. Qed.

Lemma Sim_throw {A} e : Sim (throw (A := A) e) (throw e).
Proof. intros st Hon. exists st. by split_and!. Qed.

Lemma Sim_bind {A B} (mc : M World A) (m : M Cloud.World A)
    (fc : A → M World B) (f : A → M Cloud.World B) :
  Sim mc m → (∀ a, Sim (fc a) (f a)) → Sim (mc ≫= fc) (m ≫= f).
Proof.
  intros Hm Hf st Hon. destruct (Hm st Hon) as (st1 & Hrun & Hb & Hon1).
  unfold mbind, M_bind. rewrite Hrun.
  destruct (m (behind st)) as [[a|e|] s1]; simpl in *.
  - destruct (Hf a st1 Hon1) as (st2 & Hrun2 & Hb2 & Hon2).
    exists st2. subst s1. rewrite Hrun2. by split_and!.
  - exists st1. by split_and!.
  - exists st1. by split_and!.
Qed.

Lemma Sim_try_catch {A} (mc : M World A) (m : M Cloud.World A)
    (hc : Exn → M World A) (h : Exn → M Cloud.World A) :
  Sim mc m → (∀ e, Sim (hc e) (h e)) → Sim (try_catch mc hc) (try_catch m h).
Proof.
  intros Hm Hh st Hon. destruct (Hm st Hon) as (st1 & Hrun & Hb & Hon1).
  unfold try_catch. rewrite Hrun.
  destruct (m (behind st)) as [[a|e|] s1]; simpl in *.
  - exists st1. by split_and!.
  - destruct (Hh e st1 Hon1) as (st2 & Hrun2 & Hb2 & Hon2).
    exists st2. subst s1. rewrite Hrun2. by split_and!.
  - exists st1. by split_and!.
Qed.

Lemma Sim_forOf {A B} (bc : B → A → M World B) (b : B → A → M Cloud.World B) xs :
  (∀ acc x, Sim (bc acc x) (b acc x)) → ∀ acc, Sim (forOf bc acc xs) (forOf b acc xs).
Proof.
  intros Hb. induction xs as [|x xs IH]; intros acc; simpl.
  - apply Sim_ret.
  - apply Sim_bind; [apply Hb | intros; apply IH].
Qed.

Lemma Sim_liftE {A} (r : Exn + A) : Sim (liftE r) (liftE r).
Proof. destruct r; [apply Sim_throw | apply Sim_ret]. Qed.

Lemma Sim_json response : Sim (json response) (json response).
Proof. unfold json. destruct (body response); try apply Sim_ret. apply Sim_throw. Qed.

Lemma Sim_newDate : Sim (newDate (PF := PFc)) (newDate (PF := PFp)).
Proof. intros st Hon. exists (afterDate (PF := PFc) st). by split_and!. Qed.

Lemma Sim_request r : Sim (request (PF := PFc) r) (request (PF := PFp) r).
Proof.
  intros st (Htok & Hconsent & Hf). destruct Htok as [t Htok].
  destruct (online_request r (world st) t Htok Hconsent Hf)
    as (w' & Hreq & Hp & _ & Hc' & _ & Hconsent' & Hf').
  unfold request. cbn [makeAuthenticatedRequest platformOf Cloud.platform behind world].
  rewrite Hreq, (handle_quiet _ _ Hf). cbn.
  eexists. split; [reflexivity|]. unfold behind. cbn. rewrite Hp.
  split; [done|]. by split_and!.
Qed.

Lemma Sim_getSettings : Sim (getSettings (PF := PFc)) (getSettings (PF := PFp)).
Proof. intros st Hon. eexists. split; [reflexivity|]. by split. Qed.

Lemma Sim_fetchEvents c a b tok :
  Sim (fetchEvents (PF := PFc) c a b tok) (fetchEvents (PF := PFp) c a b tok).
Proof.
  unfold fetchEvents. case_bool_decide; [apply Sim_throw|].
  destruct a, b; try apply Sim_throw.
  apply Sim_try_catch; [|intros; apply Sim_throw].
  apply Sim_bind; [apply Sim_request|]. intros response.
  destruct (negb (ok response)); [apply Sim_throw|].
  apply Sim_bind; [apply Sim_json | intros; apply Sim_ret].
Qed.

Lemma Sim_createBusyEvent c ev :
  Sim (createBusyEvent (PF := PFc) c ev) (createBusyEvent (PF := PFp) c ev).
Proof.
  unfold createBusyEvent. destruct (_ || _); [apply Sim_ret|].
  change (LocalTZA (Platform := PFc)) with (LocalTZA (Platform := PFp)).
  destruct (strictNe _ _); [apply Sim_ret|].
  apply Sim_bind; [apply Sim_newDate|]. intros now.
  apply Sim_bind.
  - apply Sim_try_catch; [|intros; apply Sim_throw].
    apply Sim_bind; [apply Sim_request|]. intros response.
    destruct (negb (ok response)); [apply Sim_throw | apply Sim_ret].
  - intros response. apply Sim_bind; [apply Sim_json | intros; apply Sim_ret].
Qed.

Lemma Sim_deleteEvent c i :
  Sim (deleteEvent (PF := PFc) c i) (deleteEvent (PF := PFp) c i).
Proof.
  unfold deleteEvent. apply Sim_try_catch; [|intros; apply Sim_throw].
  apply Sim_bind; [apply Sim_request|]. intros response.
  destruct (negb (ok response)); [apply Sim_throw | apply Sim_ret].
Qed.

Lemma Sim_syncEvent target map keep ev :
  Sim (syncEvent (PF := PFc) target map keep ev)
      (syncEvent (PF := PFp) target map keep ev).
Proof.
  unfold syncEvent. destruct (_ || _); [apply Sim_ret|].
  change (LocalTZA (Platform := PFc)) with (LocalTZA (Platform := PFp)).
  destruct (strictNe _ _); [apply Sim_ret|].
  apply Sim_bind; [apply Sim_liftE|]. intros key.
  apply Sim_bind; [|intros; apply Sim_ret].
  destruct (negb _); [|apply Sim_ret].
  apply Sim_bind; [apply Sim_createBusyEvent | intros; apply Sim_ret].
Qed.

Lemma Sim_performSync_try :
  Sim (performSync_try (PF := PFc)) (performSync_try (PF := PFp)).
Proof.
  unfold performSync_try. apply Sim_bind.
  { intros st Hon. eexists. split; [reflexivity|]. by split. }
  intros _. apply Sim_bind; [apply Sim_getSettings|]. intros settings.
  destruct (_ || _); [apply Sim_throw|].
  apply Sim_bind; [apply Sim_newDate|]. intros now1.
  apply Sim_bind; [apply Sim_newDate|]. intros now2.
  change (syncRange (PF := PFc) now1 now2 (weeksAhead settings))
    with (syncRange (PF := PFp) now1 now2 (weeksAhead settings)).
  destruct (syncRange _ _ _) as [startTime endTime].
  apply Sim_bind; [apply Sim_fetchEvents|]. intros events.
  apply Sim_bind; [apply Sim_liftE|]. intros entries.
  apply Sim_bind.
  { apply Sim_forOf. intros keep src. unfold syncSource.
    apply Sim_bind; [apply Sim_fetchEvents|]. intros evs.
    apply Sim_forOf. intros. apply Sim_syncEvent. }
  intros keep. apply Sim_bind.
  { apply Sim_forOf. intros u entry. unfold deleteObsolete.
    destruct (negb _); [apply Sim_deleteEvent | apply Sim_ret]. }
  intros _. apply Sim_bind; [apply Sim_newDate|]. intros now'.
  intros st Hon. eexists. split; [reflexivity|]. by split.
Qed.

Lemma Sim_performSync : Sim (performSync (PF := PFc)) (performSync (PF := PFp)).
Proof.
  intros st Hon. unfold performSync. cbn [behind _syncInProgress].
  destruct (_syncInProgress st); [exists st; by split_and!|].
  assert (Hinner : Sim (try_catch (performSync_try (PF := PFc)) (λ error, throw error))
                       (try_catch (performSync_try (PF := PFp)) (λ error, throw error))).
  { apply Sim_try_catch; [apply Sim_performSync_try | intros; apply Sim_throw]. }
  destruct (Hinner st Hon) as (st1 & Hrun & Hb & Hon1).
  unfold try_finally. rewrite Hrun.
  destruct (try_catch performSync_try _ (behind st)) as [[a|e|] s1]; simpl in *;
    eexists; (split; [reflexivity|]); rewrite <- Hb; by split.
Qed.

Lemma Sim_cleanupAll fuel :
  Sim (cleanupAll (PF := PFc) fuel) (cleanupAll (PF := PFp) fuel).
Proof.
  unfold cleanupAll. apply Sim_try_catch; [|intros; apply Sim_throw].
  apply Sim_bind; [apply Sim_getSettings|]. intros settings.
  destruct (negb _); [apply Sim_throw|].
  apply Sim_bind.
  { unfold _getDateRange. apply Sim_bind; [apply Sim_newDate|]. intros now.
    change (LocalTZA (Platform := PFc)) with (LocalTZA (Platform := PFp)).
    apply Sim_ret. }
  intros [[cleanupStart startDate] endDate].
  apply Sim_bind; [|intros; apply Sim_ret].
  unfold cleanupSyncedEvents. apply Sim_bind.
  - generalize (@nil Event) (@None string).
    induction fuel as [|fuel IH]; intros all tok; simpl.
    + intros st Hon. exists st. by split_and!.
    + apply Sim_bind; [apply Sim_fetchEvents|]. intros data.
      apply Sim_ret.
  - intros all. apply Sim_bind; [|intros; apply Sim_ret].
    apply Sim_forOf. intros. apply Sim_deleteEvent.
Qed.

(** X23. The authentication layer is transparent to the services.  In a
    browser that holds a cached token (still valid or expired), whose user
    consents to a new one, in front of a provider that answers every
    request itself: a run of sync and a run of cleanup return or throw
    what they do on the provider alone, leave the fields of the sync
    service, the trace of requests and the provider as they do there, and
    leave the browser with a token.  What is proved of the services on the
    provider holds of the extension in that browser. *)
Theorem stack_is_transparent (fuel : nat) (st : State World) :
  online (world st) →
  (let run := performSync (PF := platformOf (Chromium.browser tza)) st in
   let ref := performSync (PF := Cloud.platform tza) (behind st) in
   run.1 = ref.1 ∧ behind run.2 = ref.2 ∧ online (world run.2))
  ∧ (let run := cleanupAll (PF := platformOf (Chromium.browser tza)) fuel st in
     let ref := cleanupAll (PF := Cloud.platform tza) fuel (behind st) in
     run.1 = ref.1 ∧ behind run.2 = ref.2 ∧ online (world run.2)).
Proof.
  intros Hon. split.
  - destruct (Sim_performSync st Hon) as (st' & Hrun & Hb & Hon').
    cbn zeta. by rewrite Hrun.
  - destruct (Sim_cleanupAll fuel st Hon) as (st' & Hrun & Hb & Hon').
    cbn zeta. by rewrite Hrun.
Qed.

(** X24. An expired token is renewed without the caller noticing.  A
    request of a browser whose cached token the provider no longer
    accepts, and whose user consents, is sent twice, first with the old
    token and then with a new one, and resolves to the provider's answer;
    the new token is the cached one afterwards.  With an accepted token
    the request is sent once. *)
Theorem expired_token_renewed (r : Request) (w : World) t :
  cachedToken w = Some t → consent w = true → Cloud.faults (provider w) = [] →
  let res := makeAuthenticatedRequest
               (Platform := platformOf (Chromium.browser tza)) r w in
  let t' := if bool_decide (t ∈ accepted w) then t else freshToken w in
  res.1 = inr (Cloud.serve r (provider w)).1
  ∧ provider res.2 = (Cloud.serve r (provider w)).2
  ∧ sent res.2 = sent w ++ (if bool_decide (t ∈ accepted w) then [(Some r, t)]
                            else [(Some r, t); (Some r, freshToken w)])
  ∧ cachedToken res.2 = Some t'
  ∧ t' ∈ accepted res.2.
Proof.
  intros Hc Hconsent Hf res t'.
  destruct (online_request r w t Hc Hconsent Hf)
    as (w' & Hreq & Hp & Hsent & Hc' & Hacc & _).
  unfold res. cbn [makeAuthenticatedRequest platformOf]. rewrite Hreq.
  by split_and!.
Qed.

End InChromium.

(** Witness for X23: the calendars of [Scenario.staleAndNew] behind a
    browser whose token has expired. *)
Lemma stack_is_transparent_witness :
  let st := Chromium.init (Session.expired (world Scenario.staleAndNew)) in
  (let run := performSync (PF := platformOf (Chromium.browser (JsDate.fixedOffset (-240)))) st in
   let ref := performSync (PF := Cloud.platform (JsDate.fixedOffset (-240))) (behind st) in
   run.1 = ref.1 ∧ behind run.2 = ref.2 ∧ online (world run.2))
  ∧ (let run := cleanupAll (PF := platformOf (Chromium.browser (JsDate.fixedOffset (-240)))) 1 st in
     let ref := cleanupAll (PF := Cloud.platform (JsDate.fixedOffset (-240))) 1 (behind st) in
     run.1 = ref.1 ∧ behind run.2 = ref.2 ∧ online (world run.2)).
Proof.
  intros st. apply (stack_is_transparent (JsDate.fixedOffset (-240)) 1 st).
  split; [by eexists|]. by split.
Defined.

(** That run of sync: it returns, the provider ends as in
    [stale_and_new_first_run], and the first of its requests was sent
    twice. *)
Example sync_with_expired_token :
  let st := Chromium.init (Session.expired (world Scenario.staleAndNew)) in
  let run := performSync (PF := Session.platform) st in
  run.1 = Normal ()
  ∧ id <$> calOf (Chromium.provider (world run.2)) "work" = ["mtg"; "evt0"]
  ∧ length (trace run.2) = 5%nat
  ∧ (λ x, x.2) <$> Chromium.sent (world run.2)
    = ["token0"; "token1"; "token1"; "token1"; "token1"; "token1"].
Proof. by vm_compute. Qed.

(** Witness for X24: a delete sent with an expired token. *)
Lemma expired_token_renewed_witness :
  let w := Session.expired (world Scenario.stale) in
  let r := DELETE_events "work" "old1" in
  let res := makeAuthenticatedRequest
               (Platform := platformOf (Chromium.browser (JsDate.fixedOffset (-240)))) r w in
  res.1 = inr (Cloud.serve r (Chromium.provider w)).1
  ∧ Chromium.provider res.2 = (Cloud.serve r (Chromium.provider w)).2
  ∧ Chromium.sent res.2 = [(Some r, "token0"); (Some r, "token1")]
  ∧ Chromium.cachedToken res.2 = Some "token1"
  ∧ "token1" ∈ Chromium.accepted res.2.
Proof.
  intros w r.
  apply (expired_token_renewed (JsDate.fixedOffset (-240)) r w "token0"); reflexivity.
Defined.

(** Witness for X19: two slots of [Scenario]. *)
Lemma eventKey_injective_witness :
  _createEventKey (Some {| dateTime := Some "2024-06-03T09:00:00-04:00";
                           timeZone := None |})
                  (Some {| dateTime := Some "2024-06-03T09:30:00-04:00";
                           timeZone := None |})
  = _createEventKey (Some {| dateTime := Some "2024-06-03T09:00:00-04:00";
                             timeZone := Some "America/New_York" |})
                    (Some {| dateTime := Some "2024-06-03T09:30:00-04:00";
                             timeZone := Some "America/New_York" |})
  ∧ "2024-06-03T09:00:00-04:00" = "2024-06-03T09:00:00-04:00"
  ∧ "2024-06-03T09:30:00-04:00" = "2024-06-03T09:30:00-04:00".
Proof.
  split; [reflexivity|].
  apply (eventKey_injective "2024-06-03T09:00:00-04:00" "2024-06-03T09:30:00-04:00"
           "2024-06-03T09:00:00-04:00" "2024-06-03T09:30:00-04:00"
           None None (Some "America/New_York") (Some "America/New_York")).
  - apply (bool_decide_unpack _). vm_compute. reflexivity.
  - apply (bool_decide_unpack _). vm_compute. reflexivity.
  - reflexivity.
Defined.

(** The same instant written with two offsets gives two keys. *)
Example eventKey_is_textual :
  Cloud.instant "2024-06-03T09:00:00-04:00" = Cloud.instant "2024-06-03T13:00:00Z"
  ∧ slotKey (Scenario.timed "a" "2024-06-03T09:00:00-04:00" "2024-06-03T09:30:00-04:00" None)
    ≠ slotKey (Scenario.timed "b" "2024-06-03T13:00:00Z" "2024-06-03T13:30:00Z" None).
Proof. split; [reflexivity|]. vm_compute. discriminate. Qed.
